(** * Mixtape: the in-memory data store and its command processor

    A shallow embedding of the entity records, of [DataStore] with its
    methods and of [CommandProcessor], together with the parts of Go's
    runtime and of the [strconv] package they rely on, and the properties of
    the store stated against that embedding. *)

From stdpp Require Import base numbers strings list gmap pretty.
From Stdlib Require Import ZArith Lia Ascii.

Local Open Scope Z_scope.

(** ** Go's [int] *)

(** [int] is a 64-bit two's complement integer on the platforms the program
    is built for; arithmetic wraps around silently. *)
Module GoInt.
Definition maxInt : Z := 2 ^ 63 - 1.
Definition minInt : Z := - 2 ^ 63.

Definition wrap (z : Z) : Z := (z + 2 ^ 63) mod 2 ^ 64 - 2 ^ 63.

Definition inRange (z : Z) : Prop := minInt <= z <= maxInt.

Definition add (a b : Z) : Z := wrap (a + b).
Definition neg (a : Z) : Z := wrap (- a).
End GoInt.

(** ** Go's [error] values *)

(** The program produces errors in two ways: [strconv.Atoi] returns a
    [*strconv.NumError], everything else is built by [fmt.Errorf].  An
    [Errorf] value keeps the format string and the operands instead of the
    rendered text. *)
Inductive numErrKind := ErrSyntax | ErrRange.

Inductive error :=
| NumError (Func Num : string) (Err : numErrKind)
| Errorf (format : string) (args : list fmtArg)
with fmtArg :=
| ArgString (s : string)
| ArgStrings (l : list string)
| ArgError (e : error).

(** ** The [strconv] functions used by the store *)

Module strconv.
Definition maxUint64 : Z := 2 ^ 64 - 1.

(** The value of a decimal digit, [None] for any other byte. *)
Definition digit (c : ascii) : option Z :=
  let n := Z.of_N (N_of_ascii c) in
  if (48 <=? n) && (n <=? 57) then Some (n - 48) else None.

(** The digit loop of [ParseUint(s, 10, 64)]: the accumulator is a
    [uint64]; the loop stops at the first byte that is not a digit or that
    would push the accumulator over [maxUint64]. *)
Fixpoint parseUintLoop (n : Z) (s : string) : Z + numErrKind :=
  match s with
  | EmptyString => inl n
  | String c s' =>
      match digit c with
      | None => inr ErrSyntax
      | Some d =>
          if maxUint64 / 10 + 1 <=? n then inr ErrRange
          else
            let n10 := n * 10 in
            let n1 := (n10 + d) mod 2 ^ 64 in
            if (n1 <? n10) || (maxUint64 <? n1) then inr ErrRange
            else parseUintLoop n1 s'
      end
  end.

Definition ParseUint (s : string) : Z * option numErrKind :=
  match s with
  | EmptyString => (0, Some ErrSyntax)
  | _ =>
      match parseUintLoop 0 s with
      | inl n => (n, None)
      | inr ErrSyntax => (0, Some ErrSyntax)
      | inr ErrRange => (maxUint64, Some ErrRange)
      end
  end.

(** [ParseInt(s, 10, 0)]: an optional sign, then [ParseUint], then the
    range check against [1 << 63]. *)
Definition ParseInt (s : string) : Z * option numErrKind :=
  match s with
  | EmptyString => (0, Some ErrSyntax)
  | String c rest =>
      let neg := Ascii.eqb c "-" in
      let s1 := if Ascii.eqb c "+" || neg then rest else s in
      match ParseUint s1 with
      | (_, Some ErrSyntax) => (0, Some ErrSyntax)
      | (un, _) =>
          let cutoff := 2 ^ 63 in
          if negb neg && (cutoff <=? un) then (cutoff - 1, Some ErrRange)
          else if neg && (cutoff <? un) then (- cutoff, Some ErrRange)
          else
            let n := GoInt.wrap un in
            (if neg then GoInt.neg n else n, None)
      end
  end.

(** [Atoi(s)] is [ParseInt(s, 10, 0)] converted to [int]; its error names
    [Atoi] as the failing function and carries the input.  (The library's
    shortcut for inputs of fewer than 19 bytes returns the same results.) *)
Definition Atoi (s : string) : Z * option error :=
  match ParseInt s with
  | (i64, None) => (i64, None)
  | (i64, Some k) => (i64, Some (NumError "Atoi" s k))
  end.

(** [Itoa(i)] is the decimal representation of [i], with a leading minus
    sign for negative numbers and no leading zeros. *)
Definition Itoa (i : Z) : string := pretty i.
End strconv.

(** ** Slices of strings and the memory they point into *)

(** A [[]string] is a window on a backing array that other slices may share.
    The heap maps the address of each backing array to its cells. *)
Abbreviation Heap := (gmap positive (list string)).

Record slice := mkSlice {
  arr : positive;  (* address of the backing array *)
  off : nat;       (* position of the slice's first cell in that array *)
  len : nat;
  cap : nat
}.

Definition array (h : Heap) (a : positive) : list string := default [] (h !! a).

(** The elements [s[0]], ..., [s[len(s)-1]]. *)
Definition cells (h : Heap) (s : slice) : list string :=
  take (len s) (drop (off s) (array h (arr s))).

(** What the runtime guarantees of every slice value. *)
Definition slice_wf (h : Heap) (s : slice) : Prop :=
  (len s <= cap s)%nat /\ (off s + cap s <= length (array h (arr s)))%nat.

(** [s[low:]], defined when [low <= len(s)]. *)
Definition slice_from (s : slice) (low : nat) : slice :=
  {| arr := arr s; off := off s + low; len := len s - low; cap := cap s - low |}.

(** [s[i] = x] for [i < len(s)]. *)
Definition store_cell (h : Heap) (s : slice) (i : nat) (x : string) : Heap :=
  alter (fun a => <[(off s + i)%nat := x]> a) (arr s) h.

(** [make([]string, n)]: a fresh backing array of [n] empty strings. *)
Definition make (h : Heap) (n : nat) : slice * Heap :=
  let a := fresh (dom h) in
  ({| arr := a; off := 0; len := n; cap := n |}, <[a := replicate n EmptyString]> h).

(** [copy(dst, src)] copies [min(len(dst), len(src))] elements. *)
Definition copy (h : Heap) (dst src : slice) : Heap :=
  let data := take (len dst) (cells h src) in
  alter (fun a => take (off dst) a ++ data ++ drop (off dst + length data) a)
        (arr dst) h.

Section Runtime.
(** How much room beyond the new length [append] reserves when it has to
    move a slice of the given capacity: the runtime's choice. *)
Variable slack : nat -> nat.

(** [append(s, x)]: in place when the capacity allows, in a fresh backing
    array otherwise. *)
Definition append (h : Heap) (s : slice) (x : string) : slice * Heap :=
  if decide (len s < cap s)%nat then
    ({| arr := arr s; off := off s; len := S (len s); cap := cap s |},
     store_cell h s (len s) x)
  else
    let a := fresh (dom h) in
    let room := slack (cap s) in
    ({| arr := a; off := 0; len := S (len s); cap := (S (len s) + room)%nat |},
     <[a := cells h s ++ x :: replicate room EmptyString]> h).
End Runtime.

(** ** The entity records *)

Record User := mkUser { User_Id : string; User_Name : string }.

Record Playlist := mkPlaylist {
  Playlist_Id : string;
  Playlist_UserId : string;
  Playlist_SongIds : slice
}.

Record Song := mkSong { Song_Id : string; Song_Artist : string; Song_Title : string }.

(** ** The data store *)

Definition BASE_10 : Z := 10.
Definition SIZE_64BIT : Z := 64.

(** The three collections and the three maps are reachable through the store
    only, so they are values of the record: a [[]Playlist] is the list of its
    elements, indexed by an [int], and a map is a finite map (the store's maps
    are never [nil]: [buildLookupTables] makes them).  The song ids of a
    playlist are a [[]string] that callers may share, hence a [slice]. *)
Record DataStore := mkDataStore {
  Users : list User;
  Playlists : list Playlist;
  Songs : list Song;
  userMap : gmap string Z;
  playlistMap : gmap string Z;
  songMap : gmap string Z;
  nextPlaylistId : Z
}.

Definition set_Playlists (ps : list Playlist) (ds : DataStore) : DataStore :=
  mkDataStore (Users ds) ps (Songs ds) (userMap ds) (playlistMap ds) (songMap ds)
              (nextPlaylistId ds).
Definition set_userMap (m : gmap string Z) (ds : DataStore) : DataStore :=
  mkDataStore (Users ds) (Playlists ds) (Songs ds) m (playlistMap ds) (songMap ds)
              (nextPlaylistId ds).
Definition set_playlistMap (m : gmap string Z) (ds : DataStore) : DataStore :=
  mkDataStore (Users ds) (Playlists ds) (Songs ds) (userMap ds) m (songMap ds)
              (nextPlaylistId ds).
Definition set_songMap (m : gmap string Z) (ds : DataStore) : DataStore :=
  mkDataStore (Users ds) (Playlists ds) (Songs ds) (userMap ds) (playlistMap ds) m
              (nextPlaylistId ds).
Definition set_nextPlaylistId (n : Z) (ds : DataStore) : DataStore :=
  mkDataStore (Users ds) (Playlists ds) (Songs ds) (userMap ds) (playlistMap ds)
              (songMap ds) n.

(** The state a method of [*DataStore] runs in: the store it points to and
    the heap holding the backing arrays of all [[]string] values. *)
Record World := mkWorld { heap : Heap; store : DataStore }.

(** A run-time panic ends the program: nothing is left to observe. *)
Inductive runtimeError :=
| IndexOutOfRange (i : Z) (n : nat).

Inductive outcome (A : Type) :=
| Ret (a : A) (w : World)
| Panic (e : runtimeError).
Arguments Ret {A} a w.
Arguments Panic {A} e.

Definition M (A : Type) : Type := World -> outcome A.

Definition ret {A} (a : A) : M A := fun w => Ret a w.
Definition bind {A B} (m : M A) (k : A -> M B) : M B :=
  fun w => match m w with Ret a w' => k a w' | Panic e => Panic e end.
Definition panic {A} (e : runtimeError) : M A := fun _ => Panic e.
Definition getStore : M DataStore := fun w => Ret (store w) w.
Definition putStore (ds : DataStore) : M unit :=
  fun w => Ret tt {| heap := heap w; store := ds |}.
Definition getHeap : M Heap := fun w => Ret (heap w) w.
Definition putHeap (h : Heap) : M unit :=
  fun w => Ret tt {| heap := h; store := store w |}.

Declare Scope go_scope.
Delimit Scope go_scope with go.
Notation "x <- m ;; k" := (bind m (fun x => k))
  (at level 100, m at next level, right associativity) : go_scope.
Notation "m ;;; k" := (bind m (fun _ => k))
  (at level 100, right associativity) : go_scope.
Local Open Scope go_scope.

(** [l[i]] on a slice of structs panics outside [0 <= i < len(l)]. *)
Definition elemAt {A} (l : list A) (i : Z) : option A :=
  if decide (0 <= i) then l !! Z.to_nat i else None.

Definition index {A} (l : list A) (i : Z) : M A :=
  match elemAt l i with
  | Some x => ret x
  | None => panic (IndexOutOfRange i (length l))
  end.

(** [l[i] = x]. *)
Definition assign {A} (l : list A) (i : Z) (x : A) : M (list A) :=
  match elemAt l i with
  | Some _ => ret (<[Z.to_nat i := x]> l)
  | None => panic (IndexOutOfRange i (length l))
  end.

(** [for i, x := range l { m[key(x)] = i }], started at position [i]. *)
Fixpoint indexLoop {A} (key : A -> string) (i : Z) (l : list A)
    (m : gmap string Z) : gmap string Z :=
  match l with
  | [] => m
  | x :: l' => indexLoop key (i + 1) l' (<[key x := i]> m)
  end.

(** The playlist loop of [buildLookupTables]: it fills the map, tracks the
    largest id and returns at the first id [Atoi] rejects. *)
Fixpoint playlistLoop (i : Z) (l : list Playlist) (m : gmap string Z)
    (maxPlaylistId : Z) : gmap string Z * (Z + error) :=
  match l with
  | [] => (m, inl maxPlaylistId)
  | playlist :: l' =>
      let m := <[Playlist_Id playlist := i]> m in
      match strconv.Atoi (Playlist_Id playlist) with
      | (_, Some err) => (m, inr err)
      | (intId, None) =>
          playlistLoop (i + 1) l' m
            (if maxPlaylistId <? intId then intId else maxPlaylistId)
      end
  end.

Definition buildLookupTables : M (option error) :=
  ds <- getStore ;;
  let ds := set_userMap (indexLoop User_Id 0 (Users ds) ∅) ds in
  let ds := set_songMap (indexLoop Song_Id 0 (Songs ds) ∅) ds in
  match playlistLoop 0 (Playlists ds) ∅ 0 with
  | (m, inr err) => putStore (set_playlistMap m ds) ;;; ret (Some err)
  | (m, inl maxPlaylistId) =>
      putStore (set_nextPlaylistId (GoInt.add maxPlaylistId 1)
                  (set_playlistMap m ds)) ;;;
      ret None
  end.

(** [NewDataStoreFromFile] from l.51 on, for the store [json.Unmarshal] has
    built: the decoder fills the three exported fields and leaves the rest
    zero.  The reading and the decoding, and the nil pointer that the
    document [null] leaves in [dataStore], on which l.60 panics, are in
    [Executable.NewDataStoreFromFile]. *)
Definition decoded (users : list User) (playlists : list Playlist)
    (songs : list Song) : DataStore :=
  mkDataStore users playlists songs ∅ ∅ ∅ 0.

Definition NewDataStoreFromFile (h : Heap) (users : list User)
    (playlists : list Playlist) (songs : list Song) : outcome (option error) :=
  buildLookupTables {| heap := h; store := decoded users playlists songs |}.

Definition RemovePlaylist (id : string) : M (bool * option error) :=
  ds <- getStore ;;
  match playlistMap ds !! id with
  | None => ret (false, None)
  | Some targetPlaylistIndex =>
      let lastIndex := Z.of_nat (length (Playlists ds)) - 1 in
      lastPlaylist <- index (Playlists ds) lastIndex ;;
      ps <- assign (Playlists ds) targetPlaylistIndex lastPlaylist ;;
      let ps := take (Z.to_nat lastIndex) ps in
      let m := delete id (playlistMap ds) in
      let m := <[Playlist_Id lastPlaylist := targetPlaylistIndex]> m in
      putStore (set_playlistMap m (set_Playlists ps ds)) ;;;
      ret (true, None)
  end.

Definition generatePlaylistId : M string :=
  ds <- getStore ;;
  let playlistId := nextPlaylistId ds in
  putStore (set_nextPlaylistId (GoInt.add (nextPlaylistId ds) 1) ds) ;;;
  ret (strconv.Itoa playlistId).

(** [for _, songId := range songIds]: [true] when some id is missing from
    the song map. *)
Fixpoint anyUnknownSong (m : gmap string Z) (songIds : list string) : bool :=
  match songIds with
  | [] => false
  | songId :: rest =>
      match m !! songId with
      | None => true
      | Some _ => anyUnknownSong m rest
      end
  end.

Definition AddNewPlaylist (userId : string) (songIds : slice)
    : M (string * option error) :=
  ds <- getStore ;;
  h <- getHeap ;;
  match userMap ds !! userId with
  | None => ret (EmptyString, Some (Errorf "The user id does not exist" []))
  | Some _ =>
      if decide (len songIds = 0%nat) then
        ret (EmptyString,
             Some (Errorf "A playlist must contain at least one song (zero sing IDs were provided)" []))
      else if anyUnknownSong (songMap ds) (cells h songIds) then
        ret (EmptyString,
             Some (Errorf "One or more of the song IDs provided is invalid" []))
      else
        let (songIdsCopy, h) := make h (len songIds) in
        putHeap (copy h songIdsCopy songIds) ;;;
        id <- generatePlaylistId ;;
        let newPlaylist := mkPlaylist id userId songIdsCopy in
        ds <- getStore ;;
        let ds := set_Playlists (Playlists ds ++ [newPlaylist]) ds in
        let ds :=
          set_playlistMap
            (<[Playlist_Id newPlaylist := Z.of_nat (length (Playlists ds)) - 1]>
               (playlistMap ds)) ds in
        putStore ds ;;;
        ret (Playlist_Id newPlaylist, None)
  end.

Section Store.
Variable slack : nat -> nat.

Definition AddSongToPlaylist (playlistId songId : string) : M (option error) :=
  ds <- getStore ;;
  match songMap ds !! songId with
  | None => ret (Some (Errorf "Song id does not exist" []))
  | Some _ =>
      match playlistMap ds !! playlistId with
      | None => ret (Some (Errorf "Playlist id does not exist" []))
      | Some playlistIndex =>
          p <- index (Playlists ds) playlistIndex ;;
          h <- getHeap ;;
          let (songIds, h) := append slack h (Playlist_SongIds p) songId in
          putHeap h ;;;
          ps <- assign (Playlists ds) playlistIndex
                  (mkPlaylist (Playlist_Id p) (Playlist_UserId p) songIds) ;;
          putStore (set_Playlists ps ds) ;;;
          ret None
      end
  end.
End Store.

(** ** The command processor *)

Definition ADD_PLAYLIST : string := "add-playlist".
Definition ADD_SONG_TO_PLAYLIST : string := "add-song-to-playlist".
Definition REMOVE_PLAYLIST : string := "rm-playlist".

(** The line feed that ends two of the format strings. *)
Definition LF : string := String (ascii_of_nat 10) EmptyString.

(** Each command is a [[]string]; the processor's [DataStore] pointer is the
    store of the world its methods run in. *)
Record CommandProcessor := mkCommandProcessor {
  Commands : list slice;
  errors : list error
}.

Definition NewCommandProcessor (commands : list slice) : CommandProcessor :=
  {| Commands := commands; errors := [] |}.

(** [s[i]] on a slice of strings. *)
Definition cell (s : slice) (i : nat) : M string :=
  h <- getHeap ;;
  match cells h s !! i with
  | Some x => ret x
  | None => panic (IndexOutOfRange (Z.of_nat i) (len s))
  end.

Section Processor.
Variable slack : nat -> nat.

Definition addNewPlaylist (command : slice) : M (option error) :=
  if decide (len command < 3)%nat then
    name <- cell command 0 ;;
    ret (Some (Errorf "Incorrect number of arguments for `%v`" [ArgString name]))
  else
    userId <- cell command 1 ;;
    let songIds := slice_from command 2 in
    r <- AddNewPlaylist userId songIds ;;
    match r with
    | (_, Some err) => ret (Some err)
    | (_, None) => ret None
    end.

Definition removePlaylist (command : slice) : M (option error) :=
  if decide (len command ≠ 2%nat) then
    name <- cell command 0 ;;
    ret (Some (Errorf "Incorrect number of arguments for `%v` command"
                 [ArgString name]))
  else
    playlistId <- cell command 1 ;;
    r <- RemovePlaylist playlistId ;;
    match r with
    | (_, Some err) => ret (Some err)
    | (_, None) => ret None
    end.

Definition addSongToPlaylist (command : slice) : M (option error) :=
  if decide (len command ≠ 3%nat) then
    name <- cell command 0 ;;
    ret (Some (Errorf "Incorrect number of arguments for `%v` command"
                 [ArgString name]))
  else
    playlistId <- cell command 1 ;;
    songId <- cell command 2 ;;
    AddSongToPlaylist slack playlistId songId.

Definition commandHandlers : gmap string (slice -> M (option error)) :=
  <[ADD_PLAYLIST := addNewPlaylist]>
    (<[ADD_SONG_TO_PLAYLIST := addSongToPlaylist]>
       (<[REMOVE_PLAYLIST := removePlaylist]> ∅)).

Definition ProcessCommand (command : slice) : M (option error) :=
  if decide (len command = 0%nat) then
    ret (Some (Errorf "Can't process empty command" []))
  else
    baseCommand <- cell command 0 ;;
    match commandHandlers !! baseCommand with
    | None =>
        ret (Some (Errorf ("Unrecognized command: `%v`" +:+ LF)
                     [ArgString baseCommand]))
    | Some commandHandler =>
        r <- commandHandler command ;;
        match r with
        | Some err =>
            h <- getHeap ;;
            ret (Some (Errorf ("Problem with `%v`: %v" +:+ LF)
                         [ArgStrings (cells h command); ArgError err]))
        | None => ret None
        end
    end.

(** The loop of [ProcessAll], with [cp.errors] as accumulator. *)
Fixpoint processLoop (commands : list slice) (errs : list error)
    : M (list error) :=
  match commands with
  | [] => ret errs
  | command :: rest =>
      r <- ProcessCommand command ;;
      processLoop rest
        (match r with Some err => errs ++ [err] | None => errs end)
  end.

Definition ProcessAll (cp : CommandProcessor)
    : M (CommandProcessor * option error) :=
  errs <- processLoop (Commands cp) [] ;;
  let cp := {| Commands := Commands cp; errors := errs |} in
  if decide (length errs ≠ 0%nat) then
    ret (cp, Some (Errorf "At least one error was encountered. See CommandProcessor.Errors()" []))
  else ret (cp, None).

Definition Errors (cp : CommandProcessor) : list error := errors cp.
End Processor.

(** * The vocabulary of the specification *)

(** ** Integer literals *)

(** The value of a digit string read most significant digit first, started
    from [n]; [None] when some byte is not a digit. *)
Fixpoint horner (n : Z) (s : string) : option Z :=
  match s with
  | EmptyString => Some n
  | String c s' =>
      match strconv.digit c with
      | Some d => horner (n * 10 + d) s'
      | None => None
      end
  end.

(** A valid non-negative base-10 integer: a non-empty string of decimal
    digits, which denotes its value. *)
Definition decimal (s : string) : option Z :=
  match s with
  | EmptyString => None
  | _ => horner 0 s
  end.

(** An integer literal: an optional sign, then a non-empty string of decimal
    digits, denoting a value that fits [int]. *)
Definition intLiteral (s : string) : option Z :=
  match s with
  | EmptyString => None
  | String c rest =>
      let v :=
        if Ascii.eqb c "+" then decimal rest
        else if Ascii.eqb c "-" then Z.opp <$> decimal rest
        else decimal s in
      match v with
      | Some z => if decide (GoInt.inRange z) then Some z else None
      | None => None
      end
  end.

(** The playlists' ids as numbers. *)
Definition numericIds (l : list Playlist) (ids : list Z) : Prop :=
  Forall2 (fun p z => intLiteral (Playlist_Id p) = Some z) l ids.

(** One more than the largest of the ids, 1 when there is none. *)
Definition onePlusMaximum (ids : list Z) : Z :=
  match ids with
  | [] => 1
  | z :: zs => 1 + foldr Z.max z zs
  end.

(** ** Indexes *)

(** [j] is the position of the last element of [l] carrying key [k]. *)
Definition lastAt {A} (key : A -> string) (l : list A) (k : string) (j : nat) : Prop :=
  (exists x, l !! j = Some x /\ key x = k) /\
  forall j' x', (j < j')%nat -> l !! j' = Some x' -> key x' <> k.

(** Looking up the key of any element gives that element's own position. *)
Definition resolvesExactly {A} (key : A -> string) (l : list A)
    (m : gmap string Z) : Prop :=
  forall (i : nat) x, l !! i = Some x -> m !! key x = Some (Z.of_nat i).

(** Looking up the key of any element gives the position of the last
    element with that key. *)
Definition resolvesToLast {A} (key : A -> string) (l : list A)
    (m : gmap string Z) : Prop :=
  forall (i : nat) x, l !! i = Some x ->
    exists j : nat, m !! key x = Some (Z.of_nat j) /\ (i <= j)%nat /\
                    lastAt key l (key x) j.

(** Store invariant 1: an index holds exactly the positions of the
    collection's elements under their ids: no stale entry, none missing. *)
Definition indexConsistent {A} (key : A -> string) (l : list A)
    (m : gmap string Z) : Prop :=
  forall k z,
    m !! k = Some z <-> exists (j : nat) x, z = Z.of_nat j /\ l !! j = Some x /\ key x = k.

(** The invariants of the data model: exact indexes, playlists that refer to
    existing users and songs and hold at least one song, and a counter above
    every numeric playlist id. *)
Record storeInvariant (w : World) : Prop := {
  inv_users : indexConsistent User_Id (Users (store w)) (userMap (store w));
  inv_songs : indexConsistent Song_Id (Songs (store w)) (songMap (store w));
  inv_playlists :
    indexConsistent Playlist_Id (Playlists (store w)) (playlistMap (store w));
  inv_references :
    forall p, p ∈ Playlists (store w) ->
      is_Some (userMap (store w) !! Playlist_UserId p) /\
      forall s, s ∈ cells (heap w) (Playlist_SongIds p) ->
                is_Some (songMap (store w) !! s);
  inv_nonempty :
    forall p, p ∈ Playlists (store w) -> cells (heap w) (Playlist_SongIds p) <> [];
  inv_next :
    forall p z, p ∈ Playlists (store w) -> intLiteral (Playlist_Id p) = Some z ->
                z < nextPlaylistId (store w)
}.

(** Every id in the collection is a number below the counter, and the
    counter is an [int]. *)
Definition belowCounter (w : World) : Prop :=
  GoInt.inRange (nextPlaylistId (store w)) /\
  forall p, p ∈ Playlists (store w) ->
    exists z, intLiteral (Playlist_Id p) = Some z /\ z < nextPlaylistId (store w).

(** ** The error kinds, as the code words them *)

Definition UnknownUser : error := Errorf "The user id does not exist" [].
Definition EmptyPlaylist : error :=
  Errorf "A playlist must contain at least one song (zero sing IDs were provided)" [].
(** [UnknownSong] as [AddNewPlaylist] and as [AddSongToPlaylist] report it. *)
Definition UnknownSongs : error :=
  Errorf "One or more of the song IDs provided is invalid" [].
Definition UnknownSong : error := Errorf "Song id does not exist" [].
Definition UnknownPlaylist : error := Errorf "Playlist id does not exist" [].
Definition EmptyCommand : error := Errorf "Can't process empty command" [].
Definition UnknownCommand (name : string) : error :=
  Errorf ("Unrecognized command: `%v`" +:+ LF) [ArgString name].
(** [ArityError] as [add-playlist] and as the other two commands report it. *)
Definition ArityError (name : string) : error :=
  Errorf "Incorrect number of arguments for `%v`" [ArgString name].
Definition ArityErrorCommand (name : string) : error :=
  Errorf "Incorrect number of arguments for `%v` command" [ArgString name].
(** The error of a handler, wrapped with the command it comes from. *)
Definition Problem (command : list string) (err : error) : error :=
  Errorf ("Problem with `%v`: %v" +:+ LF) [ArgStrings command; ArgError err].
Definition AtLeastOneError : error :=
  Errorf "At least one error was encountered. See CommandProcessor.Errors()" [].

(** ** The worlds the operations leave *)

(** After [RemovePlaylist id] has found [id] at position [t], with [last]
    the last playlist of the collection. *)
Definition removed (id : string) (t : nat) (last : Playlist) (w : World) : World :=
  {| heap := heap w;
     store :=
       set_playlistMap
         (<[Playlist_Id last := Z.of_nat t]> (delete id (playlistMap (store w))))
         (set_Playlists
            (take (length (Playlists (store w)) - 1)
               (<[t := last]> (Playlists (store w))))
            (store w)) |}.

(** After a successful [AddNewPlaylist userId songIds]. *)
Definition added (userId : string) (songIds : slice) (w : World) : World :=
  let ds := store w in
  let '(songIdsCopy, h) := make (heap w) (len songIds) in
  let id := strconv.Itoa (nextPlaylistId ds) in
  {| heap := copy h songIdsCopy songIds;
     store :=
       mkDataStore (Users ds)
         (Playlists ds ++ [mkPlaylist id userId songIdsCopy])
         (Songs ds) (userMap ds)
         (<[id := Z.of_nat (length (Playlists ds))]> (playlistMap ds))
         (songMap ds)
         (GoInt.add (nextPlaylistId ds) 1) |}.

(** What [ProcessCommand] makes of a handler's outcome. *)
Definition reported (command : slice) (r : outcome (option error))
    : outcome (option error) :=
  match r with
  | Ret (Some err) w => Ret (Some (Problem (cells (heap w) command) err)) w
  | Ret None w => Ret None w
  | Panic e => Panic e
  end.

Definition dropValue {A} (r : outcome (A * option error)) : outcome (option error) :=
  match r with
  | Ret (_, err) w => Ret err w
  | Panic e => Panic e
  end.

(** The errors among the outcomes of the commands, in command order. *)
Definition failures (rs : list (option error)) : list error := omap id rs.

(** The operations a client of the store can perform. *)
Inductive operation :=
| OpAddNewPlaylist (userId : string) (songIds : slice)
| OpAddSongToPlaylist (playlistId songId : string)
| OpRemovePlaylist (id : string).

Section Vocabulary.
Variable slack : nat -> nat.

(** After a successful [AddSongToPlaylist] on the playlist [p] found at
    position [i]. *)
Definition extended (i : Z) (p : Playlist) (songId : string) (w : World) : World :=
  let r := append slack (heap w) (Playlist_SongIds p) songId in
  {| heap := r.2;
     store :=
       set_Playlists
         (<[Z.to_nat i := mkPlaylist (Playlist_Id p) (Playlist_UserId p) r.1]>
            (Playlists (store w)))
         (store w) |}.

(** [runs cs w rs w']: dispatching the commands [cs] one after the other
    from [w] returns the outcomes [rs] and ends in [w']. *)
Inductive runs : list slice -> World -> list (option error) -> World -> Prop :=
| runs_nil w : runs [] w [] w
| runs_cons c cs w r w1 rs w2 :
    ProcessCommand slack c w = Ret r w1 ->
    runs cs w1 rs w2 ->
    runs (c :: cs) w (r :: rs) w2.

(** [aborts cs w]: some command panics, those before it having returned. *)
Inductive aborts : list slice -> World -> Prop :=
| aborts_here c cs w e : ProcessCommand slack c w = Panic e -> aborts (c :: cs) w
| aborts_later c cs w r w1 :
    ProcessCommand slack c w = Ret r w1 -> aborts cs w1 -> aborts (c :: cs) w.

Definition perform (o : operation) : M unit :=
  match o with
  | OpAddNewPlaylist userId songIds => AddNewPlaylist userId songIds ;;; ret tt
  | OpAddSongToPlaylist playlistId songId =>
      AddSongToPlaylist slack playlistId songId ;;; ret tt
  | OpRemovePlaylist id => RemovePlaylist id ;;; ret tt
  end.

Fixpoint performAll (ops : list operation) : M unit :=
  match ops with
  | [] => ret tt
  | o :: rest => perform o ;;; performAll rest
  end.
End Vocabulary.

(** ** Concrete stores *)

(** A snapshot of the shape the repository's tests load: two users, three
    songs and the playlists "1", "2", "3", the first with two songs; and, in
    the same memory, the records of a few commands. *)
Module Fixture.
Definition users : list User :=
  [mkUser "1" "Albin Jaye"; mkUser "2" "Dipika Crescentia"].
Definition songs : list Song :=
  [mkSong "1" "Camila Cabello" "Never Be the Same";
   mkSong "2" "Zedd" "The Middle";
   mkSong "3" "The Weeknd" "Pray For Me"].
Definition memory : Heap :=
  list_to_map
    [(1%positive, ["1"; "2"]%string);
     (2%positive, ["3"]%string);
     (3%positive, ["2"; "3"]%string);
     (4%positive, ["add-playlist"; "1"; "1"; "2"]%string);
     (5%positive, ["add-song-to-playlist"; "1"; "1"]%string);
     (6%positive, ["rm-playlist"; "3"]%string);
     (7%positive, ["rm-playlist"]%string);
     (8%positive, ["add-playlist"; "bad-id"; "1"; "2"]%string);
     (9%positive, ["add-playlist"; "1"; "bad-id"; "2"]%string);
     (10%positive, ["shuffle"; "1"]%string)].
(** The slice that spans the whole of an array of [n] cells. *)
Definition whole (a : positive) (n : nat) : slice := mkSlice a 0 n n.
Definition playlists : list Playlist :=
  [mkPlaylist "1" "1" (whole 1 2);
   mkPlaylist "2" "2" (whole 2 1);
   mkPlaylist "3" "1" (whole 3 2)].

(** The store [NewDataStoreFromFile] builds from it. *)
Definition loaded : World :=
  {| heap := memory;
     store :=
       mkDataStore users playlists songs
         (indexLoop User_Id 0 users ∅)
         (indexLoop Playlist_Id 0 playlists ∅)
         (indexLoop Song_Id 0 songs ∅)
         4 |}.

(** A runtime that reserves, when it moves a slice, as many spare cells as
    the slice had cells before. *)
Definition slack (capacity : nat) : nat := capacity.

(** A snapshot whose playlist ids sit at both ends of the [int] range. *)
Definition extremePlaylists : list Playlist :=
  [mkPlaylist "-9223372036854775808" "1" (whole 1 2);
   mkPlaylist "9223372036854775807" "1" (whole 2 1)].
End Fixture.

(** ** Health of a store *)

(** The playlists of the collection keep their song ids in backing arrays of
    their own, one per playlist, and each is a slice the runtime could have
    made. *)
Definition separated (w : World) : Prop :=
  NoDup ((fun p => arr (Playlist_SongIds p)) <$> Playlists (store w)) /\
  forall p, p ∈ Playlists (store w) -> slice_wf (heap w) (Playlist_SongIds p).

(** A store as the program means it to be: the invariants of the data model
    hold, playlists do not share memory, every playlist id is a number and
    the counter is a positive [int]. *)
Record healthy (w : World) : Prop := {
  healthy_invariant : storeInvariant w;
  healthy_separated : separated w;
  healthy_ids :
    forall p, p ∈ Playlists (store w) -> is_Some (intLiteral (Playlist_Id p));
  healthy_counter : 0 < nextPlaylistId (store w) <= GoInt.maxInt
}.

(** No entry of the index is stale: each points at an element of the
    collection that carries its key. *)
Definition indexSound {A} (key : A -> string) (l : list A)
    (m : gmap string Z) : Prop :=
  forall k z, m !! k = Some z ->
    exists (j : nat) x, z = Z.of_nat j /\ l !! j = Some x /\ key x = k.

(** No entry is missing: every key of the collection is in the index. *)
Definition indexComplete {A} (key : A -> string) (l : list A)
    (m : gmap string Z) : Prop :=
  forall x, x ∈ l -> is_Some (m !! key x).

(** ** The ids handed out *)

Section GeneratedDef.
Variable slack : nat -> nat.

(** The ids that the successful [AddNewPlaylist] among the operations
    return, in the order of the calls. *)
Fixpoint generatedIds (ops : list operation) : M (list string) :=
  match ops with
  | [] => ret []
  | OpAddNewPlaylist userId songIds :: rest =>
      r <- AddNewPlaylist userId songIds ;;
      ids <- generatedIds rest ;;
      ret (match r with (id, None) => id :: ids | (_, Some _) => ids end)
  | o :: rest => perform slack o ;;; generatedIds rest
  end.
End GeneratedDef.

(** * The program around the store *)

(** [main] and the functions that read and write files, with the operating
    system and the [flag], [json] and [csv] packages as parameters: what they
    answer is given, what the program does with the answers is modelled. *)
Module Executable.

Definition EXIT_SUCCESS : Z := 0.
Definition EXIT_FAILURE : Z := 1.
Definition EXIT_USAGE_FAILURE : Z := 2.

(** [0644]. *)
Definition OUT_FILE_PERMISSIONS : Z := 6 * 64 + 4 * 8 + 4.
Definition PREFIX_STRING : string := "".
Definition INDENT_STRING : string := "  ".

(** An [error] as the program meets it: one a library returned, one of the
    store or of the processor, or one of these wrapped by [fmt.Errorf]. *)
Inductive failure :=
| Foreign (message : string)
| Own (e : error)
| Wrapped (format : string) (e : failure).

(** An operand of [fmt.Printf]. *)
Inductive printed :=
| PString (s : string)
| PFailure (e : failure)
| PErrors (l : list error).

(** What the program does to the world outside, in order. *)
Inductive event :=
| ReadFile (filename : string)
| Open (filename : string)
| ReadAll (filename : string)
| WriteFile (filename : string) (data : string) (perm : Z)
| Printf (format : string) (args : list printed)
| Usage
| FlagError (message : string).

(** How the process ends: [os.Exit], the return of [main], or a panic. *)
Inductive ending :=
| Exit (code : Z)
| Return
| Crash.

(** What [json.Unmarshal] builds, the backing arrays of the song ids
    included. *)
Record decoded := mkDecoded {
  d_heap : Heap;
  d_users : list User;
  d_playlists : list Playlist;
  d_songs : list Song
}.

(** What [json.MarshalIndent] sees of a store: the exported fields. *)
Definition exported (w : World)
    : list User * list (string * string * list string) * list Song :=
  (Users (store w),
   (fun p => (Playlist_Id p, Playlist_UserId p, cells (heap w) (Playlist_SongIds p)))
     <$> Playlists (store w),
   Songs (store w)).

(** How [flag.Parse] ends on the command line: it returns, with the values
    of -in, -out and -changes (the default, empty, for a flag not given); or
    it refuses the command line (a flag that is not defined, a value that is
    missing), prints why and the usage and calls [os.Exit(2)]; or it meets
    -h or -help, prints the usage and calls [os.Exit(0)]. *)
Inductive parsing :=
| Parsed (dataStoreInputFilename dataStoreOutputFilename changesFilename : string)
| Refused (message : string)
| Help.

Record Outside := mkOutside {
  (* flag.Parse on os.Args *)
  parse : parsing;
  (* ioutil.ReadFile *)
  readFile : string -> string + failure;
  (* json.Unmarshal(data, &dataStore): the pointer it leaves, and its error *)
  unmarshal : string -> option decoded * option failure;
  (* os.Open *)
  open : string -> option failure;
  (* csv.Reader.ReadAll with Comment '#' and FieldsPerRecord -1: the records,
     allocated in the memory given *)
  readAll : string -> Heap -> Heap * list slice + failure;
  (* json.MarshalIndent *)
  marshalIndent :
    list User * list (string * string * list string) * list Song ->
    string -> string -> string + failure;
  (* ioutil.WriteFile *)
  writeFile : string -> string -> Z -> option failure
}.

Inductive loading :=
| Loaded (w : World)
| LoadFailed (err : failure)
| LoadCrashed.

(** The values of the three flags [flag.Parse] returned with; the defaults
    stand in where it did not return. *)
Definition flags (outside : Outside) : string * string * string :=
  match parse outside with
  | Parsed dataStoreInputFilename dataStoreOutputFilename changesFilename =>
      (dataStoreInputFilename, dataStoreOutputFilename, changesFilename)
  | Refused _ | Help => (EmptyString, EmptyString, EmptyString)
  end.

Section Run.
Variable slack : nat -> nat.
Variable outside : Outside.

(** [flag.Parse] at l.51 may end the process itself; only when it returns
    are the three values tested. *)
Definition GetCommandLineArgsOrExit
    : list event * (string * string * string + ending) :=
  match parse outside with
  | Refused message => ([FlagError message; Usage], inr (Exit 2))
  | Help => ([Usage], inr (Exit 0))
  | Parsed dataStoreInputFilename dataStoreOutputFilename changesFilename =>
      if String.eqb dataStoreInputFilename ""
         || String.eqb dataStoreOutputFilename ""
         || String.eqb changesFilename ""
      then ([Usage], inr (Exit EXIT_USAGE_FAILURE))
      else ([], inl (dataStoreInputFilename, dataStoreOutputFilename,
                     changesFilename))
  end.

Definition NewDataStoreFromFile (inputFilename : string) : list event * loading :=
  ([ReadFile inputFilename],
   match readFile outside inputFilename with
   | inr err => LoadFailed err
   | inl data =>
       match unmarshal outside data with
       | (_, Some err) => LoadFailed err
       | (None, None) => LoadCrashed
       | (Some d, None) =>
           match NewDataStoreFromFile (d_heap d) (d_users d) (d_playlists d)
                   (d_songs d) with
           | Ret None w => Loaded w
           | Ret (Some err) _ => LoadFailed (Own err)
           | Panic _ => LoadCrashed
           end
       end
   end).

Definition WriteToFile (outputFilename : string) (w : World)
    : list event * option failure :=
  match marshalIndent outside (exported w) PREFIX_STRING INDENT_STRING with
  | inr err => ([], Some err)
  | inl dataStoreAsJSON =>
      ([WriteFile outputFilename dataStoreAsJSON OUT_FILE_PERMISSIONS],
       writeFile outside outputFilename dataStoreAsJSON OUT_FILE_PERMISSIONS)
  end.

Definition LoadChangesFile (filename : string) (h : Heap)
    : list event * (Heap * list slice + failure) :=
  match open outside filename with
  | Some err =>
      ([Open filename],
       inr (Wrapped ("Couldn't open changes file: %v" +:+ LF) err))
  | None =>
      ([Open filename; ReadAll filename],
       match readAll outside filename h with
       | inr err => inr (Wrapped "Problem reading CSV file: %v" err)
       | inl commands => inl commands
       end)
  end.

Definition main : list event * ending :=
  match GetCommandLineArgsOrExit with
  | (ev0, inr e) => (ev0, e)
  | (ev0, inl (dataStoreInputFilename, dataStoreOutputFilename, changesFilename)) =>
      match NewDataStoreFromFile dataStoreInputFilename with
      | (ev1, LoadCrashed) => (ev0 ++ ev1, Crash)
      | (ev1, LoadFailed err) =>
          (ev0 ++ ev1 ++
           [Printf ("Problem reading the data store file ('%v'): %v" +:+ LF)
              [PString dataStoreInputFilename; PFailure err]],
           Exit EXIT_FAILURE)
      | (ev1, Loaded dataStore) =>
          match LoadChangesFile changesFilename (heap dataStore) with
          | (ev2, inr err) =>
              (ev0 ++ ev1 ++ ev2 ++
               [Printf ("Problem reading the changes file ('%v'): %v" +:+ LF)
                  [PString changesFilename; PFailure err]],
               Exit EXIT_FAILURE)
          | (ev2, inl (h, commands)) =>
              match ProcessAll slack (NewCommandProcessor commands)
                      {| heap := h; store := store dataStore |} with
              | Panic _ => (ev0 ++ ev1 ++ ev2, Crash)
              | Ret (processor, Some err) _ =>
                  (ev0 ++ ev1 ++ ev2 ++
                   [Printf ("Problem with executing changes: %v" +:+ LF
                            +:+ "List of problems:" +:+ LF +:+ "%v" +:+ LF)
                      [PFailure (Own err); PErrors (Errors processor)]],
                   Exit EXIT_FAILURE)
              | Ret (_, None) w =>
                  match WriteToFile dataStoreOutputFilename w with
                  | (ev3, Some err) =>
                      (ev0 ++ ev1 ++ ev2 ++ ev3 ++
                       [Printf ("Problem writing data store to file ('%v'): %v" +:+ LF)
                          [PString dataStoreOutputFilename; PFailure err]],
                       Exit EXIT_FAILURE)
                  | (ev3, None) => (ev0 ++ ev1 ++ ev2 ++ ev3, Return)
                  end
              end
          end
      end
  end.
End Run.
End Executable.

(** What a trace writes to files. *)
Definition written (trace : list Executable.event) : list (string * string * Z) :=
  omap (fun ev => match ev with
                  | Executable.WriteFile filename data perm => Some (filename, data, perm)
                  | _ => None
                  end) trace.

(** [flag.Parse] returned and the three flags were given. *)
Definition noFlagMissing (o : Executable.Outside) : Prop :=
  match Executable.parse o with
  | Executable.Parsed i out c =>
      i <> EmptyString /\ out <> EmptyString /\ c <> EmptyString
  | Executable.Refused _ | Executable.Help => False
  end.

(** A run of the program where every file can be read and written: the data
    store file decodes to the users and songs of [Fixture] and to the
    playlists given, and the changes file holds the records given, which
    sit in the memory of [Fixture]. *)
Module Invocation.
Definition outside (playlists : list Playlist) (commands : list slice)
    : Executable.Outside :=
  {| Executable.parse :=
       Executable.Parsed "mixtape.json" "output.json" "changes.csv";
     Executable.readFile := fun _ => inl "{}"%string;
     Executable.unmarshal := fun _ =>
       (Some (Executable.mkDecoded Fixture.memory Fixture.users playlists
                Fixture.songs), None);
     Executable.open := fun _ => None;
     Executable.readAll := fun _ h => inl (h, commands);
     Executable.marshalIndent := fun _ _ _ => inl "{}"%string;
     Executable.writeFile := fun _ _ _ => None |}.

(** A run on a command line with a flag the program does not define. *)
Definition refused : Executable.Outside :=
  {| Executable.parse := Executable.Refused "flag provided but not defined: -x";
     Executable.readFile := fun _ => inl "{}"%string;
     Executable.unmarshal := fun _ => (None, None);
     Executable.open := fun _ => None;
     Executable.readAll := fun _ h => inl (h, []);
     Executable.marshalIndent := fun _ _ _ => inl "{}"%string;
     Executable.writeFile := fun _ _ _ => None |}.
End Invocation.

(** * Properties *)

Import strconv.

(** ** Integer literals *)

Lemma digit_range c d : digit c = Some d -> 0 <= d <= 9.
Proof.
  unfold digit. intros H.
  destruct (48 <=? _) eqn:E1; destruct (_ <=? 57) eqn:E2; simpl in H;
    try discriminate.
  injection H as <-. lia.
Qed.

Lemma digit_not_sign c d :
  digit c = Some d -> Ascii.eqb c "+" = false /\ Ascii.eqb c "-" = false.
Proof.
  intros H. split.
  - destruct (Ascii.eqb_spec c "+"); [subst; discriminate | done].
  - destruct (Ascii.eqb_spec c "-"); [subst; discriminate | done].
Qed.

Lemma horner_ge s : forall n v, 0 <= n -> horner n s = Some v -> n <= v.
Proof.
  induction s as [|c s IH]; simpl; intros n v Hn H.
  - injection H as <-. lia.
  - destruct (digit c) as [d|] eqn:Hd; [|discriminate].
    apply digit_range in Hd. apply IH in H; lia.
Qed.

Lemma maxUint64_eq : maxUint64 = 18446744073709551615.
Proof. reflexivity. Qed.

Lemma parseUintLoop_inl s : forall n v,
  0 <= n <= maxUint64 ->
  parseUintLoop n s = inl v <-> horner n s = Some v /\ v <= maxUint64.
Proof.
  rewrite maxUint64_eq.
  induction s as [|c s IH]; simpl; intros n v Hn.
  - split.
    + intros [= <-]. split; [done|lia].
    + intros [[= <-] _]. done.
  - destruct (digit c) as [d|] eqn:Hd; [|split; [discriminate|intros [? _]; discriminate]].
    pose proof (digit_range _ _ Hd) as Hr.
    change (maxUint64 / 10 + 1) with 1844674407370955162.
    rewrite maxUint64_eq.
    change (2 ^ 64) with 18446744073709551616.
    destruct (Z.leb_spec 1844674407370955162 n) as [Hc|Hc].
    { split; [discriminate|]. intros [H Hv].
      apply horner_ge in H; lia. }
    destruct (Z.ltb_spec ((n * 10 + d) mod 18446744073709551616) (n * 10)) as [Ho|Ho];
      simpl.
    { split; [discriminate|]. intros [H Hv].
      apply horner_ge in H; [|lia].
      rewrite Z.mod_small in Ho by lia. lia. }
    destruct (Z.ltb_spec 18446744073709551615 ((n * 10 + d) mod 18446744073709551616)) as [Ho'|Ho'].
    { pose proof (Z.mod_pos_bound (n * 10 + d) 18446744073709551616). lia. }
    assert (n * 10 + d <= 18446744073709551615) as Hs.
    { destruct (Z_lt_le_dec 18446744073709551615 (n * 10 + d)) as [Hbig|]; [|done].
      assert ((n * 10 + d) mod 18446744073709551616 = n * 10 + d - 18446744073709551616) as E.
      { symmetry. apply (Z.mod_unique _ _ 1); lia. }
      lia. }
    rewrite Z.mod_small by lia.
    apply IH. lia.
Qed.

Lemma horner_nonneg s : forall n v, 0 <= n -> horner n s = Some v -> 0 <= v.
Proof. intros n v Hn H. apply horner_ge in H; lia. Qed.

Lemma ParseUint_ok s v :
  ParseUint s = (v, None) <-> decimal s = Some v /\ v <= maxUint64.
Proof.
  unfold ParseUint, decimal. destruct s as [|c s]; [split; [discriminate|intros [? _]; discriminate]|].
  rewrite <- (parseUintLoop_inl (String c s) 0 v) by (rewrite maxUint64_eq; lia).
  destruct (parseUintLoop 0 (String c s)) as [n|[]].
  - split; [intros [= ->]|intros [= ->]]; reflexivity.
  - split; discriminate.
  - split; discriminate.
Qed.

Lemma ParseUint_err s :
  (forall v, ParseUint s <> (v, None)) ->
  ParseUint s = (0, Some ErrSyntax) \/ ParseUint s = (maxUint64, Some ErrRange).
Proof.
  unfold ParseUint. destruct s as [|c s]; [by left|].
  destruct (parseUintLoop 0 (String c s)) as [n|[]]; [|by left|by right].
  intros H. by destruct (H n).
Qed.

Lemma wrap_small z : GoInt.inRange z -> GoInt.wrap z = z.
Proof.
  unfold GoInt.inRange, GoInt.minInt, GoInt.maxInt, GoInt.wrap.
  change (2 ^ 63) with 9223372036854775808.
  change (2 ^ 64) with 18446744073709551616.
  intros H. rewrite Z.mod_small; lia.
Qed.

Lemma ParseInt_intLiteral s :
  match intLiteral s with
  | Some z => ParseInt s = (z, None)
  | None => exists i k, ParseInt s = (i, Some k)
  end.
Proof.
  unfold intLiteral, ParseInt. destruct s as [|c rest]; [by exists 0, ErrSyntax|].
  set (neg := Ascii.eqb c "-").
  set (s1 := if Ascii.eqb c "+" || neg then rest else String c rest).
  assert ((if Ascii.eqb c "+" then decimal rest
           else if neg then Z.opp <$> decimal rest else decimal (String c rest))
          = (if neg then Z.opp <$> decimal s1 else decimal s1)) as ->.
  { subst s1 neg. destruct (Ascii.eqb_spec c "+") as [->|]; [done|].
    simpl. by destruct (Ascii.eqb c "-"). }
  clearbody s1 neg. clear c rest.
  destruct (decimal s1) as [u|] eqn:Hdec.
  - assert (0 <= u) as Hu.
    { unfold decimal in Hdec. destruct s1; [discriminate|].
      by apply horner_nonneg in Hdec. }
    destruct (Z_le_gt_dec u maxUint64) as [Hle|Hgt].
    + assert (ParseUint s1 = (u, None)) as -> by by apply ParseUint_ok.
      unfold GoInt.inRange, GoInt.minInt, GoInt.maxInt, GoInt.neg.
      change (2 ^ 63) with 9223372036854775808 in *.
      destruct neg; simpl.
      * destruct (Z.ltb_spec 9223372036854775808 u).
        { rewrite decide_False by lia. by eexists _, _. }
        rewrite decide_True by lia.
        f_equal. destruct (decide (u = 9223372036854775808)) as [->|]; [done|].
        rewrite (wrap_small u), wrap_small; [done|..];
          unfold GoInt.inRange, GoInt.minInt, GoInt.maxInt; lia.
      * destruct (Z.leb_spec 9223372036854775808 u).
        { rewrite decide_False by lia. by eexists _, _. }
        rewrite decide_True by lia.
        f_equal. apply wrap_small.
        unfold GoInt.inRange, GoInt.minInt, GoInt.maxInt; lia.
    + assert (match (if neg then Z.opp <$> Some u else Some u) with
              | Some z => if decide (GoInt.inRange z) then Some z else None
              | None => None
              end = None) as ->.
      { rewrite maxUint64_eq in Hgt.
        unfold GoInt.inRange, GoInt.minInt, GoInt.maxInt.
        change (2 ^ 63) with 9223372036854775808.
        destruct neg; simpl; rewrite decide_False; (done || lia). }
      destruct (ParseUint_err s1) as [->| ->].
      { intros v Hv. apply ParseUint_ok in Hv as [Hv ?].
        rewrite Hdec in Hv. injection Hv as <-. lia. }
      * by eexists _, _.
      * destruct neg; simpl; by eexists _, _.
  - assert ((if neg then Z.opp <$> None else None) = (None : option Z)) as ->
      by by destruct neg.
    destruct (ParseUint_err s1) as [->| ->].
    { intros v Hv. apply ParseUint_ok in Hv as [Hv ?]. congruence. }
    * by eexists _, _.
    * destruct neg; simpl; by eexists _, _.
Qed.

(** [Atoi] accepts exactly the integer literals and returns their value. *)
Lemma Atoi_ok s z : Atoi s = (z, None) <-> intLiteral s = Some z.
Proof.
  unfold Atoi. pose proof (ParseInt_intLiteral s) as H.
  destruct (intLiteral s) as [z'|].
  - rewrite H. split; intros [= ->]; done.
  - destruct H as (i & k & ->). split; discriminate.
Qed.

Lemma Atoi_err s :
  intLiteral s = None -> exists i k, Atoi s = (i, Some (NumError "Atoi" s k)).
Proof.
  unfold Atoi. pose proof (ParseInt_intLiteral s) as H. intros E.
  rewrite E in H. destruct H as (i & k & ->). by exists i, k.
Qed.

Lemma Atoi_cases s :
  (exists z, Atoi s = (z, None) /\ intLiteral s = Some z) \/
  (exists i k, Atoi s = (i, Some (NumError "Atoi" s k)) /\ intLiteral s = None).
Proof.
  destruct (intLiteral s) as [z|] eqn:E.
  - left. exists z. split; [by apply Atoi_ok|done].
  - right. destruct (Atoi_err s E) as (i & k & H). by exists i, k.
Qed.

(** The digits [pretty_N_go] writes in front of [s] read back as [x]. *)
Lemma pretty_N_char_digit x : (x < 10)%N -> digit (pretty_N_char x) = Some (Z.of_N x).
Proof.
  intros H.
  assert (x = 0 \/ x = 1 \/ x = 2 \/ x = 3 \/ x = 4 \/ x = 5 \/ x = 6 \/ x = 7
          \/ x = 8 \/ x = 9)%N as Hx by lia.
  repeat (destruct Hx as [->|Hx]; [reflexivity|]). by subst.
Qed.

Lemma horner_pretty_N_go x :
  exists k : nat, forall n s,
    horner n (pretty_N_go x s) = horner (n * 10 ^ Z.of_nat k + Z.of_N x) s /\
    String.length (pretty_N_go x s) = (k + String.length s)%nat /\
    ((0 < x)%N -> (0 < k)%nat).
Proof.
  induction (N.lt_wf_0 x) as [x _ IH].
  destruct (decide (x = 0%N)) as [->|Hx].
  - exists 0%nat. intros n s. rewrite pretty_N_go_0. simpl.
    split; [f_equal; lia|]. split; [done|lia].
  - destruct (IH (x `div` 10)%N) as [k Hk].
    { apply N.div_lt; lia. }
    exists (S k). intros n s. rewrite pretty_N_go_step by lia.
    destruct (Hk n (String (pretty_N_char (x `mod` 10)) s)) as (H1 & H2 & _).
    rewrite H1, H2. simpl.
    rewrite pretty_N_char_digit by (apply N.mod_lt; lia).
    split; [|split; [lia|lia]].
    f_equal. rewrite Nat2Z.inj_succ, Z.pow_succ_r by lia.
    rewrite (N.div_mod x 10) at 3 by lia. lia.
Qed.

Lemma decimal_pretty_N x :
  (0 < x)%N ->
  decimal (pretty_N_go x "") = Some (Z.of_N x) /\
  exists c rest d, pretty_N_go x "" = String c rest /\ digit c = Some d.
Proof.
  intros Hx. destruct (horner_pretty_N_go x) as [k Hk].
  destruct (Hk 0 EmptyString) as (H1 & H2 & H3).
  simpl in H1. unfold decimal.
  destruct (pretty_N_go x "") as [|c rest] eqn:E.
  { simpl in H2. specialize (H3 Hx). lia. }
  split; [by rewrite H1|].
  simpl in H1. destruct (digit c) as [d|] eqn:Hc; [|discriminate].
  by exists c, rest, d.
Qed.

(** Reading back what [Itoa] wrote gives the number, for every [int]. *)
Lemma intLiteral_Itoa z : GoInt.inRange z -> intLiteral (Itoa z) = Some z.
Proof.
  intros Hz. unfold Itoa, pretty, pretty_Z.
  destruct z as [|p|p].
  - reflexivity.
  - unfold pretty, pretty_positive, pretty, pretty_N.
    rewrite decide_False by done.
    destruct (decimal_pretty_N (N.pos p)) as (Hd & c & rest & d & E & Hc); [lia|].
    rewrite E in Hd |- *. unfold intLiteral.
    destruct (digit_not_sign _ _ Hc) as [-> ->].
    rewrite Hd. simpl. by rewrite decide_True.
  - unfold pretty, pretty_positive, pretty, pretty_N.
    rewrite decide_False by done.
    destruct (decimal_pretty_N (N.pos p)) as (Hd & _); [lia|].
    simpl. change ("" +:+ pretty_N_go (N.pos p) "")%string with (pretty_N_go (N.pos p) "").
    rewrite Hd. simpl. by rewrite decide_True.
Qed.

Lemma Atoi_Itoa z : GoInt.inRange z -> Atoi (Itoa z) = (z, None).
Proof. intros Hz. by apply Atoi_ok, intLiteral_Itoa. Qed.

(** ** Construction *)

Ltac run :=
  unfold bind, ret, panic, getStore, putStore, getHeap, putHeap; simpl.

Lemma NewDataStoreFromFile_eq h users playlists songs :
  NewDataStoreFromFile h users playlists songs =
  let ds := set_songMap (indexLoop Song_Id 0 songs ∅)
              (set_userMap (indexLoop User_Id 0 users ∅)
                 (decoded users playlists songs)) in
  match playlistLoop 0 playlists ∅ 0 with
  | (m, inr err) => Ret (Some err) {| heap := h; store := set_playlistMap m ds |}
  | (m, inl maxPlaylistId) =>
      Ret None {| heap := h;
                  store := set_nextPlaylistId (GoInt.add maxPlaylistId 1)
                             (set_playlistMap m ds) |}
  end.
Proof.
  unfold NewDataStoreFromFile, buildLookupTables. run.
  destruct (playlistLoop 0 playlists ∅ 0) as [m [mx|err]]; reflexivity.
Qed.

Lemma indexLoop_lookup {A} (key : A -> string) (l : list A) :
  forall i m k z,
    indexLoop key i l m !! k = Some z <->
    (exists j, z = i + Z.of_nat j /\ lastAt key l k j) \/
    (m !! k = Some z /\ forall x, x ∈ l -> key x <> k).
Proof.
  induction l as [|a l IH]; simpl; intros i m k z.
  - split.
    + intros H. right. split; [done|]. intros x Hx. by apply elem_of_nil in Hx.
    + intros [(j & _ & (x & Hx & _) & _)|[H _]]; [done|done].
  - rewrite IH. split.
    + intros [(j & -> & (x & Hx & Hk) & Hlast)|[Hm Hno]].
      * left. exists (S j). split; [lia|]. split; [by exists x|].
        intros [|j'] x' Hlt Hx'; [lia|]. simpl in Hx'. apply (Hlast j'); [lia|done].
      * destruct (decide (key a = k)) as [Ha|Ha].
        -- rewrite <- Ha, lookup_insert_eq in Hm. injection Hm as <-.
           left. exists 0%nat. split; [lia|]. split; [by exists a|].
           intros [|j'] x' Hlt Hx'; [lia|]. simpl in Hx'.
           apply Hno. by eapply list_elem_of_lookup_2.
        -- rewrite lookup_insert_ne in Hm by done. right. split; [done|].
           intros x [->|Hx]%elem_of_cons; [done|by apply Hno].
    + intros [(j & -> & (x & Hx & Hk) & Hlast)|[Hm Hno]].
      * destruct j as [|j].
        -- right. simpl in Hx. injection Hx as ->.
           split; [rewrite <- Hk, lookup_insert_eq; f_equal; lia|].
           intros y Hy. apply list_elem_of_lookup_1 in Hy as [n Hn].
           apply (Hlast (S n)); [lia|done].
        -- left. exists j. split; [lia|]. split; [by exists x|].
           intros j' x' Hlt Hx'. apply (Hlast (S j')); [lia|done].
      * right. split.
        -- rewrite lookup_insert_ne; [done|]. apply Hno. by left.
        -- intros x Hx. apply Hno. by right.
Qed.

Lemma foldr_max_init (ids : list Z) : forall a b,
  foldr Z.max (Z.max b a) ids = Z.max a (foldr Z.max b ids).
Proof. induction ids as [|z ids IH]; simpl; intros a b; [lia|]. rewrite IH. lia. Qed.

Lemma playlistLoop_spec l : forall i m mx,
  match playlistLoop i l m mx with
  | (m', inl mx') =>
      m' = indexLoop Playlist_Id i l m /\
      exists ids, numericIds l ids /\ mx' = foldr Z.max mx ids
  | (m', inr err) =>
      exists l1 p l2 k,
        l = l1 ++ p :: l2 /\
        Forall (fun p => is_Some (intLiteral (Playlist_Id p))) l1 /\
        intLiteral (Playlist_Id p) = None /\
        err = NumError "Atoi" (Playlist_Id p) k /\
        m' = indexLoop Playlist_Id i (l1 ++ [p]) m
  end.
Proof.
  induction l as [|p l IH]; simpl; intros i m mx.
  - split; [done|]. exists []. split; [constructor|done].
  - destruct (Atoi_cases (Playlist_Id p)) as [(z & -> & Hz)|(j & k & -> & Hz)].
    + specialize (IH (i + 1) (<[Playlist_Id p:=i]> m) (if mx <? z then z else mx)).
      destruct (playlistLoop _ l _ _) as [m' [mx'|err]].
      * destruct IH as (-> & ids & Hids & ->). split; [done|].
        exists (z :: ids). split; [by constructor|]. simpl.
        rewrite <- foldr_max_init. f_equal. destruct (Z.ltb_spec mx z); lia.
      * destruct IH as (l1 & q & l2 & k & -> & Hl1 & Hq & -> & ->).
        exists (p :: l1), q, l2, k. repeat split; try done.
        constructor; [by rewrite Hz|done].
    + exists [], p, l, k. by repeat split.
Qed.

Lemma NewDataStoreFromFile_cases h users playlists songs :
  (exists w ids,
     NewDataStoreFromFile h users playlists songs = Ret None w /\
     numericIds playlists ids /\
     heap w = h /\
     Users (store w) = users /\ Playlists (store w) = playlists /\
     Songs (store w) = songs /\
     userMap (store w) = indexLoop User_Id 0 users ∅ /\
     songMap (store w) = indexLoop Song_Id 0 songs ∅ /\
     playlistMap (store w) = indexLoop Playlist_Id 0 playlists ∅ /\
     nextPlaylistId (store w) = GoInt.add (foldr Z.max 0 ids) 1) \/
  (exists w l1 p l2 k,
     NewDataStoreFromFile h users playlists songs
       = Ret (Some (NumError "Atoi" (Playlist_Id p) k)) w /\
     playlists = l1 ++ p :: l2 /\
     Forall (fun p => is_Some (intLiteral (Playlist_Id p))) l1 /\
     intLiteral (Playlist_Id p) = None).
Proof.
  rewrite NewDataStoreFromFile_eq. simpl.
  pose proof (playlistLoop_spec playlists 0 ∅ 0) as H.
  destruct (playlistLoop 0 playlists ∅ 0) as [m [mx|err]].
  - destruct H as (-> & ids & Hids & ->). left. eexists _, ids. by repeat split.
  - destruct H as (l1 & p & l2 & k & -> & Hl1 & Hp & -> & ->). right.
    eexists _, l1, p, l2, k. by repeat split.
Qed.

(** C2, as stated, fails: a playlist whose id is a negative integer string
    is not a valid non-negative integer, yet construction succeeds. *)
Lemma construction_accepts_negative_id :
  let playlists := [mkPlaylist "-1" "1" (mkSlice 1 0 0 0)] in
  ~ ((exists err w, NewDataStoreFromFile ∅ [] playlists [] = Ret (Some err) w) <->
     (exists p, p ∈ playlists /\ decimal (Playlist_Id p) = None)).
Proof.
  intros playlists [_ H].
  destruct H as (err & w & Hw).
  - exists (mkPlaylist "-1" "1" (mkSlice 1 0 0 0)). split; [by left|reflexivity].
  - vm_compute in Hw. discriminate.
Qed.

(** What [main] makes of the command line and of a load that failed. *)

Lemma GetCommandLineArgsOrExit_cases o :
  (noFlagMissing o /\
   Executable.GetCommandLineArgsOrExit o = ([], inl (Executable.flags o))) \/
  (~ noFlagMissing o /\
   ((exists message,
       Executable.parse o = Executable.Refused message /\
       Executable.GetCommandLineArgsOrExit o
       = ([Executable.FlagError message; Executable.Usage],
          inr (Executable.Exit 2))) \/
    (Executable.parse o = Executable.Help /\
     Executable.GetCommandLineArgsOrExit o
     = ([Executable.Usage], inr (Executable.Exit 0))) \/
    ((exists i out c,
        Executable.parse o = Executable.Parsed i out c /\
        (i = EmptyString \/ out = EmptyString \/ c = EmptyString)) /\
     Executable.GetCommandLineArgsOrExit o
     = ([Executable.Usage],
        inr (Executable.Exit Executable.EXIT_USAGE_FAILURE))))).
Proof.
  unfold noFlagMissing, Executable.GetCommandLineArgsOrExit, Executable.flags.
  destruct (Executable.parse o) as [i out c|message|].
  - destruct (String.eqb_spec i ""), (String.eqb_spec out ""),
      (String.eqb_spec c ""); simpl;
      (by left) ||
      (right; split; [by intros (? & ? & ?)|]; right; right;
       split; [|done]; exists i, out, c; split; [done|]; tauto).
  - right. split; [tauto|]. left. by exists message.
  - right. split; [tauto|]. right. by left.
Qed.

Lemma playlistLoop_first_error l : forall i m mx m' err,
  playlistLoop i l m mx = (m', inr err) ->
  exists l1 p l2,
    l = l1 ++ p :: l2 /\
    Forall (fun q => is_Some (intLiteral (Playlist_Id q))) l1 /\
    intLiteral (Playlist_Id p) = None /\
    (Atoi (Playlist_Id p)).2 = Some err /\
    m' = indexLoop Playlist_Id i (l1 ++ [p]) m.
Proof.
  induction l as [|p l IH]; simpl; intros i m mx m' err Hloop; [done|].
  destruct (Atoi_cases (Playlist_Id p)) as [(z & E & Hz)|(j & k & E & Hz)];
    rewrite E in Hloop.
  - destruct (IH _ _ _ _ _ Hloop) as (l1 & q & l2 & -> & Hl1 & Hq & Herr & ->).
    exists (p :: l1), q, l2. repeat split; try done.
    constructor; [by rewrite Hz|done].
  - injection Hloop as <- <-. exists [], p, l. repeat split; try done.
    by rewrite E.
Qed.

Lemma main_load_failed slack o inputFilename outputFilename changesFilename err :
  Executable.flags o = (inputFilename, outputFilename, changesFilename) ->
  noFlagMissing o ->
  (Executable.NewDataStoreFromFile o inputFilename).2 = Executable.LoadFailed err ->
  Executable.main slack o
  = ([Executable.ReadFile inputFilename;
      Executable.Printf
        ("Problem reading the data store file ('%v'): %v" +:+ LF)
        [Executable.PString inputFilename; Executable.PFailure err]],
     Executable.Exit Executable.EXIT_FAILURE).
Proof.
  intros Eflags Hf Hload. unfold Executable.main.
  destruct (GetCommandLineArgsOrExit_cases o) as [[_ ->]|[[] _]]; [|done].
  rewrite Eflags. unfold Executable.NewDataStoreFromFile in *.
  simpl in Hload. by rewrite Hload.
Qed.

(** C2, amended: for the store a snapshot decodes to, construction returns;
    it fails exactly when some playlist id is not an integer literal (an
    optional sign, decimal digits, a value that fits [int]), and succeeds
    exactly when every playlist id is one.  When it fails, the error is the
    one [Atoi] gives for the first such id; the loop has stopped there, with
    the playlists after it left out of the index and the counter still
    zero; [NewDataStoreFromFile] hands the error to [main], which prints
    it and exits with [EXIT_FAILURE] without using the store.  A document
    that decodes to no store, [null], makes [NewDataStoreFromFile] panic:
    that is neither of the two. *)
Theorem construction_fails_iff h users playlists songs :
  (exists r w,
     NewDataStoreFromFile h users playlists songs = Ret r w /\
     (r <> None <->
      exists p, p ∈ playlists /\ intLiteral (Playlist_Id p) = None) /\
     (r = None <->
      forall p, p ∈ playlists -> is_Some (intLiteral (Playlist_Id p))) /\
     (forall err, r = Some err ->
        (exists l1 p l2,
           playlists = l1 ++ p :: l2 /\
           Forall (fun q => is_Some (intLiteral (Playlist_Id q))) l1 /\
           intLiteral (Playlist_Id p) = None /\
           (Atoi (Playlist_Id p)).2 = Some err /\
           playlistMap (store w) = indexLoop Playlist_Id 0 (l1 ++ [p]) ∅) /\
        nextPlaylistId (store w) = 0 /\
        forall slack o inputFilename outputFilename changesFilename data,
          Executable.flags o = (inputFilename, outputFilename, changesFilename) ->
          noFlagMissing o ->
          Executable.readFile o inputFilename = inl data ->
          Executable.unmarshal o data
          = (Some (Executable.mkDecoded h users playlists songs), None) ->
          (Executable.NewDataStoreFromFile o inputFilename).2
          = Executable.LoadFailed (Executable.Own err) /\
          Executable.main slack o
          = ([Executable.ReadFile inputFilename;
              Executable.Printf
                ("Problem reading the data store file ('%v'): %v" +:+ LF)
                [Executable.PString inputFilename;
                 Executable.PFailure (Executable.Own err)]],
             Executable.Exit Executable.EXIT_FAILURE))) /\
  (forall o inputFilename data,
     Executable.readFile o inputFilename = inl data ->
     Executable.unmarshal o data = (None, None) ->
     (Executable.NewDataStoreFromFile o inputFilename).2 = Executable.LoadCrashed).
Proof.
  split.
  2:{ intros o f data Hread Hjson. unfold Executable.NewDataStoreFromFile.
      simpl. by rewrite Hread, Hjson. }
  pose proof (NewDataStoreFromFile_eq h users playlists songs) as Heq.
  simpl in Heq.
  pose proof (playlistLoop_spec playlists 0 ∅ 0) as Hspec.
  destruct (playlistLoop 0 playlists ∅ 0) as [m [mx|err]] eqn:Hloop.
  - destruct Hspec as (_ & ids & Hids & _).
    assert (forall p, p ∈ playlists -> is_Some (intLiteral (Playlist_Id p))) as Hall.
    { intros p Hp. apply list_elem_of_lookup_1 in Hp as [i Hi].
      destruct (Forall2_lookup_l _ _ _ _ _ Hids Hi) as (z & _ & Hz). by exists z. }
    eexists None, _. split; [exact Heq|].
    split; [split; [done|]|].
    { intros (p & Hp & Hn). apply Hall in Hp as [z Hz]. congruence. }
    split; [done|]. by intros err [=].
  - clear Hspec.
    destruct (playlistLoop_first_error _ _ _ _ _ _ Hloop)
      as (l1 & p & l2 & Hl & Hl1 & Hp & Herr & Hm).
    assert (p ∈ playlists) as Hin
      by (rewrite Hl; apply elem_of_app; right; by left).
    eexists (Some err), _. split; [exact Heq|].
    split; [split; [intros _; by exists p|done]|].
    split.
    { split; [done|]. intros Hall. apply Hall in Hin as [z Hz]. congruence. }
    intros err' [= <-]. split; [by exists l1, p, l2|]. split; [done|].
    intros slack o f out c data Eflags Hf Hread Hjson.
    assert ((Executable.NewDataStoreFromFile o f).2
            = Executable.LoadFailed (Executable.Own err)) as Hload.
    { unfold Executable.NewDataStoreFromFile. simpl. rewrite Hread, Hjson.
      simpl. rewrite NewDataStoreFromFile_eq. simpl. by rewrite Hloop. }
    split; [exact Hload|]. by eapply main_load_failed.
Qed.

(** C3, as stated, fails: with only negative ids loaded the counter starts
    at 1, not at one more than the largest id. *)
Lemma nextPlaylistId_with_negative_ids :
  let playlists := [mkPlaylist "-5" "1" (mkSlice 1 0 0 0)] in
  exists w,
    NewDataStoreFromFile ∅ [] playlists [] = Ret None w /\
    numericIds playlists [-5] /\
    nextPlaylistId (store w) <> onePlusMaximum [-5].
Proof.
  eexists. split; [vm_compute; reflexivity|]. split.
  - repeat constructor.
  - vm_compute. discriminate.
Qed.

(** C3, amended: after a successful load [nextPlaylistId] is one more, in
    [int] arithmetic, than the largest of 0 and the loaded numeric ids; below
    the top of the [int] range that is the exact sum. *)
Theorem nextPlaylistId_after_load h users playlists songs w :
  NewDataStoreFromFile h users playlists songs = Ret None w ->
  exists ids,
    numericIds playlists ids /\
    nextPlaylistId (store w) = GoInt.add (foldr Z.max 0 ids) 1 /\
    (foldr Z.max 0 ids < GoInt.maxInt ->
     nextPlaylistId (store w) = foldr Z.max 0 ids + 1) /\
    (playlists = [] -> nextPlaylistId (store w) = 1).
Proof.
  intros Hw.
  destruct (NewDataStoreFromFile_cases h users playlists songs)
    as [(w' & ids & Hw' & Hids & _ & _ & _ & _ & _ & _ & _ & Hn)|(w' & l1 & p & l2 & k & Hw' & _)];
    [|congruence].
  assert (w' = w) as -> by congruence.
  exists ids. split; [done|]. split; [done|]. split.
  - intros Hlt. rewrite Hn. unfold GoInt.add. apply wrap_small.
    assert (0 <= foldr Z.max 0 ids) by (clear; induction ids; simpl; lia).
    unfold GoInt.inRange, GoInt.minInt, GoInt.maxInt in *. lia.
  - intros ->. apply Forall2_nil_inv_l in Hids as ->. by rewrite Hn.
Qed.

(** ** The indexes after a load *)

Lemma lastAt_exists {A} (key : A -> string) (l : list A) :
  forall (i : nat) x, l !! i = Some x ->
    exists j : nat, (i <= j)%nat /\ lastAt key l (key x) j.
Proof.
  induction l as [|a l IH]; intros i x Hi; [done|].
  destruct i as [|i]; simpl in Hi.
  - injection Hi as ->.
    destruct (decide (Exists (fun y => key y = key x) l)) as [Hex|Hno].
    + apply Exists_exists in Hex as (y & Hy & Hk).
      apply list_elem_of_lookup_1 in Hy as [n Hn].
      destruct (IH n y Hn) as (j & _ & (z & Hz & Hkz) & Hlast).
      exists (S j). split; [lia|]. rewrite Hk in *. split; [by exists z|].
      intros [|j'] x' Hlt Hx'; [lia|]. apply (Hlast j'); [lia|done].
    + exists 0%nat. split; [lia|]. split; [by exists x|].
      intros [|j'] x' Hlt Hx' Hk; [lia|]. apply Hno, Exists_exists.
      exists x'. split; [by eapply list_elem_of_lookup_2|done].
  - destruct (IH i x Hi) as (j & Hij & (z & Hz & Hkz) & Hlast).
    exists (S j). split; [lia|]. split; [by exists z|].
    intros [|j'] x' Hlt Hx'; [lia|]. apply (Hlast j'); [lia|done].
Qed.

Lemma indexLoop_resolvesToLast {A} (key : A -> string) (l : list A) :
  resolvesToLast key l (indexLoop key 0 l ∅).
Proof.
  intros i x Hi. destruct (lastAt_exists key l i x Hi) as (j & Hij & Hj).
  exists j. split; [|done]. apply indexLoop_lookup. left. exists j. split; [lia|done].
Qed.

Lemma lastAt_NoDup {A} (key : A -> string) (l : list A) (i j : nat) x :
  NoDup (key <$> l) -> l !! i = Some x -> lastAt key l (key x) j -> j = i.
Proof.
  intros Hnd Hi [(y & Hy & Hk) _].
  apply (NoDup_lookup (key <$> l) j i (key x)); [done|..].
  - by rewrite list_lookup_fmap, Hy, <- Hk.
  - by rewrite list_lookup_fmap, Hi.
Qed.

Lemma indexLoop_resolvesExactly {A} (key : A -> string) (l : list A) :
  NoDup (key <$> l) -> resolvesExactly key l (indexLoop key 0 l ∅).
Proof.
  intros Hnd i x Hi.
  destruct (indexLoop_resolvesToLast key l i x Hi) as (j & Hm & _ & Hj).
  by rewrite (lastAt_NoDup key l i j x Hnd Hi Hj) in Hm.
Qed.

(** C4, as stated, fails: of two users with the same id, the index resolves
    the id to the second one only. *)
Lemma duplicate_ids_shadow :
  let users := [mkUser "1" "Ann"; mkUser "1" "Bob"] in
  exists w,
    NewDataStoreFromFile ∅ users [] [] = Ret None w /\
    ~ resolvesExactly User_Id (Users (store w)) (userMap (store w)).
Proof.
  eexists. split; [vm_compute; reflexivity|].
  intros H. specialize (H 0%nat (mkUser "1" "Ann") eq_refl).
  vm_compute in H. discriminate.
Qed.

(** C4, amended: after a successful load the collections are the loaded
    ones, and looking up an entity's id gives the position of the last
    entity of its collection with that id: the entity's own position when the
    ids of the collection are pairwise distinct. *)
Theorem indexes_after_load h users playlists songs w :
  NewDataStoreFromFile h users playlists songs = Ret None w ->
  let ds := store w in
  (Users ds = users /\ Playlists ds = playlists /\ Songs ds = songs) /\
  (resolvesToLast User_Id (Users ds) (userMap ds) /\
   resolvesToLast Song_Id (Songs ds) (songMap ds) /\
   resolvesToLast Playlist_Id (Playlists ds) (playlistMap ds)) /\
  (NoDup (User_Id <$> users) -> resolvesExactly User_Id (Users ds) (userMap ds)) /\
  (NoDup (Song_Id <$> songs) -> resolvesExactly Song_Id (Songs ds) (songMap ds)) /\
  (NoDup (Playlist_Id <$> playlists) ->
   resolvesExactly Playlist_Id (Playlists ds) (playlistMap ds)).
Proof.
  intros Hw.
  destruct (NewDataStoreFromFile_cases h users playlists songs)
    as [(w' & ids & Hw' & _ & _ & HU & HP & HS & Hum & Hsm & Hpm & _)
       |(w' & l1 & p & l2 & k & Hw' & _)]; [|congruence].
  assert (w' = w) as -> by congruence. simpl.
  rewrite HU, HP, HS, Hum, Hsm, Hpm.
  repeat split; auto using @indexLoop_resolvesToLast, @indexLoop_resolvesExactly.
Qed.

(** ** RemovePlaylist *)

Lemma elemAt_of_nat {A} (l : list A) (j : nat) : elemAt l (Z.of_nat j) = l !! j.
Proof. unfold elemAt. rewrite decide_True by lia. by rewrite Nat2Z.id. Qed.

Lemma elemAt_neg {A} (l : list A) z : z < 0 -> elemAt l z = None.
Proof. intros. unfold elemAt. by rewrite decide_False by lia. Qed.

Lemma RemovePlaylist_absent id w :
  playlistMap (store w) !! id = None -> RemovePlaylist id w = Ret (false, None) w.
Proof. intros H. unfold RemovePlaylist. run. by rewrite H. Qed.

Lemma RemovePlaylist_present id w (t : nat) last :
  playlistMap (store w) !! id = Some (Z.of_nat t) ->
  (t < length (Playlists (store w)))%nat ->
  Playlists (store w) !! (length (Playlists (store w)) - 1)%nat = Some last ->
  RemovePlaylist id w = Ret (true, None) (removed id t last w).
Proof.
  intros Hm Ht Hlast. unfold RemovePlaylist, index, assign. run. rewrite Hm.
  assert (Z.of_nat (length (Playlists (store w))) - 1
          = Z.of_nat (length (Playlists (store w)) - 1)) as -> by lia.
  rewrite elemAt_of_nat, Hlast. run. rewrite elemAt_of_nat.
  destruct (lookup_lt_is_Some_2 _ _ Ht) as [x ->]. run.
  by rewrite !Nat2Z.id.
Qed.

Lemma RemovePlaylist_stale id w (t : nat) :
  playlistMap (store w) !! id = Some (Z.of_nat t) ->
  (length (Playlists (store w)) <= t)%nat ->
  exists e, RemovePlaylist id w = Panic e.
Proof.
  intros Hm Ht. unfold RemovePlaylist, index, assign. run. rewrite Hm.
  destruct (elemAt (Playlists (store w)) _) as [last|]; run; [|by eexists].
  rewrite elemAt_of_nat, (lookup_ge_None_2 _ _ Ht). by eexists.
Qed.

Section SwapRemove.
Context (w : World) (id : string) (t : nat) (last : Playlist).
Let ps := Playlists (store w).
Let m := playlistMap (store w).
Hypothesis Hcons : indexConsistent Playlist_Id ps m.
Hypothesis Hid : m !! id = Some (Z.of_nat t).
Hypothesis Hlast : ps !! (length ps - 1)%nat = Some last.

Lemma target_in_range : (t < length ps)%nat.
Proof.
  apply Hcons in Hid as (j & x & Hj & Hx & _).
  apply Nat2Z.inj in Hj as ->. by eapply lookup_lt_Some.
Qed.

Lemma target_id : exists p, ps !! t = Some p /\ Playlist_Id p = id.
Proof.
  apply Hcons in Hid as (j & x & Hj & Hx & Hk).
  apply Nat2Z.inj in Hj as ->. by exists x.
Qed.

Lemma position_unique (i j : nat) x y :
  ps !! i = Some x -> ps !! j = Some y -> Playlist_Id x = Playlist_Id y -> i = j.
Proof.
  intros Hx Hy Hk.
  assert (m !! Playlist_Id x = Some (Z.of_nat i)) as Hi by (apply Hcons; by exists i, x).
  assert (m !! Playlist_Id x = Some (Z.of_nat j)) as Hj by (apply Hcons; by exists j, y).
  rewrite Hi in Hj. injection Hj as Hj. lia.
Qed.

(** Removing a playlist that is not the last one keeps the index exact. *)
Lemma swap_remove_consistent :
  t <> (length ps - 1)%nat ->
  indexConsistent Playlist_Id
    (take (length ps - 1) (<[t := last]> ps))
    (<[Playlist_Id last := Z.of_nat t]> (delete id m)).
Proof.
  intros Hne. pose proof target_in_range as Ht.
  destruct target_id as (p & Hp & Hpid).
  assert (Playlist_Id last <> id) as Hlid.
  { intros E. apply Hne. apply (position_unique _ _ p last); congruence. }
  assert (forall j : nat, take (length ps - 1) (<[t := last]> ps) !! j =
            if decide (j = t) then Some last
            else if decide (j < length ps - 1)%nat then ps !! j else None) as Hlk.
  { intros j. destruct (decide (j < length ps - 1)%nat) as [Hj|Hj].
    - rewrite lookup_take_lt by done. destruct (decide (j = t)) as [->|];
        [by rewrite list_lookup_insert_eq|by rewrite list_lookup_insert_ne].
    - rewrite lookup_take_ge by lia. rewrite decide_False by lia. done. }
  intros k z. split.
  - intros Hz. destruct (decide (k = Playlist_Id last)) as [->|Hk].
    + rewrite lookup_insert_eq in Hz. injection Hz as <-.
      exists t, last. by rewrite Hlk, decide_True.
    + rewrite lookup_insert_ne in Hz by done.
      apply lookup_delete_Some in Hz as [Hkid Hz].
      apply Hcons in Hz as (j & x & -> & Hx & Hkx).
      exists j, x. split; [done|]. split; [|done].
      rewrite Hlk. rewrite decide_False.
      * rewrite decide_True; [done|].
        apply lookup_lt_Some in Hx as Hjn.
        destruct (decide (j = (length ps - 1)%nat)) as [->|]; [|lia].
        congruence.
      * intros ->. congruence.
  - intros (j & x & -> & Hx & Hkx). rewrite Hlk in Hx.
    destruct (decide (j = t)) as [->|Hjt].
    + injection Hx as <-. subst k. by rewrite lookup_insert_eq.
    + destruct (decide (j < length ps - 1)%nat) as [Hj|]; [|done].
      assert (k <> Playlist_Id last) as Hk.
      { intros E. assert (j = (length ps - 1)%nat); [|lia].
        apply (position_unique _ _ x last); congruence. }
      rewrite lookup_insert_ne by done.
      apply lookup_delete_Some. split.
      * intros E. apply Hjt. apply (position_unique _ _ x p); congruence.
      * apply Hcons. by exists j, x.
Qed.
End SwapRemove.

Lemma indexLoop_consistent {A} (key : A -> string) (l : list A) :
  NoDup (key <$> l) -> indexConsistent key l (indexLoop key 0 l ∅).
Proof.
  intros Hnd k z. rewrite indexLoop_lookup. split.
  - intros [(j & -> & (x & Hx & Hk) & _)|[H _]]; [|done].
    exists j, x. split; [lia|done].
  - intros (j & x & -> & Hx & Hk). left. exists j. split; [lia|].
    split; [by exists x|]. intros j' x' Hlt Hx' Hk'.
    assert (j' = j); [|lia].
    apply (NoDup_lookup (key <$> l) j' j k); [done|..];
      rewrite list_lookup_fmap; [by rewrite Hx', <- Hk'|by rewrite Hx, <- Hk].
Qed.

Lemma elem_of_swap_remove {A} (l : list A) (t n : nat) (last p : A) :
  last ∈ l -> p ∈ take n (<[t := last]> l) -> p ∈ l.
Proof.
  intros Hlast Hp. apply list_elem_of_lookup_1 in Hp as [j Hj].
  apply lookup_take_Some in Hj as [Hj _].
  destruct (decide (j = t)) as [->|Hne].
  - destruct (decide (t < length l)%nat).
    + rewrite list_lookup_insert_eq in Hj by done. congruence.
    + rewrite list_insert_ge in Hj by lia. by eapply list_elem_of_lookup_2.
  - rewrite list_lookup_insert_ne in Hj by done. by eapply list_elem_of_lookup_2.
Qed.

(** X1: removing a playlist that is not the last of the collection does all
    that is expected of [RemovePlaylist]: it is reported, the collection
    shrinks by one, the invariants of the store hold again, and removing the
    same id once more reports that nothing was done. *)
Lemma RemovePlaylist_inner w id (t : nat) :
  storeInvariant w ->
  playlistMap (store w) !! id = Some (Z.of_nat t) ->
  t <> (length (Playlists (store w)) - 1)%nat ->
  exists w',
    RemovePlaylist id w = Ret (true, None) w' /\
    S (length (Playlists (store w'))) = length (Playlists (store w)) /\
    storeInvariant w' /\
    RemovePlaylist id w' = Ret (false, None) w'.
Proof.
  intros Hinv Hid Hne.
  pose proof (target_in_range w id t (inv_playlists w Hinv) Hid) as Ht.
  destruct (lookup_lt_is_Some_2 (Playlists (store w))
              (length (Playlists (store w)) - 1)) as [last Hlast]; [lia|].
  pose proof (swap_remove_consistent w id t last (inv_playlists w Hinv) Hid Hlast Hne)
    as Hcons.
  exists (removed id t last w).
  assert (forall p, p ∈ Playlists (store (removed id t last w)) ->
                    p ∈ Playlists (store w)) as Hsub.
  { intros p. simpl. apply elem_of_swap_remove. by eapply list_elem_of_lookup_2. }
  split; [by apply RemovePlaylist_present|]. split; [|split].
  - simpl. rewrite length_take, length_insert. lia.
  - destruct Hinv as [Hu Hs Hp Hr Hn Hx]. split; simpl; try done.
    + intros p Hp'. apply Hr. by apply Hsub.
    + intros p Hp'. apply Hn. by apply Hsub.
    + intros p z Hp'. apply Hx. by apply Hsub.
  - apply RemovePlaylist_absent. simpl.
    destruct (target_id w id t (inv_playlists w Hinv) Hid) as (p & Hp & Hpid).
    rewrite lookup_insert_ne; [by rewrite lookup_delete_eq|].
    intros E. apply Hne.
    apply (position_unique w (inv_playlists w Hinv) _ _ p last); congruence.
Qed.

(** C1: on the playlist stored last the removal itself is reported and
    shrinks the collection, but the index keeps the removed id, pointing past
    the end of the collection, and removing the same id again panics. *)
Theorem RemovePlaylist_last_keeps_stale_entry w id :
  storeInvariant w ->
  playlistMap (store w) !! id = Some (Z.of_nat (length (Playlists (store w))) - 1) ->
  exists w',
    RemovePlaylist id w = Ret (true, None) w' /\
    S (length (Playlists (store w'))) = length (Playlists (store w)) /\
    playlistMap (store w') !! id = Some (Z.of_nat (length (Playlists (store w')))) /\
    ~ indexConsistent Playlist_Id (Playlists (store w')) (playlistMap (store w')) /\
    exists e, RemovePlaylist id w' = Panic e.
Proof.
  intros Hinv Hid.
  pose proof (inv_playlists w Hinv) as Hcons.
  destruct (proj1 (Hcons _ _) Hid) as (t & p & Ht & Hp & Hpid).
  assert (t = (length (Playlists (store w)) - 1)%nat) as -> by lia.
  apply lookup_lt_Some in Hp as Hlen.
  rewrite Ht in Hid.
  exists (removed id (length (Playlists (store w)) - 1) p w).
  assert (length (Playlists (store (removed id (length (Playlists (store w)) - 1) p w)))
          = (length (Playlists (store w)) - 1)%nat) as Hlen'.
  { simpl. rewrite length_take, length_insert. lia. }
  assert (playlistMap (store (removed id (length (Playlists (store w)) - 1) p w)) !! id
          = Some (Z.of_nat (length (Playlists (store w)) - 1))) as Hstale.
  { simpl. by rewrite Hpid, lookup_insert_eq. }
  split; [by apply RemovePlaylist_present|]. split; [lia|]. split; [|split].
  - by rewrite Hlen'.
  - intros Hc. apply Hc in Hstale as (j & x & Hj & Hx & _).
    apply lookup_lt_Some in Hx. lia.
  - eapply RemovePlaylist_stale; [exact Hstale|lia].
Qed.

(** ** A concrete store *)

Lemma Fixture_load :
  NewDataStoreFromFile Fixture.memory Fixture.users Fixture.playlists Fixture.songs
  = Ret None Fixture.loaded.
Proof. reflexivity. Qed.

Ltac each_element H :=
  repeat (apply elem_of_cons in H as [->|H]); [..|by apply elem_of_nil in H].

Lemma Fixture_invariant : storeInvariant Fixture.loaded.
Proof.
  split; simpl.
  - apply indexLoop_consistent. by apply (bool_decide_unpack _).
  - apply indexLoop_consistent. by apply (bool_decide_unpack _).
  - apply indexLoop_consistent. by apply (bool_decide_unpack _).
  - intros p Hp. each_element Hp; (split; [by eexists|]); intros s Hs;
      vm_compute in Hs; each_element Hs; by eexists.
  - intros p Hp. each_element Hp; by vm_compute.
  - intros p z Hp Hz. each_element Hp; vm_compute in Hz; injection Hz as <-; lia.
Qed.

Lemma RemovePlaylist_last_keeps_stale_entry_witness :
  exists w',
    RemovePlaylist "3" Fixture.loaded = Ret (true, None) w' /\
    S (length (Playlists (store w'))) = length (Playlists (store Fixture.loaded)) /\
    playlistMap (store w') !! "3"%string
      = Some (Z.of_nat (length (Playlists (store w')))) /\
    ~ indexConsistent Playlist_Id (Playlists (store w')) (playlistMap (store w')) /\
    exists e, RemovePlaylist "3" w' = Panic e.
Proof.
  apply (RemovePlaylist_last_keeps_stale_entry Fixture.loaded "3").
  - exact Fixture_invariant.
  - reflexivity.
Defined.

(** ** Slices *)

Lemma cells_length h s : slice_wf h s -> length (cells h s) = len s.
Proof.
  intros [H1 H2]. unfold cells. rewrite length_take, length_drop. lia.
Qed.

Lemma slice_wf_allocated h s : slice_wf h s -> len s <> 0%nat -> arr s ∈ dom h.
Proof.
  intros [H1 H2] Hn. apply elem_of_dom. unfold array in H2.
  destruct (h !! arr s); [done|]. simpl in H2. lia.
Qed.

Lemma fresh_not_allocated (h : Heap) a : a ∈ dom h -> a <> fresh (dom h).
Proof. intros Ha ->. by apply (is_fresh (dom h)). Qed.

Lemma cells_agree h h' s : h' !! arr s = h !! arr s -> cells h' s = cells h s.
Proof. intros H. unfold cells, array. by rewrite H. Qed.

(** [make] followed by [copy]: the new slice holds the source's elements in
    a backing array of its own, and no other array changes. *)
Lemma make_copy h src :
  slice_wf h src -> len src <> 0%nat ->
  let '(dst, h1) := make h (len src) in
  let h2 := copy h1 dst src in
  arr dst = fresh (dom h) /\
  cells h2 dst = cells h src /\
  slice_wf h2 dst /\
  (forall a, a <> arr dst -> h2 !! a = h !! a).
Proof.
  intros Hwf Hlen. unfold make, copy. simpl.
  set (a := fresh (dom h)).
  assert (arr src <> a) as Hne.
  { apply fresh_not_allocated. by apply slice_wf_allocated. }
  assert (cells (<[a := replicate (len src) EmptyString]> h) src = cells h src) as ->.
  { apply cells_agree. by rewrite lookup_insert_ne. }
  rewrite firstn_all2 by (rewrite cells_length; [lia|done]).
  rewrite alter_insert_eq. simpl.
  rewrite cells_length by done.
  rewrite drop_ge by (rewrite length_replicate; lia).
  rewrite app_nil_r.
  split; [done|]. split; [|split].
  - unfold cells, array. simpl. rewrite lookup_insert_eq. simpl.
    by rewrite drop_0, take_take, Nat.min_id.
  - split; simpl; [lia|]. unfold array. rewrite lookup_insert_eq. simpl.
    rewrite cells_length by done. lia.
  - intros b Hb. by rewrite lookup_insert_ne.
Qed.

(** ** AddNewPlaylist *)

Lemma anyUnknownSong_true m l :
  anyUnknownSong m l = true <-> exists s, s ∈ l /\ m !! s = None.
Proof.
  induction l as [|a l IH]; simpl.
  - split; [discriminate|]. intros (s & Hs & _). by apply elem_of_nil in Hs.
  - destruct (m !! a) eqn:Ha.
    + rewrite IH. split.
      * intros (s & Hs & Hn). exists s. split; [by right|done].
      * intros (s & [->|Hs]%elem_of_cons & Hn); [congruence|by exists s].
    + split; [|done]. intros _. exists a. split; [by left|done].
Qed.

Lemma anyUnknownSong_false m l :
  anyUnknownSong m l = false <-> forall s, s ∈ l -> is_Some (m !! s).
Proof.
  split.
  - intros H s Hs. destruct (m !! s) eqn:E; [done|].
    assert (anyUnknownSong m l = true) by (apply anyUnknownSong_true; by exists s).
    congruence.
  - intros H. destruct (anyUnknownSong m l) eqn:E; [|done].
    apply anyUnknownSong_true in E as (s & Hs & Hn). apply H in Hs as [? ?]. congruence.
Qed.

Lemma AddNewPlaylist_valid w userId songIds :
  is_Some (userMap (store w) !! userId) ->
  len songIds <> 0%nat ->
  (forall s, s ∈ cells (heap w) songIds -> is_Some (songMap (store w) !! s)) ->
  AddNewPlaylist userId songIds w
  = Ret (strconv.Itoa (nextPlaylistId (store w)), None) (added userId songIds w).
Proof.
  intros [u Hu] Hlen Hsongs. apply anyUnknownSong_false in Hsongs.
  unfold AddNewPlaylist, added, generatePlaylistId. run. rewrite Hu.
  rewrite decide_False by done. rewrite Hsongs. unfold make. run.
  unfold set_playlistMap, set_Playlists, set_nextPlaylistId. simpl.
  do 4 f_equal. rewrite length_app. simpl. f_equal. lia.
Qed.

Lemma AddNewPlaylist_cases w userId songIds :
  (exists err, AddNewPlaylist userId songIds w = Ret (EmptyString, Some err) w) \/
  AddNewPlaylist userId songIds w
    = Ret (strconv.Itoa (nextPlaylistId (store w)), None) (added userId songIds w).
Proof.
  destruct (userMap (store w) !! userId) as [u|] eqn:Hu.
  - destruct (decide (len songIds = 0%nat)) as [Hl|Hl].
    + left. eexists. unfold AddNewPlaylist. run. by rewrite Hu, decide_True.
    + destruct (anyUnknownSong (songMap (store w)) (cells (heap w) songIds)) eqn:Hs.
      * left. eexists. unfold AddNewPlaylist. run. by rewrite Hu, decide_False, Hs.
      * right. apply AddNewPlaylist_valid; [done|done|]. by apply anyUnknownSong_false.
  - left. eexists. unfold AddNewPlaylist. run. by rewrite Hu.
Qed.

Lemma added_fields w userId songIds :
  exists songIdsCopy,
    Playlists (store (added userId songIds w))
    = Playlists (store w)
      ++ [mkPlaylist (strconv.Itoa (nextPlaylistId (store w))) userId songIdsCopy] /\
    nextPlaylistId (store (added userId songIds w))
    = GoInt.add (nextPlaylistId (store w)) 1.
Proof. unfold added. destruct (make _ _) as [c h1]. by exists c. Qed.

(** C5: [AddNewPlaylist] checks the user, then that there is a song, then
    every song, and reports the first check that fails; whenever it reports
    an error the world it leaves, store and heap, is the one it found. *)
Theorem AddNewPlaylist_validation w userId songIds :
  (userMap (store w) !! userId = None ->
   AddNewPlaylist userId songIds w = Ret (EmptyString, Some UnknownUser) w) /\
  (is_Some (userMap (store w) !! userId) -> len songIds = 0%nat ->
   AddNewPlaylist userId songIds w = Ret (EmptyString, Some EmptyPlaylist) w) /\
  (is_Some (userMap (store w) !! userId) -> len songIds <> 0%nat ->
   (exists s, s ∈ cells (heap w) songIds /\ songMap (store w) !! s = None) ->
   AddNewPlaylist userId songIds w = Ret (EmptyString, Some UnknownSongs) w) /\
  (forall id err w',
     AddNewPlaylist userId songIds w = Ret (id, Some err) w' ->
     w' = w /\ id = EmptyString /\
     Playlists (store w') = Playlists (store w) /\
     playlistMap (store w') = playlistMap (store w) /\
     nextPlaylistId (store w') = nextPlaylistId (store w)).
Proof.
  split; [|split; [|split]].
  - intros Hu. unfold AddNewPlaylist. run. by rewrite Hu.
  - intros [u Hu] Hl. unfold AddNewPlaylist. run. by rewrite Hu, decide_True.
  - intros [u Hu] Hl Hs. apply anyUnknownSong_true in Hs.
    unfold AddNewPlaylist. run. by rewrite Hu, decide_False, Hs.
  - intros id err w' Hrun.
    destruct (AddNewPlaylist_cases w userId songIds) as [[err' E]|E];
      rewrite E in Hrun; [|discriminate].
    by injection Hrun as <- _ <-.
Qed.

(** C6: on valid input [AddNewPlaylist] returns the decimal form of the
    counter, advances the counter by one, appends one playlist holding the
    given song ids in a backing array of its own, and enters the new id in
    the playlist index at the playlist's position; writing to the caller's
    slice afterwards does not reach the stored playlist. *)
Theorem AddNewPlaylist_success w userId songIds :
  is_Some (userMap (store w) !! userId) ->
  len songIds <> 0%nat ->
  slice_wf (heap w) songIds ->
  (forall s, s ∈ cells (heap w) songIds -> is_Some (songMap (store w) !! s)) ->
  exists w' songIdsCopy,
    AddNewPlaylist userId songIds w
      = Ret (strconv.Itoa (nextPlaylistId (store w)), None) w' /\
    nextPlaylistId (store w') = GoInt.add (nextPlaylistId (store w)) 1 /\
    (GoInt.inRange (nextPlaylistId (store w)) ->
     nextPlaylistId (store w) < GoInt.maxInt ->
     nextPlaylistId (store w') = nextPlaylistId (store w) + 1) /\
    Playlists (store w')
      = Playlists (store w)
        ++ [mkPlaylist (strconv.Itoa (nextPlaylistId (store w))) userId songIdsCopy] /\
    cells (heap w') songIdsCopy = cells (heap w) songIds /\
    playlistMap (store w')
      = <[strconv.Itoa (nextPlaylistId (store w))
          := Z.of_nat (length (Playlists (store w)))]> (playlistMap (store w)) /\
    elemAt (Playlists (store w')) (Z.of_nat (length (Playlists (store w))))
      = Some (mkPlaylist (strconv.Itoa (nextPlaylistId (store w))) userId songIdsCopy) /\
    (Users (store w') = Users (store w) /\ Songs (store w') = Songs (store w) /\
     userMap (store w') = userMap (store w) /\ songMap (store w') = songMap (store w)) /\
    (arr songIdsCopy ∉ dom (heap w)) /\
    (forall a, a ∈ dom (heap w) -> heap w' !! a = heap w !! a) /\
    (forall i x,
       cells (store_cell (heap w') songIds i x) songIdsCopy = cells (heap w) songIds).
Proof.
  intros Hu Hlen Hwf Hsongs.
  pose proof (make_copy (heap w) songIds Hwf Hlen) as Hmc.
  pose proof (AddNewPlaylist_valid w userId songIds Hu Hlen Hsongs) as Hrun.
  unfold added in Hrun.
  destruct (make (heap w) (len songIds)) as [songIdsCopy h1].
  destruct Hmc as (Harr & Hcells & _ & Hframe).
  eexists _, songIdsCopy. simpl.
  split; [exact Hrun|]. simpl.
  assert (arr songIds <> arr songIdsCopy) as Hne.
  { rewrite Harr. apply fresh_not_allocated. by apply slice_wf_allocated. }
  repeat split; try done.
  - intros Hr Hlt. unfold GoInt.add. apply wrap_small.
    unfold GoInt.inRange, GoInt.minInt, GoInt.maxInt in *. lia.
  - rewrite elemAt_of_nat. by rewrite lookup_app_r, Nat.sub_diag.
  - rewrite Harr. apply is_fresh.
  - intros a Ha. apply Hframe. rewrite Harr. by apply fresh_not_allocated.
  - intros i x. rewrite <- Hcells. apply cells_agree.
    unfold store_cell. by rewrite lookup_alter_ne.
Qed.

(** ** AddSongToPlaylist *)

Section Append.
Variable slack : nat -> nat.

Lemma append_cells h s x :
  slice_wf h s ->
  cells (append slack h s x).2 (append slack h s x).1 = cells h s ++ [x] /\
  slice_wf (append slack h s x).2 (append slack h s x).1.
Proof.
  intros Hwf. pose proof (cells_length h s Hwf) as Hlen.
  destruct Hwf as [H1 H2]. unfold append.
  destruct (decide (len s < cap s)%nat) as [Hroom|Hfull]; simpl.
  - unfold store_cell, cells, slice_wf, array in *. simpl.
    rewrite lookup_alter_eq.
    destruct (h !! arr s) as [a|] eqn:Ha; simpl in *; [|lia].
    rewrite length_insert. split; [|lia].
    rewrite drop_insert_ge by lia.
    replace (off s + len s - off s)%nat with (len s) by lia.
    erewrite take_S_r.
    + by rewrite take_insert_ge by lia.
    + apply list_lookup_insert_eq. rewrite length_drop. lia.
  - unfold cells at 1, slice_wf, array. simpl. rewrite lookup_insert_eq. simpl.
    rewrite length_app. simpl. rewrite length_replicate, Hlen. split; [|lia].
    rewrite drop_0. change (x :: replicate (slack (cap s)) EmptyString)
      with ([x] ++ replicate (slack (cap s)) EmptyString).
    rewrite app_assoc. apply take_app_length'. rewrite length_app. simpl. lia.
Qed.

Lemma AddSongToPlaylist_valid w playlistId songId i p :
  is_Some (songMap (store w) !! songId) ->
  playlistMap (store w) !! playlistId = Some i ->
  elemAt (Playlists (store w)) i = Some p ->
  AddSongToPlaylist slack playlistId songId w = Ret None (extended slack i p songId w).
Proof.
  intros [s Hs] Hp Hi. unfold AddSongToPlaylist, index, assign, extended. run.
  rewrite Hs, Hp, Hi. run.
  destruct (append slack (heap w) (Playlist_SongIds p) songId) as [s' h'] eqn:E.
  by run.
Qed.

Lemma elemAt_extended w i p songId :
  elemAt (Playlists (store w)) i = Some p ->
  elemAt (Playlists (store (extended slack i p songId w))) i
  = Some (mkPlaylist (Playlist_Id p) (Playlist_UserId p)
            (append slack (heap w) (Playlist_SongIds p) songId).1).
Proof.
  unfold elemAt. destruct (decide (0 <= i)); [|done]. intros Hi. simpl.
  apply list_lookup_insert_eq. by eapply lookup_lt_Some.
Qed.

(** One successful addition, as the next one needs it. *)
Lemma AddSongToPlaylist_step w playlistId songId i p :
  is_Some (songMap (store w) !! songId) ->
  playlistMap (store w) !! playlistId = Some i ->
  elemAt (Playlists (store w)) i = Some p ->
  slice_wf (heap w) (Playlist_SongIds p) ->
  exists w1 p1,
    AddSongToPlaylist slack playlistId songId w = Ret None w1 /\
    elemAt (Playlists (store w1)) i = Some p1 /\
    Playlist_Id p1 = Playlist_Id p /\
    Playlist_UserId p1 = Playlist_UserId p /\
    cells (heap w1) (Playlist_SongIds p1)
      = cells (heap w) (Playlist_SongIds p) ++ [songId] /\
    slice_wf (heap w1) (Playlist_SongIds p1) /\
    Playlists (store w1) = <[Z.to_nat i := p1]> (Playlists (store w)) /\
    Users (store w1) = Users (store w) /\
    Songs (store w1) = Songs (store w) /\
    userMap (store w1) = userMap (store w) /\
    songMap (store w1) = songMap (store w) /\
    playlistMap (store w1) = playlistMap (store w) /\
    nextPlaylistId (store w1) = nextPlaylistId (store w).
Proof.
  intros Hs Hp Hi Hwf.
  destruct (append_cells (heap w) (Playlist_SongIds p) songId Hwf) as [Hc Hwf'].
  eexists (extended slack i p songId w), _.
  split; [by eapply AddSongToPlaylist_valid|].
  split; [by apply elemAt_extended|]. simpl. repeat split; try done; apply Hwf'.
Qed.

(** X17: on any store [AddSongToPlaylist] checks the song before the
    playlist and leaves the store alone when it reports an error; when both
    are known and the index points at a playlist, the song id is appended
    to that playlist whether or not it is already there, so three
    additions of one song make a playlist of two songs one of five.  With an
    exact index the playlist pointed at is the one that carries the id. *)
Theorem AddSongToPlaylist_behaviour w playlistId songId :
  (songMap (store w) !! songId = None ->
   AddSongToPlaylist slack playlistId songId w = Ret (Some UnknownSong) w) /\
  (is_Some (songMap (store w) !! songId) ->
   playlistMap (store w) !! playlistId = None ->
   AddSongToPlaylist slack playlistId songId w = Ret (Some UnknownPlaylist) w) /\
  (forall i p,
     is_Some (songMap (store w) !! songId) ->
     playlistMap (store w) !! playlistId = Some i ->
     elemAt (Playlists (store w)) i = Some p ->
     slice_wf (heap w) (Playlist_SongIds p) ->
     (exists w1 p1,
        AddSongToPlaylist slack playlistId songId w = Ret None w1 /\
        Playlists (store w1) = <[Z.to_nat i := p1]> (Playlists (store w)) /\
        elemAt (Playlists (store w1)) i = Some p1 /\
        Playlist_Id p1 = Playlist_Id p /\
        Playlist_UserId p1 = Playlist_UserId p /\
        cells (heap w1) (Playlist_SongIds p1)
          = cells (heap w) (Playlist_SongIds p) ++ [songId]) /\
     (exists w3 p3,
        (AddSongToPlaylist slack playlistId songId ;;;
         AddSongToPlaylist slack playlistId songId ;;;
         AddSongToPlaylist slack playlistId songId) w = Ret None w3 /\
        elemAt (Playlists (store w3)) i = Some p3 /\
        cells (heap w3) (Playlist_SongIds p3)
          = cells (heap w) (Playlist_SongIds p) ++ [songId; songId; songId] /\
        (length (cells (heap w) (Playlist_SongIds p)) = 2%nat ->
         length (cells (heap w3) (Playlist_SongIds p3)) = 5%nat))) /\
  (indexConsistent Playlist_Id (Playlists (store w)) (playlistMap (store w)) ->
   forall i, playlistMap (store w) !! playlistId = Some i ->
     exists p, elemAt (Playlists (store w)) i = Some p /\ Playlist_Id p = playlistId).
Proof.
  split; [|split; [|split]].
  - intros Hs. unfold AddSongToPlaylist. run. by rewrite Hs.
  - intros [s Hs] Hp. unfold AddSongToPlaylist. run. by rewrite Hs, Hp.
  - intros i p Hs Hp Hi Hwf.
    destruct (AddSongToPlaylist_step w playlistId songId i p Hs Hp Hi Hwf)
      as (w1 & p1 & Hr1 & Hi1 & Hid1 & Hu1 & Hc1 & Hwf1 & Hps1 & _ & _ & _ & Hsm1 & Hpm1 & _).
    split; [by exists w1, p1|].
    rewrite <- Hsm1 in Hs. rewrite <- Hpm1 in Hp.
    destruct (AddSongToPlaylist_step w1 playlistId songId i p1 Hs Hp Hi1 Hwf1)
      as (w2 & p2 & Hr2 & Hi2 & _ & _ & Hc2 & Hwf2 & _ & _ & _ & _ & Hsm2 & Hpm2 & _).
    rewrite <- Hsm2 in Hs. rewrite <- Hpm2 in Hp.
    destruct (AddSongToPlaylist_step w2 playlistId songId i p2 Hs Hp Hi2 Hwf2)
      as (w3 & p3 & Hr3 & Hi3 & _ & _ & Hc3 & _).
    exists w3, p3. split; [|split; [done|split]].
    + unfold bind. by rewrite Hr1, Hr2.
    + by rewrite Hc3, Hc2, Hc1, <- !app_assoc.
    + intros Hlen. rewrite Hc3, Hc2, Hc1, !length_app, Hlen. done.
  - intros Hcons i Hi. apply Hcons in Hi as (j & x & -> & Hx & Hk).
    exists x. by rewrite elemAt_of_nat.
Qed.
End Append.

(** ** The command protocol *)

Lemma cells_slice_from h s n :
  slice_wf h s -> (n <= len s)%nat ->
  cells h (slice_from s n) = drop n (cells h s) /\ slice_wf h (slice_from s n).
Proof.
  intros [H1 H2] Hn. unfold cells, slice_from, slice_wf. simpl. split; [|lia].
  rewrite <- drop_drop, take_drop_commute. do 2 f_equal. lia.
Qed.

Lemma cell_eq s i w :
  cell s i w =
  match cells (heap w) s !! i with
  | Some x => Ret x w
  | None => Panic (IndexOutOfRange (Z.of_nat i) (len s))
  end.
Proof. unfold cell. run. by destruct (cells (heap w) s !! i). Qed.

Section Dispatch.
Variable slack : nat -> nat.

Lemma handlers_add : commandHandlers slack !! ADD_PLAYLIST = Some addNewPlaylist.
Proof. reflexivity. Qed.
Lemma handlers_song :
  commandHandlers slack !! ADD_SONG_TO_PLAYLIST = Some (addSongToPlaylist slack).
Proof. reflexivity. Qed.
Lemma handlers_rm : commandHandlers slack !! REMOVE_PLAYLIST = Some removePlaylist.
Proof. reflexivity. Qed.
Lemma handlers_other name :
  name <> ADD_PLAYLIST -> name <> ADD_SONG_TO_PLAYLIST -> name <> REMOVE_PLAYLIST ->
  commandHandlers slack !! name = None.
Proof.
  intros. unfold commandHandlers. by rewrite !lookup_insert_ne, lookup_empty.
Qed.

Lemma ProcessCommand_handler w command name args
    (handler : slice -> M (option error)) :
  cells (heap w) command = name :: args ->
  len command <> 0%nat ->
  commandHandlers slack !! name = Some handler ->
  ProcessCommand slack command w = reported command (handler command w).
Proof.
  intros Hf Hl Hh. unfold ProcessCommand. rewrite decide_False by done.
  assert (cells (heap w) command !! 0%nat = Some name) as H0 by by rewrite Hf.
  unfold bind at 1. rewrite cell_eq, H0. cbv beta iota. rewrite Hh.
  unfold bind, reported. destruct (handler command w) as [[err|] w'|e]; by run.
Qed.

(** C9: an empty record and an unknown command name are rejected; each
    known command checks the number of its fields and, when that is wrong,
    reports it without running anything on the store; otherwise it hands
    its fields to the store's operation, whose error, if any, is reported
    with the command. *)
Theorem ProcessCommand_protocol w command :
  slice_wf (heap w) command ->
  (cells (heap w) command = [] ->
   ProcessCommand slack command w = Ret (Some EmptyCommand) w) /\
  (forall name args,
     cells (heap w) command = name :: args ->
     name <> ADD_PLAYLIST -> name <> ADD_SONG_TO_PLAYLIST -> name <> REMOVE_PLAYLIST ->
     ProcessCommand slack command w = Ret (Some (UnknownCommand name)) w) /\
  (forall args,
     cells (heap w) command = ADD_PLAYLIST :: args -> (length args < 2)%nat ->
     ProcessCommand slack command w
     = Ret (Some (Problem (ADD_PLAYLIST :: args) (ArityError ADD_PLAYLIST))) w) /\
  (forall args,
     cells (heap w) command = ADD_SONG_TO_PLAYLIST :: args -> length args <> 2%nat ->
     ProcessCommand slack command w
     = Ret (Some (Problem (ADD_SONG_TO_PLAYLIST :: args)
                    (ArityErrorCommand ADD_SONG_TO_PLAYLIST))) w) /\
  (forall args,
     cells (heap w) command = REMOVE_PLAYLIST :: args -> length args <> 1%nat ->
     ProcessCommand slack command w
     = Ret (Some (Problem (REMOVE_PLAYLIST :: args)
                    (ArityErrorCommand REMOVE_PLAYLIST))) w) /\
  (forall userId songId songIds,
     cells (heap w) command = ADD_PLAYLIST :: userId :: songId :: songIds ->
     cells (heap w) (slice_from command 2) = songId :: songIds /\
     ProcessCommand slack command w
     = reported command (dropValue (AddNewPlaylist userId (slice_from command 2) w))) /\
  (forall playlistId songId,
     cells (heap w) command = [ADD_SONG_TO_PLAYLIST; playlistId; songId] ->
     ProcessCommand slack command w
     = reported command (AddSongToPlaylist slack playlistId songId w)) /\
  (forall playlistId,
     cells (heap w) command = [REMOVE_PLAYLIST; playlistId] ->
     ProcessCommand slack command w
     = reported command (dropValue (RemovePlaylist playlistId w))).
Proof.
  intros Hwf. pose proof (cells_length _ _ Hwf) as Hlen.
  split; [|split; [|split; [|split; [|split; [|split; [|split]]]]]].
  - intros Hf. rewrite Hf in Hlen. unfold ProcessCommand.
    by rewrite decide_True.
  - intros name args Hf H1 H2 H3. rewrite Hf in Hlen. simpl in Hlen.
    unfold ProcessCommand. rewrite decide_False by lia.
    assert (cells (heap w) command !! 0%nat = Some name) as H0 by by rewrite Hf.
    unfold bind. rewrite cell_eq, H0. cbv beta iota.
    by rewrite handlers_other.
  - intros args Hf Ha.
    rewrite (ProcessCommand_handler w command _ _ _ Hf ltac:(rewrite <- Hlen, Hf; done)
               handlers_add).
    rewrite Hf in Hlen. simpl in Hlen.
    unfold addNewPlaylist. rewrite decide_True by lia.
    unfold bind. rewrite cell_eq, Hf. simpl. by rewrite Hf.
  - intros args Hf Ha.
    rewrite (ProcessCommand_handler w command _ _ _ Hf ltac:(rewrite <- Hlen, Hf; done)
               handlers_song).
    rewrite Hf in Hlen. simpl in Hlen.
    unfold addSongToPlaylist. rewrite decide_True by lia.
    unfold bind. rewrite cell_eq, Hf. simpl. by rewrite Hf.
  - intros args Hf Ha.
    rewrite (ProcessCommand_handler w command _ _ _ Hf ltac:(rewrite <- Hlen, Hf; done)
               handlers_rm).
    rewrite Hf in Hlen. simpl in Hlen.
    unfold removePlaylist. rewrite decide_True by lia.
    unfold bind. rewrite cell_eq, Hf. simpl. by rewrite Hf.
  - intros userId songId songIds Hf.
    rewrite (ProcessCommand_handler w command _ _ _ Hf ltac:(rewrite <- Hlen, Hf; done)
               handlers_add).
    rewrite Hf in Hlen. simpl in Hlen.
    destruct (cells_slice_from (heap w) command 2 Hwf) as [Hc _]; [lia|].
    rewrite Hf in Hc. split; [done|]. f_equal.
    unfold addNewPlaylist. rewrite decide_False by lia.
    unfold bind. rewrite cell_eq, Hf. simpl.
    destruct (AddNewPlaylist userId (slice_from command 2) w) as [[id [err|]] w'|e];
      by run.
  - intros playlistId songId Hf.
    rewrite (ProcessCommand_handler w command _ _ _ Hf ltac:(rewrite <- Hlen, Hf; done)
               handlers_song).
    rewrite Hf in Hlen. simpl in Hlen. f_equal.
    unfold addSongToPlaylist. rewrite decide_False by lia.
    unfold bind. rewrite cell_eq, Hf. simpl. by rewrite cell_eq, Hf.
  - intros playlistId Hf.
    rewrite (ProcessCommand_handler w command _ _ _ Hf ltac:(rewrite <- Hlen, Hf; done)
               handlers_rm).
    rewrite Hf in Hlen. simpl in Hlen. f_equal.
    unfold removePlaylist. rewrite decide_False by lia.
    unfold bind. rewrite cell_eq, Hf. simpl.
    destruct (RemovePlaylist playlistId w) as [[b [err|]] w'|e]; by run.
Qed.
End Dispatch.

(** ** The batch processor *)

Section Batch.
Variable slack : nat -> nat.

Lemma processLoop_runs cs : forall w rs w' errs,
  runs slack cs w rs w' ->
  processLoop slack cs errs w = Ret (errs ++ failures rs) w'.
Proof.
  induction cs as [|c cs IH]; intros w rs w' errs Hruns;
    inversion Hruns as [|? ? ? r w1 rs' ? Hc Hrest]; subst.
  - simpl. run. by rewrite app_nil_r.
  - simpl. unfold bind. rewrite Hc.
    rewrite (IH _ _ _ _ Hrest). destruct r as [err|]; simpl; [|done].
    by rewrite <- app_assoc.
Qed.

Lemma processLoop_aborts cs : forall w errs,
  aborts slack cs w -> exists e, processLoop slack cs errs w = Panic e.
Proof.
  induction cs as [|c cs IH]; intros w errs Hab;
    inversion Hab as [? ? ? e Hc|? ? ? r w1 Hc Hrest]; subst.
  - simpl. unfold bind. rewrite Hc. by eexists.
  - simpl. unfold bind. rewrite Hc. by apply IH.
Qed.

Lemma runs_or_aborts cs : forall w, (exists rs w', runs slack cs w rs w') \/ aborts slack cs w.
Proof.
  induction cs as [|c cs IH]; intros w.
  - left. exists [], w. constructor.
  - destruct (ProcessCommand slack c w) as [r w1|e] eqn:E.
    + destruct (IH w1) as [(rs & w' & Hr)|Hab].
      * left. exists (r :: rs), w'. by econstructor.
      * right. by eapply aborts_later.
    + right. by eapply aborts_here.
Qed.

(** X2: as long as no command panics, [ProcessAll] dispatches every command
    in order, keeps the errors of the failed ones in command order, starting
    from an empty list, and reports a failure exactly when there is one. *)
Lemma ProcessAll_runs cp w rs w' :
  runs slack (Commands cp) w rs w' ->
  ProcessAll slack cp w
  = Ret ({| Commands := Commands cp; errors := failures rs |},
         if decide (failures rs = []) then None else Some AtLeastOneError) w'.
Proof.
  intros Hruns. unfold ProcessAll. unfold bind.
  rewrite (processLoop_runs _ _ _ _ [] Hruns). simpl.
  by destruct (failures rs) as [|e es].
Qed.

Lemma ProcessAll_aborts cp w :
  aborts slack (Commands cp) w -> exists e, ProcessAll slack cp w = Panic e.
Proof.
  intros Hab. unfold ProcessAll, bind.
  destruct (processLoop_aborts _ _ [] Hab) as [e ->]. by eexists.
Qed.
End Batch.

(** ** Fresh playlist ids *)

Lemma intLiteral_inRange s z : intLiteral s = Some z -> GoInt.inRange z.
Proof.
  unfold intLiteral. destruct s as [|c rest]; [done|].
  destruct (if Ascii.eqb c "+" then _ else _) as [v|]; [|done].
  destruct (decide (GoInt.inRange v)); [|done]. by intros [= <-].
Qed.

Lemma numericIds_bounds playlists ids :
  numericIds playlists ids ->
  0 <= foldr Z.max 0 ids <= GoInt.maxInt /\
  forall p, p ∈ playlists ->
    exists z, intLiteral (Playlist_Id p) = Some z /\ z <= foldr Z.max 0 ids.
Proof.
  induction 1 as [|p z playlists ids Hz _ [IH1 IH2]]; simpl.
  - split; [done|]. intros p Hp. by apply elem_of_nil in Hp.
  - apply intLiteral_inRange in Hz as Hr. unfold GoInt.inRange in Hr. split; [lia|].
    intros q [->|Hq]%elem_of_cons.
    + exists z. split; [done|lia].
    + destruct (IH2 q Hq) as (z' & Hz' & Hle). exists z'. split; [done|lia].
Qed.

Lemma load_belowCounter h users playlists songs w :
  NewDataStoreFromFile h users playlists songs = Ret None w ->
  0 < nextPlaylistId (store w) ->
  belowCounter w.
Proof.
  intros Hw Hpos.
  destruct (NewDataStoreFromFile_cases h users playlists songs)
    as [(w' & ids & Hw' & Hids & _ & _ & HP & _ & _ & _ & _ & Hn)
       |(w' & l1 & p & l2 & k & Hw' & _)]; [|congruence].
  assert (w' = w) as -> by congruence.
  destruct (numericIds_bounds _ _ Hids) as [Hb Hle].
  assert (foldr Z.max 0 ids < GoInt.maxInt) as Hlt.
  { destruct (decide (foldr Z.max 0 ids = GoInt.maxInt)) as [E|]; [|lia].
    rewrite Hn, E in Hpos. vm_compute in Hpos. discriminate. }
  assert (nextPlaylistId (store w) = foldr Z.max 0 ids + 1) as Hn'.
  { rewrite Hn. unfold GoInt.add. apply wrap_small.
    unfold GoInt.inRange, GoInt.minInt, GoInt.maxInt in *. lia. }
  split.
  - rewrite Hn'. unfold GoInt.inRange, GoInt.minInt, GoInt.maxInt in *. lia.
  - intros p Hp. rewrite HP in Hp. destruct (Hle p Hp) as (z & Hz & Hzle).
    exists z. split; [done|lia].
Qed.

Lemma RemovePlaylist_cases id w :
  RemovePlaylist id w = Ret (false, None) w \/
  (exists (t : nat) last,
     last ∈ Playlists (store w) /\
     RemovePlaylist id w = Ret (true, None) (removed id t last w)) \/
  (exists e, RemovePlaylist id w = Panic e).
Proof.
  destruct (playlistMap (store w) !! id) as [target|] eqn:Hm;
    [|left; by apply RemovePlaylist_absent].
  right.
  destruct (decide (0 <= target)) as [Hpos|Hneg].
  - assert (target = Z.of_nat (Z.to_nat target)) as E by lia.
    rewrite E in Hm.
    destruct (decide (Z.to_nat target < length (Playlists (store w)))%nat) as [Hlt|Hge].
    + left.
      destruct (lookup_lt_is_Some_2 (Playlists (store w))
                  (length (Playlists (store w)) - 1)) as [last Hlast]; [lia|].
      exists (Z.to_nat target), last. split; [by eapply list_elem_of_lookup_2|].
      by apply RemovePlaylist_present.
    + right. eapply RemovePlaylist_stale; [exact Hm|lia].
  - right. unfold RemovePlaylist, index, assign. run. rewrite Hm.
    destruct (elemAt (Playlists (store w)) _) as [last|]; run; [|by eexists].
    rewrite elemAt_neg by lia. by eexists.
Qed.

Section Operations.
Variable slack : nat -> nat.

Lemma AddSongToPlaylist_cases w playlistId songId :
  (exists err, AddSongToPlaylist slack playlistId songId w = Ret (Some err) w) \/
  (exists i p,
     elemAt (Playlists (store w)) i = Some p /\
     AddSongToPlaylist slack playlistId songId w
     = Ret None (extended slack i p songId w)) \/
  (exists e, AddSongToPlaylist slack playlistId songId w = Panic e).
Proof.
  destruct (songMap (store w) !! songId) as [s|] eqn:Hs.
  - destruct (playlistMap (store w) !! playlistId) as [i|] eqn:Hp.
    + destruct (elemAt (Playlists (store w)) i) as [p|] eqn:Hi.
      * right. left. exists i, p. split; [done|].
        by apply AddSongToPlaylist_valid.
      * right. right. unfold AddSongToPlaylist, index. run.
        rewrite Hs, Hp, Hi. by eexists.
    + left. eexists. unfold AddSongToPlaylist. run. by rewrite Hs, Hp.
  - left. eexists. unfold AddSongToPlaylist. run. by rewrite Hs.
Qed.

Lemma perform_belowCounter o w w1 :
  belowCounter w ->
  nextPlaylistId (store w) < GoInt.maxInt ->
  perform slack o w = Ret tt w1 ->
  belowCounter w1 /\ nextPlaylistId (store w1) <= nextPlaylistId (store w) + 1.
Proof.
  intros [Hr Hb] Hlt Hrun. destruct o as [userId songIds|playlistId songId|id];
    simpl in Hrun; unfold bind in Hrun.
  - destruct (AddNewPlaylist_cases w userId songIds) as [[err E]|E];
      rewrite E in Hrun; injection Hrun as <-.
    { split; [by split|lia]. }
    destruct (added_fields w userId songIds) as (c & HP & Hn).
    assert (nextPlaylistId (store (added userId songIds w))
            = nextPlaylistId (store w) + 1) as Hn'.
    { rewrite Hn. unfold GoInt.add. apply wrap_small.
      unfold GoInt.inRange, GoInt.minInt, GoInt.maxInt in *. lia. }
    split; [split|lia].
    + rewrite Hn'. unfold GoInt.inRange, GoInt.minInt, GoInt.maxInt in *. lia.
    + intros p. rewrite HP, Hn'. intros [Hp|Hp]%elem_of_app.
      * destruct (Hb p Hp) as (z & Hz & Hzlt). exists z. split; [done|lia].
      * apply list_elem_of_singleton in Hp as ->. simpl.
        exists (nextPlaylistId (store w)). split; [by apply intLiteral_Itoa|lia].
  - destruct (AddSongToPlaylist_cases w playlistId songId)
      as [[err E]|[(i & p & Hi & E)|[e E]]]; rewrite E in Hrun; [| |done];
      injection Hrun as <-.
    { split; [by split|lia]. }
    split; [split; [done|]|simpl; lia].
    intros q Hq. simpl in Hq. apply list_elem_of_lookup_1 in Hq as [j Hj].
    unfold elemAt in Hi. destruct (decide (0 <= i)); [|done].
    destruct (decide (j = Z.to_nat i)) as [->|Hne].
    + rewrite list_lookup_insert_eq in Hj by by eapply lookup_lt_Some.
      injection Hj as <-. simpl. apply Hb. by eapply list_elem_of_lookup_2.
    + rewrite list_lookup_insert_ne in Hj by done.
      apply Hb. by eapply list_elem_of_lookup_2.
  - destruct (RemovePlaylist_cases id w) as [E|[(t & last & Hlast & E)|[e E]]];
      rewrite E in Hrun; [| |done]; injection Hrun as <-.
    { split; [by split|lia]. }
    split; [split; [done|]|simpl; lia].
    intros q Hq. simpl in Hq. apply Hb. by eapply elem_of_swap_remove.
Qed.

Lemma performAll_belowCounter ops : forall w w1,
  belowCounter w ->
  nextPlaylistId (store w) + Z.of_nat (length ops) <= GoInt.maxInt ->
  performAll slack ops w = Ret tt w1 ->
  belowCounter w1 /\
  nextPlaylistId (store w1) <= nextPlaylistId (store w) + Z.of_nat (length ops).
Proof.
  induction ops as [|o ops IH]; intros w w1 Hb Hbound Hrun.
  - injection Hrun as <-. split; [done|simpl; lia].
  - simpl in Hrun, Hbound. unfold bind in Hrun.
    destruct (perform slack o w) as [[] w0|e] eqn:E; [|done].
    destruct (perform_belowCounter o w w0 Hb ltac:(lia) E) as [Hb0 Hn0].
    destruct (IH w0 w1 Hb0 ltac:(lia) Hrun) as [Hb1 Hn1].
    split; [done|]. simpl. lia.
Qed.
End Operations.

(** C10, as stated, fails: once the counter has wrapped around the top of
    the [int] range it can meet a loaded id again. *)
Lemma generated_id_collides_after_overflow :
  exists w0 w' p,
    NewDataStoreFromFile Fixture.memory Fixture.users Fixture.extremePlaylists
      Fixture.songs = Ret None w0 /\
    performAll Fixture.slack [] w0 = Ret tt w0 /\
    AddNewPlaylist "1" (slice_from (Fixture.whole 4 4) 2) w0
      = Ret (Playlist_Id p, None) w' /\
    p ∈ Playlists (store w0).
Proof.
  eexists _, _, (mkPlaylist "-9223372036854775808" "1" (Fixture.whole 1 2)).
  split; [vm_compute; reflexivity|]. split; [reflexivity|].
  split; [vm_compute; reflexivity|]. by left.
Qed.

(** C10, amended: after a successful load and any sequence of operations,
    the id a successful [AddNewPlaylist] returns differs from the id of every
    playlist then in the collection, provided the counter has stayed within
    the [int] range: it is positive after the load, and the operations
    performed cannot carry it past the largest [int]. *)
Theorem generated_id_is_fresh (slack : nat -> nat) h users playlists songs w0 ops w
    userId songIds id w' :
  NewDataStoreFromFile h users playlists songs = Ret None w0 ->
  0 < nextPlaylistId (store w0) ->
  nextPlaylistId (store w0) + Z.of_nat (length ops) <= GoInt.maxInt ->
  performAll slack ops w0 = Ret tt w ->
  AddNewPlaylist userId songIds w = Ret (id, None) w' ->
  forall p, p ∈ Playlists (store w) -> Playlist_Id p <> id.
Proof.
  intros Hload Hpos Hbound Hops Hadd p Hp Hid.
  pose proof (load_belowCounter _ _ _ _ _ Hload Hpos) as Hb0.
  destruct (performAll_belowCounter slack ops w0 w Hb0 Hbound Hops) as [[Hr Hb] _].
  destruct (AddNewPlaylist_cases w userId songIds) as [[err E]|E];
    rewrite E in Hadd; [discriminate|].
  injection Hadd as <- _.
  destruct (Hb p Hp) as (z & Hz & Hlt).
  rewrite Hid, (intLiteral_Itoa _ Hr) in Hz. injection Hz as <-. lia.
Qed.

Lemma generated_id_is_fresh_witness :
  Forall (fun p => Playlist_Id p <> "4"%string)
    (Playlists (store (removed "1" 0 (mkPlaylist "3" "1" (Fixture.whole 3 2))
                         Fixture.loaded))).
Proof.
  apply Forall_forall.
  apply (generated_id_is_fresh Fixture.slack Fixture.memory Fixture.users
           Fixture.playlists Fixture.songs Fixture.loaded
           [OpRemovePlaylist "1"] _ "1" (slice_from (Fixture.whole 4 4) 2) "4"
           (added "1" (slice_from (Fixture.whole 4 4) 2)
              (removed "1" 0 (mkPlaylist "3" "1" (Fixture.whole 3 2)) Fixture.loaded))).
  - reflexivity.
  - reflexivity.
  - vm_compute. discriminate.
  - reflexivity.
  - reflexivity.
Defined.
(** ** The claims on the concrete store *)

Ltac wf_concrete := split; vm_compute; lia.

Lemma nextPlaylistId_after_load_witness :
  exists ids,
    numericIds Fixture.playlists ids /\
    nextPlaylistId (store Fixture.loaded) = GoInt.add (foldr Z.max 0 ids) 1 /\
    (foldr Z.max 0 ids < GoInt.maxInt ->
     nextPlaylistId (store Fixture.loaded) = foldr Z.max 0 ids + 1) /\
    (Fixture.playlists = [] -> nextPlaylistId (store Fixture.loaded) = 1).
Proof.
  apply (nextPlaylistId_after_load Fixture.memory Fixture.users Fixture.playlists
           Fixture.songs Fixture.loaded).
  reflexivity.
Defined.

Lemma indexes_after_load_witness :
  resolvesToLast User_Id (Users (store Fixture.loaded)) (userMap (store Fixture.loaded)) /\
  resolvesExactly Playlist_Id (Playlists (store Fixture.loaded))
    (playlistMap (store Fixture.loaded)).
Proof.
  destruct (indexes_after_load Fixture.memory Fixture.users Fixture.playlists
              Fixture.songs Fixture.loaded eq_refl)
    as (_ & (Hu & _ & _) & _ & _ & Hp).
  split; [exact Hu|]. apply Hp. by apply (bool_decide_unpack _).
Defined.

Lemma AddNewPlaylist_validation_witness :
  AddNewPlaylist "bad-id" (slice_from (Fixture.whole 8 4) 2) Fixture.loaded
    = Ret (EmptyString, Some UnknownUser) Fixture.loaded /\
  AddNewPlaylist "1" (slice_from (Fixture.whole 4 4) 4) Fixture.loaded
    = Ret (EmptyString, Some EmptyPlaylist) Fixture.loaded /\
  AddNewPlaylist "1" (slice_from (Fixture.whole 9 4) 2) Fixture.loaded
    = Ret (EmptyString, Some UnknownSongs) Fixture.loaded.
Proof.
  split; [|split].
  - apply (AddNewPlaylist_validation Fixture.loaded "bad-id"). reflexivity.
  - apply (AddNewPlaylist_validation Fixture.loaded "1"); [by eexists|reflexivity].
  - apply (AddNewPlaylist_validation Fixture.loaded "1"); [by eexists|done|].
    exists "bad-id"%string. split; [by left|reflexivity].
Defined.

Lemma AddNewPlaylist_success_witness :
  exists w' songIdsCopy,
    AddNewPlaylist "1" (slice_from (Fixture.whole 4 4) 2) Fixture.loaded
      = Ret ("4"%string, None) w' /\
    nextPlaylistId (store w') = 5 /\
    Playlists (store w') = Fixture.playlists ++ [mkPlaylist "4" "1" songIdsCopy] /\
    cells (heap w') songIdsCopy = ["1"; "2"]%string /\
    playlistMap (store w') !! "4"%string = Some 3.
Proof.
  destruct (AddNewPlaylist_success Fixture.loaded "1" (slice_from (Fixture.whole 4 4) 2))
    as (w' & c & H1 & H2 & _ & H3 & H4 & H5 & _).
  - by eexists.
  - done.
  - wf_concrete.
  - intros s Hs. vm_compute in Hs. each_element Hs; by eexists.
  - exists w', c. split; [exact H1|]. split; [exact H2|]. split; [exact H3|].
    split; [exact H4|]. rewrite H5. apply lookup_insert_eq.
Defined.

Lemma AddSongToPlaylist_behaviour_witness :
  exists w3 p3,
    (AddSongToPlaylist Fixture.slack "1" "1" ;;;
     AddSongToPlaylist Fixture.slack "1" "1" ;;;
     AddSongToPlaylist Fixture.slack "1" "1") Fixture.loaded = Ret None w3 /\
    elemAt (Playlists (store w3)) 0 = Some p3 /\
    length (cells (heap w3) (Playlist_SongIds p3)) = 5%nat.
Proof.
  destruct (AddSongToPlaylist_behaviour Fixture.slack Fixture.loaded "1" "1")
    as (_ & _ & H & _).
  destruct (H 0 (mkPlaylist "1" "1" (Fixture.whole 1 2)))
    as (_ & w3 & p3 & H1 & H2 & _ & H3).
  - by eexists.
  - reflexivity.
  - reflexivity.
  - wf_concrete.
  - exists w3, p3. split; [exact H1|]. split; [exact H2|]. apply H3. reflexivity.
Defined.

Lemma ProcessCommand_protocol_witness :
  ProcessCommand Fixture.slack (Fixture.whole 7 1) Fixture.loaded
    = Ret (Some (Problem ["rm-playlist"%string] (ArityErrorCommand "rm-playlist")))
        Fixture.loaded /\
  ProcessCommand Fixture.slack (Fixture.whole 10 2) Fixture.loaded
    = Ret (Some (UnknownCommand "shuffle")) Fixture.loaded /\
  ProcessCommand Fixture.slack (Fixture.whole 8 4) Fixture.loaded
    = Ret (Some (Problem ["add-playlist"; "bad-id"; "1"; "2"]%string UnknownUser))
        Fixture.loaded.
Proof.
  split; [|split].
  - destruct (ProcessCommand_protocol Fixture.slack Fixture.loaded (Fixture.whole 7 1))
      as (_ & _ & _ & _ & H & _); [wf_concrete|].
    apply (H []); [reflexivity|simpl; lia].
  - destruct (ProcessCommand_protocol Fixture.slack Fixture.loaded (Fixture.whole 10 2))
      as (_ & H & _); [wf_concrete|].
    by apply (H "shuffle"%string ["1"%string]).
  - destruct (ProcessCommand_protocol Fixture.slack Fixture.loaded (Fixture.whole 8 4))
      as (_ & _ & _ & _ & _ & H & _); [wf_concrete|].
    destruct (H "bad-id"%string "1"%string ["2"%string] eq_refl) as [_ ->].
    reflexivity.
Defined.

(** ** The batch processor on the concrete store *)

(** A valid command, one with a field missing, and another valid one: both
    valid commands take effect and the one error is that of the second. *)
Example ProcessAll_valid_invalid_valid :
  exists cp w' p1 p4,
    ProcessAll Fixture.slack
      (NewCommandProcessor [Fixture.whole 5 3; Fixture.whole 7 1; Fixture.whole 4 4])
      Fixture.loaded = Ret (cp, Some AtLeastOneError) w' /\
    Errors cp = [Problem ["rm-playlist"%string] (ArityErrorCommand "rm-playlist")] /\
    Playlists (store w') !! 0%nat = Some p1 /\
    cells (heap w') (Playlist_SongIds p1) = ["1"; "2"; "1"]%string /\
    Playlists (store w') !! 3%nat = Some p4 /\
    Playlist_Id p4 = "4"%string /\
    cells (heap w') (Playlist_SongIds p4) = ["1"; "2"]%string.
Proof.
  eexists _, _, _, _. split; [vm_compute; reflexivity|].
  repeat split; vm_compute; reflexivity.
Qed.

(** C8: removing the playlist stored last and then removing it again stops
    the whole run with a panic in the second command: the third command is
    never dispatched and [ProcessAll] returns neither errors nor a failure
    indicator. *)
Theorem ProcessAll_aborts_on_repeated_removal (slack : nat -> nat) :
  ProcessAll slack
    (NewCommandProcessor [Fixture.whole 6 2; Fixture.whole 6 2; Fixture.whole 5 3])
    Fixture.loaded = Panic (IndexOutOfRange 2 2) /\
  aborts slack [Fixture.whole 6 2; Fixture.whole 6 2; Fixture.whole 5 3] Fixture.loaded /\
  (exists w', ProcessCommand slack (Fixture.whole 5 3) Fixture.loaded = Ret None w').
Proof.
  split; [reflexivity|]. split.
  - eapply aborts_later; [reflexivity|]. eapply aborts_here. reflexivity.
  - eexists. reflexivity.
Qed.
(** ** The repository's tests, run on the model *)

Example Atoi_decimal : Atoi "12" = (12, None).
Proof. reflexivity. Qed.

Example Atoi_signed : Atoi "-7" = (-7, None) /\ Atoi "+7" = (7, None).
Proof. split; reflexivity. Qed.

Example Atoi_leading_zeros : Atoi "007" = (7, None).
Proof. reflexivity. Qed.

Example Atoi_syntax : Atoi "4x" = (0, Some (NumError "Atoi" "4x" ErrSyntax)).
Proof. reflexivity. Qed.

Example Atoi_range :
  Atoi "9223372036854775808"
  = (9223372036854775807, Some (NumError "Atoi" "9223372036854775808" ErrRange)).
Proof. vm_compute. reflexivity. Qed.

Example Itoa_extremes :
  Itoa 4 = "4"%string /\
  Itoa (-9223372036854775808) = "-9223372036854775808"%string.
Proof. split; vm_compute; reflexivity. Qed.

(** [TestNewDataStoreFromFile]. *)
Example test_NewDataStoreFromFile :
  let ds := store Fixture.loaded in
  length (Users ds) = 2%nat /\ length (Playlists ds) = 3%nat /\
  Song_Artist <$> Songs ds !! 2%nat = Some "The Weeknd"%string /\
  userMap ds !! "1"%string = Some 0 /\
  songMap ds !! "2"%string = Some 1 /\
  playlistMap ds !! "3"%string = Some 2 /\
  nextPlaylistId ds = 4.
Proof. repeat split; reflexivity. Qed.

(** [TestRemovePlaylist]: the first playlist is removed, a second removal
    of it reports that nothing was done, and the last playlist has taken its
    place. *)
Example test_RemovePlaylist :
  exists w1,
    RemovePlaylist "1" Fixture.loaded = Ret (true, None) w1 /\
    length (Playlists (store w1)) = 2%nat /\
    RemovePlaylist "1" w1 = Ret (false, None) w1 /\
    Playlist_Id <$> Playlists (store w1) = ["3"; "2"]%string.
Proof.
  eexists. split; [vm_compute; reflexivity|]. repeat split; vm_compute; reflexivity.
Qed.

(** [TestAddNewPlaylist]. *)
Example test_AddNewPlaylist :
  exists w1,
    AddNewPlaylist "bad-id" (slice_from (Fixture.whole 8 4) 2) Fixture.loaded
      = Ret (EmptyString, Some UnknownUser) Fixture.loaded /\
    AddNewPlaylist "1" (slice_from (Fixture.whole 9 4) 2) Fixture.loaded
      = Ret (EmptyString, Some UnknownSongs) Fixture.loaded /\
    AddNewPlaylist "1" (slice_from (Fixture.whole 4 4) 4) Fixture.loaded
      = Ret (EmptyString, Some EmptyPlaylist) Fixture.loaded /\
    AddNewPlaylist "1" (slice_from (Fixture.whole 4 4) 2) Fixture.loaded
      = Ret ("4"%string, None) w1.
Proof. eexists. repeat split; vm_compute; reflexivity. Qed.

(** [TestAddSongToPlaylist]. *)
Example test_AddSongToPlaylist :
  exists w3 p,
    AddSongToPlaylist Fixture.slack "bad-id" "1" Fixture.loaded
      = Ret (Some UnknownPlaylist) Fixture.loaded /\
    AddSongToPlaylist Fixture.slack "1" "bad-id" Fixture.loaded
      = Ret (Some UnknownSong) Fixture.loaded /\
    (AddSongToPlaylist Fixture.slack "1" "1" ;;;
     AddSongToPlaylist Fixture.slack "1" "1" ;;;
     AddSongToPlaylist Fixture.slack "1" "1") Fixture.loaded = Ret None w3 /\
    Playlists (store w3) !! 0%nat = Some p /\
    len (Playlist_SongIds p) = 5%nat /\
    cells (heap w3) (Playlist_SongIds p) = ["1"; "2"; "1"; "1"; "1"]%string.
Proof.
  eexists _, _. split; [reflexivity|]. split; [reflexivity|].
  split; [vm_compute; reflexivity|]. repeat split; vm_compute; reflexivity.
Qed.

(** Both ids are unknown: the song is the one reported. *)
Example AddSongToPlaylist_both_unknown :
  AddSongToPlaylist Fixture.slack "bad-id" "bad-id" Fixture.loaded
  = Ret (Some UnknownSong) Fixture.loaded.
Proof. reflexivity. Qed.

(** ** What holds of RemovePlaylist and of ProcessAll besides *)

Lemma RemovePlaylist_inner_witness :
  exists w',
    RemovePlaylist "1" Fixture.loaded = Ret (true, None) w' /\
    S (length (Playlists (store w'))) = length (Playlists (store Fixture.loaded)) /\
    storeInvariant w' /\
    RemovePlaylist "1" w' = Ret (false, None) w'.
Proof.
  apply (RemovePlaylist_inner Fixture.loaded "1" 0).
  - exact Fixture_invariant.
  - reflexivity.
  - simpl. lia.
Defined.

Lemma ProcessAll_runs_witness :
  exists w' err,
    ProcessAll Fixture.slack
      (NewCommandProcessor [Fixture.whole 5 3; Fixture.whole 7 1]) Fixture.loaded
    = Ret ({| Commands := [Fixture.whole 5 3; Fixture.whole 7 1]; errors := [err] |},
           Some AtLeastOneError) w'.
Proof.
  eexists _, _.
  apply (ProcessAll_runs Fixture.slack
           (NewCommandProcessor [Fixture.whole 5 3; Fixture.whole 7 1])
           Fixture.loaded [None; Some _]).
  eapply runs_cons; [vm_compute; reflexivity|].
  eapply runs_cons; [vm_compute; reflexivity|].
  apply runs_nil.
Defined.

(** * Further properties of the store *)

(** ** Removal *)

Lemma swap_remove_Permutation {A} (l : list A) (t : nat) (last : A) :
  l !! (length l - 1)%nat = Some last -> (t < length l)%nat ->
  take (length l - 1) (<[t := last]> l) ≡ₚ delete t l.
Proof.
  intros Hlast Ht.
  destruct (decide (t = (length l - 1)%nat)) as [->|Hne].
  - rewrite list_insert_id by done. rewrite delete_take_drop.
    replace (S (length l - 1)) with (length l) by lia.
    by rewrite drop_all, app_nil_r.
  - rewrite take_insert_lt by lia.
    assert (l = take (length l - 1) l ++ [last]) as Hl.
    { rewrite <- (take_drop (length l - 1) l) at 1. f_equal.
      apply list_eq. intros [|j].
      - by rewrite lookup_drop, Nat.add_0_r.
      - rewrite lookup_drop. simpl. apply lookup_ge_None_2. lia. }
    assert (length (take (length l - 1) l) = (length l - 1)%nat) as Hinit.
    { rewrite length_take. lia. }
    remember (take (length l - 1) l) as init eqn:Einit.
    clear Einit. rewrite Hl.
    rewrite (delete_take_drop (init ++ [last])).
    rewrite take_app_le, drop_app_le by lia.
    rewrite app_assoc, <- delete_take_drop.
    rewrite <- Permutation_cons_append.
    etrans; [apply (delete_Permutation _ t last)|].
    { apply list_lookup_insert_eq. lia. }
    f_equiv. rewrite !delete_take_drop.
    by rewrite take_insert_ge, drop_insert_lt by lia.
Qed.

Lemma separated_Permutation w w' (t : nat) :
  heap w' = heap w ->
  Playlists (store w') ≡ₚ delete t (Playlists (store w)) ->
  separated w -> separated w'.
Proof.
  intros Hh Hp [Hnd Hwf]. split.
  - rewrite Hp, list_fmap_delete.
    eapply sublist_NoDup; [done|apply sublist_delete].
  - intros p Hin. rewrite Hh. apply Hwf.
    rewrite Hp in Hin. eapply elem_of_sublist; [done|apply sublist_delete].
Qed.

(** X4: [RemovePlaylist] never returns an error; it answers [false] exactly
    when the id is missing from the playlist index, and then it leaves the
    store as it found it; whatever it answers, users, songs, their indexes,
    the counter and the memory of the song ids stay as they were. *)
Theorem RemovePlaylist_answers w id removedFlag err w' :
  RemovePlaylist id w = Ret (removedFlag, err) w' ->
  err = None /\
  (removedFlag = false <-> playlistMap (store w) !! id = None) /\
  (removedFlag = false -> w' = w) /\
  heap w' = heap w /\
  Users (store w') = Users (store w) /\
  Songs (store w') = Songs (store w) /\
  userMap (store w') = userMap (store w) /\
  songMap (store w') = songMap (store w) /\
  nextPlaylistId (store w') = nextPlaylistId (store w).
Proof.
  destruct (playlistMap (store w) !! id) as [target|] eqn:Hm.
  - unfold RemovePlaylist, index, assign. run. rewrite Hm.
    destruct (elemAt (Playlists (store w)) _) as [last|]; run; [|done].
    destruct (elemAt (Playlists (store w)) target) as [x|]; run; [|done].
    intros [= <- <- <-]. simpl. repeat split; try done.
  - rewrite RemovePlaylist_absent by done. intros [= <- <- <-].
    by repeat split.
Qed.

(** ** Construction *)

Lemma indexLoop_sound {A} (key : A -> string) (l : list A) :
  indexSound key l (indexLoop key 0 l ∅).
Proof.
  intros k z Hz. apply indexLoop_lookup in Hz as [(j & -> & (x & Hx & Hk) & _)|[H _]];
    [|done].
  exists j, x. split; [lia|done].
Qed.

Lemma indexLoop_complete {A} (key : A -> string) (l : list A) :
  indexComplete key l (indexLoop key 0 l ∅).
Proof.
  intros x Hx. apply list_elem_of_lookup_1 in Hx as [i Hi].
  destruct (indexLoop_resolvesToLast key l i x Hi) as (j & Hj & _). by eexists.
Qed.

Lemma indexSound_prefix {A} (key : A -> string) (l1 l2 : list A) m :
  indexSound key l1 m -> indexSound key (l1 ++ l2) m.
Proof.
  intros H k z Hz. destruct (H k z Hz) as (j & x & -> & Hx & Hk).
  exists j, x. split; [done|]. split; [|done].
  rewrite lookup_app_l; [done|]. by eapply lookup_lt_Some.
Qed.

(** X5: [NewDataStoreFromFile] panics exactly when the file was read and
    [json.Unmarshal] reported no error but left no store, as it does for the
    document [null].  On a store it has built, the construction returns and
    never touches the loaded collections or the memory of the song ids;
    whether it succeeds or not, no index entry it leaves is stale and the
    user and song indexes are complete; the playlist index is complete when
    it succeeds, and when it fails the counter is still zero. *)
Theorem construction_outcome :
  (forall o inputFilename,
     (Executable.NewDataStoreFromFile o inputFilename).2 = Executable.LoadCrashed <->
     exists data,
       Executable.readFile o inputFilename = inl data /\
       Executable.unmarshal o data = (None, None)) /\
  (forall h users playlists songs,
   exists r w,
    NewDataStoreFromFile h users playlists songs = Ret r w /\
    heap w = h /\
    Users (store w) = users /\ Playlists (store w) = playlists /\
    Songs (store w) = songs /\
    indexSound User_Id users (userMap (store w)) /\
    indexComplete User_Id users (userMap (store w)) /\
    indexSound Song_Id songs (songMap (store w)) /\
    indexComplete Song_Id songs (songMap (store w)) /\
    indexSound Playlist_Id playlists (playlistMap (store w)) /\
    (r = None -> indexComplete Playlist_Id playlists (playlistMap (store w))) /\
    (r <> None -> nextPlaylistId (store w) = 0)).
Proof.
  split.
  - intros o f. unfold Executable.NewDataStoreFromFile. simpl.
    destruct (Executable.readFile o f) as [data|err]; [|split; [done|by intros (? & [=] & _)]].
    destruct (Executable.unmarshal o data) as [[d|] [err|]] eqn:Hjson.
    + split; [done|]. intros (data' & [= <-] & E). congruence.
    + split; [|intros (data' & [= <-] & E); congruence].
      destruct (NewDataStoreFromFile_cases (Executable.d_heap d)
                  (Executable.d_users d) (Executable.d_playlists d)
                  (Executable.d_songs d))
        as [(w & ids & -> & _)|(w & l1 & p & l2 & k & -> & _)]; done.
    + split; [done|]. intros (data' & [= <-] & E). congruence.
    + split; [|done]. intros _. by exists data.
  - intros h users playlists songs.
    rewrite NewDataStoreFromFile_eq. simpl.
    pose proof (playlistLoop_spec playlists 0 ∅ 0) as H.
    destruct (playlistLoop 0 playlists ∅ 0) as [m [mx|err]].
    + destruct H as (-> & _). eexists _, _. split; [done|]. simpl.
      do 4 (split; [done|]).
      split; [apply indexLoop_sound|]. split; [apply indexLoop_complete|].
      split; [apply indexLoop_sound|]. split; [apply indexLoop_complete|].
      split; [apply indexLoop_sound|]. split; [intros _; apply indexLoop_complete|done].
    + destruct H as (l1 & p & l2 & k & -> & _ & _ & _ & ->).
      eexists _, _. split; [done|]. simpl.
      do 4 (split; [done|]).
      split; [apply indexLoop_sound|]. split; [apply indexLoop_complete|].
      split; [apply indexLoop_sound|]. split; [apply indexLoop_complete|].
      split; [|done].
      replace (l1 ++ p :: l2) with ((l1 ++ [p]) ++ l2) by by rewrite <- app_assoc.
      apply indexSound_prefix, indexLoop_sound.
Qed.

Lemma healthy_belowCounter w : healthy w -> belowCounter w.
Proof.
  intros [Hinv _ Hids Hr]. split.
  { unfold GoInt.inRange, GoInt.minInt, GoInt.maxInt in *. lia. }
  intros p Hp.
  destruct (Hids p Hp) as [z Hz]. exists z. split; [done|].
  by apply (inv_next w Hinv p).
Qed.

Lemma indexConsistent_lookup {A} (key : A -> string) (l : list A) m x :
  indexConsistent key l m -> x ∈ l -> is_Some (m !! key x).
Proof.
  intros Hc Hx. apply list_elem_of_lookup_1 in Hx as [i Hi].
  exists (Z.of_nat i). apply Hc. by exists i, x.
Qed.

(** X6: a snapshot whose ids are pairwise distinct within each collection,
    whose playlists name existing users and songs, hold at least one song
    and keep their song ids in arrays of their own, and whose largest
    playlist id is below the largest [int] (the counter comes out positive)
    loads into a store where every invariant of the data model holds. *)
Theorem construction_establishes_invariants h users playlists songs w :
  NewDataStoreFromFile h users playlists songs = Ret None w ->
  NoDup (User_Id <$> users) ->
  NoDup (Song_Id <$> songs) ->
  NoDup (Playlist_Id <$> playlists) ->
  (forall p, p ∈ playlists ->
     Playlist_UserId p ∈ (User_Id <$> users) /\
     cells h (Playlist_SongIds p) <> [] /\
     (forall s, s ∈ cells h (Playlist_SongIds p) -> s ∈ (Song_Id <$> songs)) /\
     slice_wf h (Playlist_SongIds p)) ->
  NoDup ((fun p => arr (Playlist_SongIds p)) <$> playlists) ->
  0 < nextPlaylistId (store w) ->
  healthy w.
Proof.
  intros Hw Hu Hs Hp Hrefs Hsep Hpos.
  pose proof (load_belowCounter _ _ _ _ _ Hw Hpos) as [Hr Hb].
  destruct (NewDataStoreFromFile_cases h users playlists songs)
    as [(w' & ids & Hw' & Hids & Hh & HU & HP & HS & Hum & Hsm & Hpm & Hn)
       |(w' & l1 & p & l2 & k & Hw' & _)]; [|congruence].
  assert (w' = w) as -> by congruence.
  assert (indexConsistent User_Id (Users (store w)) (userMap (store w))) as Hcu.
  { rewrite HU, Hum. by apply indexLoop_consistent. }
  assert (indexConsistent Song_Id (Songs (store w)) (songMap (store w))) as Hcs.
  { rewrite HS, Hsm. by apply indexLoop_consistent. }
  split; [split| | |unfold GoInt.inRange in Hr; lia].
  - done.
  - done.
  - rewrite HP, Hpm. by apply indexLoop_consistent.
  - intros p. rewrite HP, Hh. intros Hin.
    destruct (Hrefs p Hin) as (Huser & _ & Hsongs & _). split.
    + apply list_elem_of_fmap in Huser as (u & -> & Hu').
      apply (indexConsistent_lookup _ _ _ _ Hcu). by rewrite HU.
    + intros s Hs'. apply Hsongs, list_elem_of_fmap in Hs' as (song & -> & Hsong).
      apply (indexConsistent_lookup _ _ _ _ Hcs). by rewrite HS.
  - intros p. rewrite HP, Hh. intros Hin. by destruct (Hrefs p Hin) as (_ & ? & _).
  - intros p z Hin Hz. destruct (Hb p Hin) as (z' & Hz' & Hlt). congruence.
  - split; [by rewrite HP|]. intros p. rewrite HP, Hh. intros Hin.
    by destruct (Hrefs p Hin) as (_ & _ & _ & ?).
  - intros p Hin. destruct (Hb p Hin) as (z & Hz & _). by exists z.
Qed.

(** ** Adding a playlist *)

Lemma AddNewPlaylist_accepted w userId songIds id w' :
  AddNewPlaylist userId songIds w = Ret (id, None) w' ->
  is_Some (userMap (store w) !! userId) /\
  len songIds <> 0%nat /\
  (forall s, s ∈ cells (heap w) songIds -> is_Some (songMap (store w) !! s)) /\
  id = Itoa (nextPlaylistId (store w)) /\
  w' = added userId songIds w.
Proof.
  intros Hrun.
  destruct (userMap (store w) !! userId) as [u|] eqn:Hu.
  - destruct (decide (len songIds = 0%nat)) as [Hl|Hl].
    + unfold AddNewPlaylist in Hrun. revert Hrun. run.
      by rewrite Hu, decide_True.
    + destruct (anyUnknownSong (songMap (store w)) (cells (heap w) songIds)) eqn:Hs.
      * unfold AddNewPlaylist in Hrun. revert Hrun. run.
        by rewrite Hu, decide_False, Hs.
      * pose proof (proj1 (anyUnknownSong_false _ _) Hs) as Hs'.
        rewrite AddNewPlaylist_valid in Hrun by done.
        injection Hrun as <- <-. by repeat split.
  - unfold AddNewPlaylist in Hrun. revert Hrun. run. by rewrite Hu.
Qed.

Lemma indexConsistent_snoc {A} (key : A -> string) (l : list A) m x :
  indexConsistent key l m -> m !! key x = None ->
  indexConsistent key (l ++ [x]) (<[key x := Z.of_nat (length l)]> m).
Proof.
  intros Hc Hfresh k z. split.
  - intros Hz. destruct (decide (k = key x)) as [->|Hk].
    + rewrite lookup_insert_eq in Hz. injection Hz as <-.
      exists (length l), x. split; [done|]. split; [|done].
      by rewrite lookup_app_r, Nat.sub_diag.
    + rewrite lookup_insert_ne in Hz by done.
      apply Hc in Hz as (j & y & -> & Hy & Hky).
      exists j, y. split; [done|]. split; [|done].
      rewrite lookup_app_l; [done|]. by eapply lookup_lt_Some.
  - intros (j & y & -> & Hy & Hky).
    destruct (decide (j < length l)%nat) as [Hj|Hj].
    + rewrite lookup_app_l in Hy by done.
      assert (m !! k = Some (Z.of_nat j)) as Hm by (apply Hc; by exists j, y).
      rewrite lookup_insert_ne; [done|]. congruence.
    + rewrite lookup_app_r in Hy by lia.
      destruct (j - length l)%nat eqn:E; [|by destruct n].
      injection Hy as <-. subst k.
      rewrite lookup_insert_eq. f_equal. lia.
Qed.

Lemma cells_nonempty_allocated h s : cells h s <> [] -> arr s ∈ dom h.
Proof.
  intros Hne. apply elem_of_dom. unfold cells, array in Hne.
  destruct (h !! arr s); [done|]. simpl in Hne. by rewrite drop_nil, take_nil in Hne.
Qed.

Lemma slice_wf_agree h h' s :
  h' !! arr s = h !! arr s -> slice_wf h s -> slice_wf h' s.
Proof. intros H. unfold slice_wf, array. by rewrite H. Qed.

(** X7: a successful [AddNewPlaylist] on a healthy store whose counter is
    below the largest [int] leaves a healthy store; the id it returns was
    not in the playlist index, and the song lists of the playlists already
    there are what they were. *)
Theorem AddNewPlaylist_keeps_healthy w userId songIds id w' :
  healthy w ->
  slice_wf (heap w) songIds ->
  nextPlaylistId (store w) < GoInt.maxInt ->
  AddNewPlaylist userId songIds w = Ret (id, None) w' ->
  healthy w' /\
  playlistMap (store w) !! id = None /\
  (forall p, p ∈ Playlists (store w) ->
     cells (heap w') (Playlist_SongIds p) = cells (heap w) (Playlist_SongIds p)).
Proof.
  intros [Hinv [Hnd Hwfs] Hids Hc] Hwf Hlt Hrun.
  assert (GoInt.inRange (nextPlaylistId (store w))) as Hr.
  { unfold GoInt.inRange, GoInt.minInt, GoInt.maxInt in *. lia. }
  destruct (AddNewPlaylist_accepted _ _ _ _ _ Hrun) as (Hu & Hl & Hs & -> & ->).
  clear Hrun.
  assert (playlistMap (store w) !! Itoa (nextPlaylistId (store w)) = None) as Hfresh.
  { destruct (playlistMap (store w) !! _) as [z|] eqn:E; [|done].
    apply (inv_playlists w Hinv) in E as (j & p & _ & Hp & Hid).
    apply list_elem_of_lookup_2 in Hp.
    pose proof (inv_next w Hinv p (nextPlaylistId (store w)) Hp) as Hn.
    rewrite Hid, intLiteral_Itoa in Hn by done. specialize (Hn eq_refl). lia. }
  pose proof (make_copy (heap w) songIds Hwf Hl) as Hmc.
  unfold added.
  destruct (make (heap w) (len songIds)) as [c h1].
  destruct Hmc as (Harr & Hcells & Hwfc & Hframe).
  assert (forall p, p ∈ Playlists (store w) ->
            copy h1 c songIds !! arr (Playlist_SongIds p)
            = heap w !! arr (Playlist_SongIds p)) as Hold.
  { intros p Hp. apply Hframe. rewrite Harr. apply fresh_not_allocated.
    apply cells_nonempty_allocated. by apply (inv_nonempty w Hinv). }
  assert (nextPlaylistId (store w) + 1 = GoInt.add (nextPlaylistId (store w)) 1) as Hadd.
  { symmetry. unfold GoInt.add. apply wrap_small.
    unfold GoInt.inRange, GoInt.minInt, GoInt.maxInt in *. lia. }
  split; [|split; [done|]].
  - split; [split| | |]; simpl.
    + apply (inv_users w Hinv).
    + apply (inv_songs w Hinv).
    + apply (indexConsistent_snoc Playlist_Id _ _ (mkPlaylist _ userId c));
        [apply (inv_playlists w Hinv)|done].
    + intros p [Hp|Hp]%elem_of_app.
      * rewrite (cells_agree _ _ _ (Hold p Hp)). by apply (inv_references w Hinv).
      * apply list_elem_of_singleton in Hp as ->. simpl. split; [done|].
        by rewrite Hcells.
    + intros p [Hp|Hp]%elem_of_app.
      * rewrite (cells_agree _ _ _ (Hold p Hp)). by apply (inv_nonempty w Hinv).
      * apply list_elem_of_singleton in Hp as ->. simpl. rewrite Hcells.
        intros E. apply (f_equal length) in E. rewrite cells_length in E by done.
        simpl in E. lia.
    + intros p z [Hp|Hp]%elem_of_app Hz.
      * pose proof (inv_next w Hinv p z Hp Hz). lia.
      * apply list_elem_of_singleton in Hp as ->. simpl in Hz.
        rewrite intLiteral_Itoa in Hz by done. injection Hz as <-. lia.
    + unfold separated. simpl. split.
      * rewrite fmap_app. simpl. apply NoDup_app. split; [done|]. split.
        -- intros a Ha [->|[]%elem_of_nil]%elem_of_cons.
           apply list_elem_of_fmap in Ha as (p & Hap & Hp).
           assert (arr (Playlist_SongIds p) ∈ dom (heap w)) as Hdom.
           { apply cells_nonempty_allocated. by apply (inv_nonempty w Hinv). }
           rewrite <- Hap, Harr in Hdom. by apply (is_fresh (dom (heap w))).
        -- apply NoDup_singleton.
      * intros p [Hp|Hp]%elem_of_app.
        -- apply (slice_wf_agree (heap w)); [by apply Hold|by apply Hwfs].
        -- by apply list_elem_of_singleton in Hp as ->.
    + intros p [Hp|Hp]%elem_of_app; [by apply Hids|].
      apply list_elem_of_singleton in Hp as ->. simpl.
      by rewrite intLiteral_Itoa.
    + rewrite <- Hadd. unfold GoInt.maxInt in *. lia.
  - intros p Hp. simpl. apply cells_agree. by apply Hold.
Qed.

(** ** Adding a song *)

Lemma NoDup_list_insert {A} (l : list A) (i : nat) (x y : A) :
  NoDup l -> l !! i = Some y -> x = y \/ x ∉ l -> NoDup (<[i := x]> l).
Proof.
  intros Hnd Hi [->|Hx]; [by rewrite list_insert_id|].
  rewrite insert_take_drop by by eapply lookup_lt_Some.
  rewrite <- (take_drop_middle l i y Hi) in Hnd, Hx.
  apply NoDup_app in Hnd as (H1 & H2 & H3).
  apply NoDup_cons in H3 as [_ H3].
  apply NoDup_app. split; [done|]. split.
  - intros a Ha [->|Hin]%elem_of_cons.
    + apply Hx, elem_of_app. by left.
    + apply (H2 a Ha). by right.
  - apply NoDup_cons. split; [|done].
    intros Hin. apply Hx, elem_of_app. right. by right.
Qed.

Section AppendFrame.
Variable slack : nat -> nat.

Lemma append_frame h s x a :
  a <> arr s -> a ∈ dom h -> (append slack h s x).2 !! a = h !! a.
Proof.
  intros Hne Hdom. unfold append. destruct (decide (len s < cap s)%nat); simpl.
  - unfold store_cell. by rewrite lookup_alter_ne.
  - rewrite lookup_insert_ne; [done|]. intros <-. by apply (is_fresh (dom h)).
Qed.

Lemma append_arr h s x :
  arr (append slack h s x).1 = arr s \/ arr (append slack h s x).1 ∉ dom h.
Proof.
  unfold append. destruct (decide (len s < cap s)%nat); simpl; [by left|].
  right. apply is_fresh.
Qed.

(** X8: on a healthy store [AddSongToPlaylist] never panics.  It either
    reports an error and changes nothing, or appends the song id to the
    playlist that carries the given id and to no other: every other
    playlist keeps its song list, and the store is healthy again. *)
Theorem AddSongToPlaylist_keeps_healthy w playlistId songId :
  healthy w ->
  (exists err, AddSongToPlaylist slack playlistId songId w = Ret (Some err) w) \/
  (exists w' (i : nat) p p',
     AddSongToPlaylist slack playlistId songId w = Ret None w' /\
     Playlists (store w) !! i = Some p /\
     Playlist_Id p = playlistId /\
     Playlists (store w') = <[i := p']> (Playlists (store w)) /\
     Playlist_Id p' = playlistId /\
     Playlist_UserId p' = Playlist_UserId p /\
     cells (heap w') (Playlist_SongIds p')
       = cells (heap w) (Playlist_SongIds p) ++ [songId] /\
     (forall (j : nat) q, j <> i -> Playlists (store w) !! j = Some q ->
        cells (heap w') (Playlist_SongIds q) = cells (heap w) (Playlist_SongIds q)) /\
     healthy w').
Proof.
  intros [Hinv [Hnd Hwfs] Hids Hr].
  destruct (songMap (store w) !! songId) as [sz|] eqn:Hs;
    [|left; eexists; unfold AddSongToPlaylist; run; by rewrite Hs].
  destruct (playlistMap (store w) !! playlistId) as [z|] eqn:Hp;
    [|left; eexists; unfold AddSongToPlaylist; run; by rewrite Hs, Hp].
  right.
  destruct (proj1 (inv_playlists w Hinv _ _) Hp) as (i & p & -> & Hi & Hid).
  assert (p ∈ Playlists (store w)) as Hin by by eapply list_elem_of_lookup_2.
  pose proof (Hwfs p Hin) as Hwf.
  destruct (append_cells slack (heap w) (Playlist_SongIds p) songId Hwf) as [Hc Hwf'].
  set (r := append slack (heap w) (Playlist_SongIds p) songId) in *.
  set (p' := mkPlaylist (Playlist_Id p) (Playlist_UserId p) r.1).
  assert (forall q, q ∈ Playlists (store w) ->
            arr (Playlist_SongIds q) ∈ dom (heap w)) as Hdom.
  { intros q Hq. apply cells_nonempty_allocated. by apply (inv_nonempty w Hinv). }
  assert (forall (j : nat) q, j <> i -> Playlists (store w) !! j = Some q ->
            r.2 !! arr (Playlist_SongIds q) = heap w !! arr (Playlist_SongIds q))
    as Hother.
  { intros j q Hj Hq. apply append_frame.
    - intros E. apply Hj.
      apply (NoDup_lookup _ j i (arr (Playlist_SongIds q)) Hnd);
        rewrite list_lookup_fmap; [by rewrite Hq|by rewrite Hi, E].
    - apply Hdom. by eapply list_elem_of_lookup_2. }
  assert (forall q, q ∈ <[i := p']> (Playlists (store w)) ->
            (q = p' \/ exists j, j <> i /\ Playlists (store w) !! j = Some q)) as Hcases.
  { intros q Hq. apply list_elem_of_lookup_1 in Hq as [j Hj].
    destruct (decide (j = i)) as [->|Hne].
    - rewrite list_lookup_insert_eq in Hj by by eapply lookup_lt_Some.
      left. congruence.
    - rewrite list_lookup_insert_ne in Hj by done. right. by exists j. }
  exists (extended slack (Z.of_nat i) p songId w), i, p, p'.
  split.
  { apply AddSongToPlaylist_valid; [by eexists|done|by rewrite elemAt_of_nat]. }
  split; [done|]. split; [done|]. simpl. rewrite Nat2Z.id.
  split; [done|]. split; [done|]. split; [done|]. split; [done|]. split.
  { intros j q Hj Hq. apply cells_agree. by eapply Hother. }
  split; [split| | |done]; simpl; rewrite ?Nat2Z.id; fold r; fold p'.
  - apply (inv_users w Hinv).
  - apply (inv_songs w Hinv).
  - intros k z. rewrite (inv_playlists w Hinv k z). split.
    + intros (j & x & -> & Hx & Hk). destruct (decide (j = i)) as [->|Hne].
      * exists i, p'. split; [done|]. split; [|simpl; congruence].
        apply list_lookup_insert_eq. by eapply lookup_lt_Some.
      * exists j, x. by rewrite list_lookup_insert_ne.
    + intros (j & x & -> & Hx & Hk). destruct (decide (j = i)) as [->|Hne].
      * rewrite list_lookup_insert_eq in Hx by by eapply lookup_lt_Some.
        injection Hx as <-. by exists i, p.
      * rewrite list_lookup_insert_ne in Hx by done. by exists j, x.
  - intros q Hq. destruct (Hcases q Hq) as [->|(j & Hj & Hjq)].
    + simpl. split; [by apply (inv_references w Hinv p)|].
      rewrite Hc. intros s [Hs'|Hs']%elem_of_app.
      * by apply (inv_references w Hinv p).
      * apply list_elem_of_singleton in Hs' as ->. by eexists.
    + rewrite (cells_agree _ _ _ (Hother j q Hj Hjq)).
      apply (inv_references w Hinv). by eapply list_elem_of_lookup_2.
  - intros q Hq. destruct (Hcases q Hq) as [->|(j & Hj & Hjq)].
    + simpl. rewrite Hc. intros E. apply (f_equal length) in E.
      rewrite length_app in E. simpl in E. lia.
    + rewrite (cells_agree _ _ _ (Hother j q Hj Hjq)).
      apply (inv_nonempty w Hinv). by eapply list_elem_of_lookup_2.
  - intros q z Hq. destruct (Hcases q Hq) as [->|(j & Hj & Hjq)].
    + simpl. by apply (inv_next w Hinv p).
    + apply (inv_next w Hinv). by eapply list_elem_of_lookup_2.
  - unfold separated. simpl. rewrite Nat2Z.id. fold r. fold p'. split.
    + rewrite list_fmap_insert. simpl.
      apply (NoDup_list_insert _ i _ (arr (Playlist_SongIds p))); [done| |].
      * by rewrite list_lookup_fmap, Hi.
      * destruct (append_arr (heap w) (Playlist_SongIds p) songId) as [E|E];
          [by left|right].
        intros Hx. apply list_elem_of_fmap in Hx as (q & Eq & Hq).
        apply E. fold r. rewrite Eq. by apply Hdom.
    + intros q Hq. destruct (Hcases q Hq) as [->|(j & Hj & Hjq)]; [done|].
      apply (slice_wf_agree (heap w)); [by eapply Hother|].
      apply Hwfs. by eapply list_elem_of_lookup_2.
  - intros q Hq. destruct (Hcases q Hq) as [->|(j & Hj & Hjq)].
    + simpl. by apply Hids.
    + apply Hids. by eapply list_elem_of_lookup_2.
Qed.
End AppendFrame.

(** ** Removal of the target and sequences of operations *)

Lemma removed_healthy w id (t : nat) last :
  healthy w ->
  playlistMap (store w) !! id = Some (Z.of_nat t) ->
  Playlists (store w) !! (length (Playlists (store w)) - 1)%nat = Some last ->
  t <> (length (Playlists (store w)) - 1)%nat ->
  healthy (removed id t last w).
Proof.
  intros [Hinv Hsep Hids Hr] Hid Hlast Hne.
  pose proof (target_in_range w id t (inv_playlists w Hinv) Hid) as Ht.
  assert (forall p, p ∈ Playlists (store (removed id t last w)) ->
                    p ∈ Playlists (store w)) as Hsub.
  { intros p. simpl. apply elem_of_swap_remove. by eapply list_elem_of_lookup_2. }
  split; [| |by auto|done].
  - destruct Hinv as [Hu Hs Hp Hrf Hn Hx]. split; simpl; try done.
    + by apply swap_remove_consistent.
    + intros p Hp'. apply Hrf. by apply Hsub.
    + intros p Hp'. apply Hn. by apply Hsub.
    + intros p z Hp'. apply Hx. by apply Hsub.
  - apply (separated_Permutation w _ t); [done| |done].
    simpl. by apply swap_remove_Permutation.
Qed.

(** X3: when the index sends the id to a position of the collection,
    [RemovePlaylist] removes the playlist at that position and no other:
    what remains is, order apart, the collection without it; nothing else
    of the store changes, nor does the memory of the song ids.  A healthy
    store stays healthy unless the playlist removed is the one stored
    last. *)
Theorem RemovePlaylist_removes_target w id (t : nat) target :
  playlistMap (store w) !! id = Some (Z.of_nat t) ->
  Playlists (store w) !! t = Some target ->
  exists w',
    RemovePlaylist id w = Ret (true, None) w' /\
    Playlists (store w') ≡ₚ delete t (Playlists (store w)) /\
    target :: Playlists (store w') ≡ₚ Playlists (store w) /\
    heap w' = heap w /\
    Users (store w') = Users (store w) /\
    Songs (store w') = Songs (store w) /\
    userMap (store w') = userMap (store w) /\
    songMap (store w') = songMap (store w) /\
    nextPlaylistId (store w') = nextPlaylistId (store w) /\
    (separated w -> separated w') /\
    (healthy w -> t <> (length (Playlists (store w)) - 1)%nat -> healthy w').
Proof.
  intros Hid Ht. apply lookup_lt_Some in Ht as Hlt.
  destruct (lookup_lt_is_Some_2 (Playlists (store w))
              (length (Playlists (store w)) - 1)) as [last Hlast]; [lia|].
  exists (removed id t last w).
  assert (Playlists (store (removed id t last w)) ≡ₚ delete t (Playlists (store w)))
    as Hperm by (simpl; by apply swap_remove_Permutation).
  split; [by apply RemovePlaylist_present|]. split; [done|]. split.
  { rewrite Hperm. symmetry. by apply delete_Permutation. }
  do 6 (split; [done|]). split.
  - intros Hs. by apply (separated_Permutation w _ t).
  - intros Hh Hne. by apply removed_healthy.
Qed.


Section Runs.
Variable slack : nat -> nat.

(** X9: no operation of the store, and so no sequence of them, changes the
    users, the songs or their indexes. *)
Theorem operations_keep_users_and_songs ops : forall w w',
  performAll slack ops w = Ret tt w' ->
  Users (store w') = Users (store w) /\
  Songs (store w') = Songs (store w) /\
  userMap (store w') = userMap (store w) /\
  songMap (store w') = songMap (store w).
Proof.
  induction ops as [|o ops IH]; intros w w' Hrun.
  - by injection Hrun as <-.
  - simpl in Hrun. unfold bind in Hrun.
    destruct (perform slack o w) as [[] w1|e] eqn:E; [|done].
    destruct (IH w1 w' Hrun) as (-> & -> & -> & ->). clear IH Hrun.
    destruct o as [userId songIds|playlistId songId|id]; simpl in E;
      unfold bind in E.
    + destruct (AddNewPlaylist_cases w userId songIds) as [[err E']|E'];
        rewrite E' in E; injection E as <-; [done|].
      unfold added. by destruct (make _ _).
    + destruct (AddSongToPlaylist_cases slack w playlistId songId)
        as [[err E']|[(i & p & Hi & E')|[e E']]]; rewrite E' in E; [| |done];
        by injection E as <-.
    + destruct (RemovePlaylist_cases id w) as [E'|[(t & last & Hlast & E')|[e E']]];
        rewrite E' in E; [| |done]; by injection E as <-.
Qed.
End Runs.

(** ** Generated ids *)

Section Generated.
Variable slack : nat -> nat.

Lemma perform_counter o w w1 :
  (forall userId songIds, o <> OpAddNewPlaylist userId songIds) ->
  perform slack o w = Ret tt w1 ->
  nextPlaylistId (store w1) = nextPlaylistId (store w).
Proof.
  intros Hno E. destruct o as [userId songIds|playlistId songId|id];
    [by destruct (Hno userId songIds)| |]; simpl in E; unfold bind in E.
  - destruct (AddSongToPlaylist_cases slack w playlistId songId)
      as [[err E']|[(i & p & Hi & E')|[e E']]]; rewrite E' in E; [| |done];
      by injection E as <-.
  - destruct (RemovePlaylist_cases id w) as [E'|[(t & last & Hlast & E')|[e E']]];
      rewrite E' in E; [| |done]; by injection E as <-.
Qed.

(** X10: as long as the counter cannot pass the largest [int], the ids that
    [AddNewPlaylist] hands out in the course of any sequence of operations
    are the decimal forms of consecutive numbers starting at the counter;
    so no two of them are equal, whatever was removed in between. *)
Theorem generated_ids_are_consecutive ops : forall w ids w',
  GoInt.inRange (nextPlaylistId (store w)) ->
  nextPlaylistId (store w) + Z.of_nat (length ops) <= GoInt.maxInt ->
  generatedIds slack ops w = Ret ids w' ->
  ids = Itoa <$> seqZ (nextPlaylistId (store w)) (Z.of_nat (length ids)) /\
  nextPlaylistId (store w') = nextPlaylistId (store w) + Z.of_nat (length ids) /\
  (length ids <= length ops)%nat /\
  NoDup ids.
Proof.
  assert (forall n m, NoDup (Itoa <$> seqZ n m)) as Hnd.
  { intros n m. apply NoDup_fmap_2; [|apply NoDup_seqZ].
    intros x y. apply pretty_Z_inj. }
  induction ops as [|o ops IH]; intros w ids w' Hr Hbound Hrun.
  - injection Hrun as <- <-. simpl. split; [done|]. split; [lia|]. split; [done|].
    apply NoDup_nil_2.
  - simpl in Hbound.
    destruct o as [userId songIds|playlistId songId|id].
    + simpl in Hrun. unfold bind in Hrun.
      destruct (AddNewPlaylist_cases w userId songIds) as [[err E]|E];
        rewrite E in Hrun.
      * destruct (generatedIds slack ops w) as [ids0 w0|e] eqn:E0; [|done].
        injection Hrun as <- <-.
        destruct (IH w ids0 w0 Hr ltac:(lia) E0) as (H1 & H2 & H3 & H4).
        split; [done|]. split; [done|]. split; [simpl; lia|done].
      * destruct (added_fields w userId songIds) as (c & _ & Hn).
        assert (nextPlaylistId (store (added userId songIds w))
                = nextPlaylistId (store w) + 1) as Hn'.
        { rewrite Hn. unfold GoInt.add. apply wrap_small.
          unfold GoInt.inRange, GoInt.minInt, GoInt.maxInt in *. lia. }
        destruct (generatedIds slack ops (added userId songIds w))
          as [ids0 w0|e] eqn:E0; [|done].
        injection Hrun as <- <-.
        destruct (IH _ ids0 w0 ltac:(rewrite Hn';
                    unfold GoInt.inRange, GoInt.minInt, GoInt.maxInt in *; lia)
                    ltac:(rewrite Hn'; lia) E0) as (H1 & H2 & H3 & H4).
        rewrite Hn' in H1, H2.
        assert (Itoa (nextPlaylistId (store w)) :: ids0
                = Itoa <$> seqZ (nextPlaylistId (store w))
                             (Z.of_nat (length (Itoa (nextPlaylistId (store w)) :: ids0))))
          as Hids.
        { simpl length. rewrite seqZ_cons by lia. simpl. f_equal.
          rewrite H1 at 1. do 2 f_equal. lia. }
        split; [done|]. split; [simpl length; lia|]. split; [simpl; lia|].
        rewrite Hids. apply Hnd.
    + cbn [generatedIds] in Hrun. unfold bind at 1 in Hrun.
      destruct (perform slack (OpAddSongToPlaylist playlistId songId) w)
        as [[] w1|e] eqn:E; [|done].
      rewrite <- (perform_counter (OpAddSongToPlaylist playlistId songId) w w1
                    ltac:(intros ? ?; discriminate) E) in *.
      destruct (IH w1 ids w' Hr ltac:(lia) Hrun) as (H1 & H2 & H3 & H4).
      split; [done|]. split; [done|]. split; [simpl; lia|done].
    + cbn [generatedIds] in Hrun. unfold bind at 1 in Hrun.
      destruct (perform slack (OpRemovePlaylist id) w) as [[] w1|e] eqn:E; [|done].
      rewrite <- (perform_counter (OpRemovePlaylist id) w w1
                    ltac:(intros ? ?; discriminate) E) in *.
      destruct (IH w1 ids w' Hr ltac:(lia) Hrun) as (H1 & H2 & H3 & H4).
      split; [done|]. split; [done|]. split; [simpl; lia|done].
Qed.
End Generated.

(** ** Loading again and the removal command *)

Lemma indexConsistent_NoDup {A} (key : A -> string) (l : list A) m :
  indexConsistent key l m -> NoDup (key <$> l).
Proof.
  intros Hc. apply NoDup_alt. intros i j k Hi Hj.
  rewrite list_lookup_fmap in Hi, Hj.
  destruct (l !! i) as [x|] eqn:Hx; [|done].
  destruct (l !! j) as [y|] eqn:Hy; [|done].
  injection Hi as Hi. injection Hj as Hj.
  assert (m !! k = Some (Z.of_nat i)) as H1 by (apply Hc; by exists i, x).
  assert (m !! k = Some (Z.of_nat j)) as H2 by (apply Hc; by exists j, y).
  rewrite H1 in H2. injection H2 as H2. lia.
Qed.

Lemma indexConsistent_unique {A} (key : A -> string) (l : list A) m1 m2 :
  indexConsistent key l m1 -> indexConsistent key l m2 -> m1 = m2.
Proof.
  intros H1 H2. apply map_eq. intros k. apply option_eq. intros z.
  by rewrite (H1 k z), (H2 k z).
Qed.

Lemma numericIds_below playlists ids b :
  numericIds playlists ids -> 0 < b ->
  (forall p z, p ∈ playlists -> intLiteral (Playlist_Id p) = Some z -> z < b) ->
  foldr Z.max 0 ids < b.
Proof.
  intros Hids Hb. induction Hids as [|p z playlists ids Hz _ IH]; simpl; intros Hlt.
  - done.
  - assert (z < b) by (apply (Hlt p); [by left|done]).
    assert (foldr Z.max 0 ids < b); [|lia].
    apply IH. intros q z' Hq. apply Hlt. by right.
Qed.

(** X11: loading again the collections of a healthy store, as they are in
    memory, succeeds and gives back the same collections and the same three
    indexes; the counter it sets is positive and not above the one in use,
    so the reloaded store is healthy too. *)
Theorem reload_reproduces w :
  healthy w ->
  exists w',
    NewDataStoreFromFile (heap w) (Users (store w)) (Playlists (store w))
      (Songs (store w)) = Ret None w' /\
    heap w' = heap w /\
    Users (store w') = Users (store w) /\
    Playlists (store w') = Playlists (store w) /\
    Songs (store w') = Songs (store w) /\
    userMap (store w') = userMap (store w) /\
    songMap (store w') = songMap (store w) /\
    playlistMap (store w') = playlistMap (store w) /\
    0 < nextPlaylistId (store w') <= nextPlaylistId (store w) /\
    healthy w'.
Proof.
  intros Hh. pose proof Hh as [Hinv Hsep Hids Hr].
  destruct (NewDataStoreFromFile_cases (heap w) (Users (store w))
              (Playlists (store w)) (Songs (store w)))
    as [(w' & ids & Hw' & Hnum & Hheap & HU & HP & HS & Hum & Hsm & Hpm & Hn)
       |(w' & l1 & p & l2 & k & Hw' & Hl & _ & Hbad)].
  - assert (userMap (store w') = userMap (store w)) as Eu.
    { rewrite Hum. apply (indexConsistent_unique User_Id (Users (store w)));
        [|apply (inv_users w Hinv)].
      apply indexLoop_consistent, (indexConsistent_NoDup _ _ _ (inv_users w Hinv)). }
    assert (songMap (store w') = songMap (store w)) as Es.
    { rewrite Hsm. apply (indexConsistent_unique Song_Id (Songs (store w)));
        [|apply (inv_songs w Hinv)].
      apply indexLoop_consistent, (indexConsistent_NoDup _ _ _ (inv_songs w Hinv)). }
    assert (playlistMap (store w') = playlistMap (store w)) as Ep.
    { rewrite Hpm. apply (indexConsistent_unique Playlist_Id (Playlists (store w)));
        [|apply (inv_playlists w Hinv)].
      apply indexLoop_consistent,
        (indexConsistent_NoDup _ _ _ (inv_playlists w Hinv)). }
    destruct (numericIds_bounds _ _ Hnum) as [Hb Hle].
    assert (foldr Z.max 0 ids < nextPlaylistId (store w)) as Hlt.
    { apply (numericIds_below (Playlists (store w))); [done|lia|].
      apply (inv_next w Hinv). }
    assert (nextPlaylistId (store w') = foldr Z.max 0 ids + 1) as Hn'.
    { rewrite Hn. unfold GoInt.add. apply wrap_small.
      unfold GoInt.inRange, GoInt.minInt, GoInt.maxInt in *. lia. }
    exists w'. do 8 (split; [done|]). split; [lia|].
    destruct Hinv as [Hiu His Hip Hrf Hne Hnx]. destruct Hsep as [Hnd Hwf].
    split; [split|split| |lia]; rewrite ?HU, ?HP, ?HS, ?Eu, ?Es, ?Ep, ?Hheap;
      try done.
    intros p z Hp Hz. destruct (Hle p Hp) as (z' & Hz' & Hzle).
    rewrite Hn'. assert (z = z') by congruence. lia.
  - assert (p ∈ Playlists (store w)) as Hp.
    { rewrite Hl. apply elem_of_app. right. by left. }
    destruct (Hids p Hp) as [z Hz]. congruence.
Qed.

Section RemoveCommand.
Variable slack : nat -> nat.

(** X12: a well-formed [rm-playlist] command never reports an error: for an
    id that is not in the playlist index it does nothing and succeeds. *)
Theorem rm_playlist_command_reports_no_error w command playlistId :
  slice_wf (heap w) command ->
  cells (heap w) command = [REMOVE_PLAYLIST; playlistId] ->
  (playlistMap (store w) !! playlistId = None ->
   ProcessCommand slack command w = Ret None w) /\
  (forall r w', ProcessCommand slack command w = Ret r w' -> r = None).
Proof.
  intros Hwf Hf. pose proof (cells_length _ _ Hwf) as Hlen.
  rewrite Hf in Hlen. simpl in Hlen.
  assert (ProcessCommand slack command w
          = reported command (dropValue (RemovePlaylist playlistId w))) as ->.
  { rewrite (ProcessCommand_handler slack w command _ _ _ Hf ltac:(lia)
               (handlers_rm slack)).
    f_equal. unfold removePlaylist. rewrite decide_False by lia.
    unfold bind. rewrite cell_eq, Hf. simpl.
    destruct (RemovePlaylist playlistId w) as [[b [err|]] w'|e]; by run. }
  split.
  - intros Hno. by rewrite RemovePlaylist_absent.
  - intros r w'.
    destruct (RemovePlaylist_cases playlistId w)
      as [E|[(t & last & Hlast & E)|[e E]]]; rewrite E; simpl; [| |done];
      by intros [= <- _].
Qed.
End RemoveCommand.

(** ** A song for a playlist that was removed *)

Lemma added_last w userId songIds :
  slice_wf (heap w) songIds -> len songIds <> 0%nat ->
  exists songIdsCopy,
    Playlists (store (added userId songIds w))
    = Playlists (store w)
      ++ [mkPlaylist (Itoa (nextPlaylistId (store w))) userId songIdsCopy] /\
    playlistMap (store (added userId songIds w))
    = <[Itoa (nextPlaylistId (store w)) := Z.of_nat (length (Playlists (store w)))]>
        (playlistMap (store w)) /\
    songMap (store (added userId songIds w)) = songMap (store w) /\
    slice_wf (heap (added userId songIds w)) songIdsCopy.
Proof.
  intros Hwf Hne. pose proof (make_copy (heap w) songIds Hwf Hne) as H.
  unfold added. destruct (make (heap w) (len songIds)) as [c h1].
  destruct H as (_ & _ & Hc & _). by exists c.
Qed.

Section StaleEntry.
Variable slack : nat -> nat.

(** C7: [AddSongToPlaylist] trusts the playlist index, and [RemovePlaylist]
    leaves in it the id of a playlist it removed from the last position.
    From then on a call for that id with a known song does not report that
    the playlist does not exist: it panics while the entry points past the
    end of the collection, and once [AddNewPlaylist] has put a playlist at
    that position it returns nil with the song appended to that playlist,
    which carries another id. *)
Theorem AddSongToPlaylist_follows_stale_entry w id songId :
  healthy w ->
  playlistMap (store w) !! id = Some (Z.of_nat (length (Playlists (store w))) - 1) ->
  is_Some (songMap (store w) !! songId) ->
  exists w1,
    RemovePlaylist id w = Ret (true, None) w1 /\
    (forall p, p ∈ Playlists (store w1) -> Playlist_Id p <> id) /\
    AddSongToPlaylist slack id songId w1
    = Panic (IndexOutOfRange (Z.of_nat (length (Playlists (store w1))))
               (length (Playlists (store w1)))) /\
    forall userId songIds newId w2,
      slice_wf (heap w1) songIds ->
      AddNewPlaylist userId songIds w1 = Ret (newId, None) w2 ->
      newId <> id /\
      exists w3 p p',
        AddSongToPlaylist slack id songId w2 = Ret None w3 /\
        last (Playlists (store w2)) = Some p /\
        Playlist_Id p = newId /\
        last (Playlists (store w3)) = Some p' /\
        Playlist_Id p' = newId /\
        cells (heap w3) (Playlist_SongIds p')
        = cells (heap w2) (Playlist_SongIds p) ++ [songId] /\
        (forall q, q ∈ Playlists (store w3) -> Playlist_Id q <> id).
Proof.
  intros Hh Hid Hsong.
  pose proof (healthy_invariant w Hh) as Hinv.
  pose proof (inv_playlists w Hinv) as Hcons.
  destruct (proj1 (Hcons _ _) Hid) as (t & target & Ht & Htarget & Hpid).
  assert (t = (length (Playlists (store w)) - 1)%nat) as Et by lia.
  apply lookup_lt_Some in Htarget as Hlen.
  assert (Z.of_nat (length (Playlists (store w))) - 1 = Z.of_nat t) as Ez by lia.
  rewrite Ez in Hid.
  set (w1 := removed id t target w).
  assert (Playlists (store w1) = take t (Playlists (store w))) as Hps1.
  { simpl. rewrite <- Et. rewrite take_insert_ge by lia. done. }
  assert (length (Playlists (store w1)) = t) as Hlen1.
  { rewrite Hps1, length_take. lia. }
  assert (playlistMap (store w1) !! id = Some (Z.of_nat t)) as Hstale.
  { simpl. by rewrite Hpid, lookup_insert_eq. }
  assert (forall p, p ∈ take t (Playlists (store w)) -> Playlist_Id p <> id) as Hgone.
  { intros p Hp Hpid'. apply list_elem_of_lookup in Hp as [j Hj].
    apply lookup_take_Some in Hj as [Hj Hlt].
    assert (Playlists (store w) !! j = Some p /\ Playlist_Id p = Playlist_Id target)
      as [Hj' Hkey] by (split; [done|congruence]).
    pose proof (indexConsistent_NoDup _ _ _ Hcons) as Hnd.
    assert (j = t); [|lia].
    apply (NoDup_lookup (Playlist_Id <$> Playlists (store w)) j t id); [done|..];
      rewrite list_lookup_fmap; [by rewrite Hj', <- Hpid'|by rewrite Htarget, <- Hpid]. }
  exists w1. split.
  { apply RemovePlaylist_present; [done|lia|]. by rewrite <- Et. }
  split; [by rewrite Hps1|].
  split.
  { unfold AddSongToPlaylist, index. run.
    destruct Hsong as [s Hs]. rewrite Hs.
    simpl in Hstale. rewrite Hstale.
    rewrite <- Et. rewrite take_insert_ge by lia.
    rewrite elemAt_of_nat, (lookup_ge_None_2 _ t) by (rewrite length_take; lia).
    simpl. rewrite length_take. do 2 f_equal; lia. }
  intros userId songIds newId w2 Hwf Hadd.
  destruct (AddNewPlaylist_accepted _ _ _ _ _ Hadd) as (_ & Hne & _ & -> & ->).
  assert (Itoa (nextPlaylistId (store w1)) <> id) as Hfresh.
  { intros Heq. destruct (healthy_belowCounter w Hh) as [Hrange Hbelow].
    destruct (Hbelow target) as (z & Hz & Hlt);
      [by eapply list_elem_of_lookup_2|].
    change (nextPlaylistId (store w1)) with (nextPlaylistId (store w)) in Heq.
    rewrite Hpid, <- Heq, (intLiteral_Itoa _ Hrange) in Hz. injection Hz as <-. lia. }
  split; [done|].
  destruct (added_last w1 userId songIds Hwf Hne) as (c & Hps2 & Hpm2 & Hsm2 & Hwfc).
  set (newp := mkPlaylist (Itoa (nextPlaylistId (store w1))) userId c) in *.
  set (w2 := added userId songIds w1) in *.
  assert (Playlists (store w2) !! t = Some newp) as Hnew.
  { rewrite Hps2. rewrite lookup_app_r by lia. by rewrite Hlen1, Nat.sub_diag. }
  destruct (AddSongToPlaylist_step slack w2 id songId (Z.of_nat t) newp)
    as (w3 & p1 & Hr & _ & Hid1 & _ & Hc1 & _ & Hps3 & _).
  - by rewrite Hsm2.
  - rewrite Hpm2, lookup_insert_ne by done. exact Hstale.
  - by rewrite elemAt_of_nat.
  - exact Hwfc.
  - exists w3, newp, p1. split; [exact Hr|].
    split; [by rewrite Hps2, last_snoc|]. split; [done|].
    rewrite Nat2Z.id in Hps3.
    assert (Playlists (store w3) = Playlists (store w1) ++ [p1]) as Hps3'.
    { rewrite Hps3, Hps2. rewrite insert_app_r_alt by lia.
      by rewrite Hlen1, Nat.sub_diag. }
    split; [by rewrite Hps3', last_snoc|]. split; [done|]. split; [done|].
    intros q Hq. rewrite Hps3' in Hq. apply elem_of_app in Hq as [Hq|Hq].
    + rewrite Hps1 in Hq. by apply Hgone.
    + apply list_elem_of_singleton in Hq as ->. by rewrite Hid1.
Qed.
End StaleEntry.

(** * Properties of the program *)

Section Main.
Variable slack : nat -> nat.

Lemma processLoop_returns cs : forall errs w errs' w',
  processLoop slack cs errs w = Ret errs' w' ->
  exists rs, runs slack cs w rs w' /\ errs' = errs ++ failures rs.
Proof.
  induction cs as [|c cs IH]; intros errs w errs' w' Hrun.
  - injection Hrun as <- <-. exists []. split; [constructor|by rewrite app_nil_r].
  - simpl in Hrun. unfold bind in Hrun.
    destruct (ProcessCommand slack c w) as [r w1|e] eqn:E; [|done].
    destruct (IH _ _ _ _ Hrun) as (rs & Hrs & ->).
    exists (r :: rs). split; [by econstructor|].
    destruct r as [err|]; simpl; [by rewrite <- app_assoc|done].
Qed.

Lemma ProcessAll_returns cp w cp' err w' :
  ProcessAll slack cp w = Ret (cp', err) w' ->
  exists rs,
    runs slack (Commands cp) w rs w' /\
    errors cp' = failures rs /\
    err = if decide (failures rs = []) then None else Some AtLeastOneError.
Proof.
  unfold ProcessAll, bind. intros Hrun.
  destruct (processLoop slack (Commands cp) [] w) as [errs w1|e] eqn:E; [|done].
  destruct (processLoop_returns _ _ _ _ _ E) as (rs & Hrs & ->). simpl in Hrun.
  exists rs. destruct (failures rs) as [|e es]; simpl in Hrun;
    injection Hrun as <- <- <-; by repeat split.
Qed.

Lemma failures_nil rs : failures rs = [] <-> Forall (fun r => r = None) rs.
Proof.
  unfold failures. induction rs as [|[e|] rs IH]; simpl.
  - split; [constructor|done].
  - split; [done|]. by intros [[=] _]%Forall_cons.
  - rewrite IH. split; [by constructor|]. by intros [_ ?]%Forall_cons.
Qed.

Ltac trace_members H :=
  simpl in H;
  repeat (apply elem_of_cons in H as [H|H]; [try discriminate|]);
  try (by apply elem_of_nil in H).

(** X13: [main] writes the output file only when the data store was
    loaded, the changes were read and every command succeeded: the one write
    goes to the [-out] file with mode 0644 and carries the store as the
    commands left it. *)
Theorem main_writes_only_after_clean_run o trace e filename data perm :
  Executable.main slack o = (trace, e) ->
  Executable.WriteFile filename data perm ∈ trace ->
  exists inputFilename changesFilename w h commands rs w',
    Executable.flags o = (inputFilename, filename, changesFilename) /\
    noFlagMissing o /\
    perm = Executable.OUT_FILE_PERMISSIONS /\
    (Executable.NewDataStoreFromFile o inputFilename).2 = Executable.Loaded w /\
    (Executable.LoadChangesFile o changesFilename (heap w)).2 = inl (h, commands) /\
    runs slack commands {| heap := h; store := store w |} rs w' /\
    Forall (fun r => r = None) rs /\
    Executable.marshalIndent o (Executable.exported w') Executable.PREFIX_STRING
      Executable.INDENT_STRING = inl data /\
    trace = [Executable.ReadFile inputFilename; Executable.Open changesFilename;
             Executable.ReadAll changesFilename;
             Executable.WriteFile filename data perm]
            ++ match Executable.writeFile o filename data perm with
               | None => []
               | Some err =>
                   [Executable.Printf
                      ("Problem writing data store to file ('%v'): %v" +:+ LF)
                      [Executable.PString filename; Executable.PFailure err]]
               end /\
    e = match Executable.writeFile o filename data perm with
        | None => Executable.Return
        | Some _ => Executable.Exit Executable.EXIT_FAILURE
        end.
Proof.
  unfold Executable.main. intros Hmain Hin.
  destruct (GetCommandLineArgsOrExit_cases o)
    as [[Hf E]|[Hf [(m & _ & E)|[[_ E]|[_ E]]]]];
    rewrite E in Hmain; clear E.
  2,3,4: injection Hmain as <- <-; trace_members Hin.
  destruct (Executable.flags o) as [[i out] c] eqn:Eflags.
  unfold Executable.NewDataStoreFromFile in *.
  set (ld := match Executable.readFile o i with inr err => _ | inl d => _ end) in *.
  destruct ld as [w|err|] eqn:Eld.
  2:{ injection Hmain as <- <-. trace_members Hin. }
  2:{ injection Hmain as <- <-. trace_members Hin. }
  unfold Executable.LoadChangesFile in *.
  destruct (Executable.open o c) as [err|] eqn:Eopen.
  { injection Hmain as <- <-. trace_members Hin. }
  destruct (Executable.readAll o c (heap w)) as [[h commands]|err] eqn:Eread.
  2:{ injection Hmain as <- <-. trace_members Hin. }
  destruct (ProcessAll slack (NewCommandProcessor commands) _)
    as [[cp [err|]] w'|e'] eqn:Erun.
  { injection Hmain as <- <-. trace_members Hin. }
  2:{ injection Hmain as <- <-. trace_members Hin. }
  destruct (ProcessAll_returns _ _ _ _ _ Erun) as (rs & Hrs & _ & Herr).
  destruct (decide (failures rs = [])) as [Hnil|]; [|done].
  unfold Executable.WriteToFile in *.
  destruct (Executable.marshalIndent o (Executable.exported w') _ _) as [json|err] eqn:Em.
  2:{ injection Hmain as <- <-. trace_members Hin. }
  assert (filename = out /\ data = json /\ perm = Executable.OUT_FILE_PERMISSIONS)
    as (-> & -> & ->).
  { destruct (Executable.writeFile o out json _); injection Hmain as <- <-;
      trace_members Hin; injection Hin as -> -> ->; done. }
  exists i, c, w, h, commands, rs, w'.
  split; [done|]. split; [done|]. split; [done|]. split; [done|].
  split; [unfold Executable.LoadChangesFile; rewrite Eopen; simpl; by rewrite Eread|].
  split; [done|]. split; [by apply failures_nil|].
  split; [done|].
  destruct (Executable.writeFile o out json _); by injection Hmain as <- <-.
Qed.

(** X14: one failed command is enough for [main] to write nothing: when
    the store was loaded, the changes were read and the commands ran with at
    least one failure, [main] reads the two files, prints the failures in
    command order and exits with [EXIT_FAILURE], the output file untouched,
    also by the commands that succeeded. *)
Theorem failed_command_blocks_output o inputFilename outputFilename
    changesFilename w h commands rs w' :
  Executable.flags o = (inputFilename, outputFilename, changesFilename) ->
  noFlagMissing o ->
  (Executable.NewDataStoreFromFile o inputFilename).2 = Executable.Loaded w ->
  (Executable.LoadChangesFile o changesFilename (heap w)).2 = inl (h, commands) ->
  runs slack commands {| heap := h; store := store w |} rs w' ->
  failures rs <> [] ->
  Executable.main slack o
  = ([Executable.ReadFile inputFilename; Executable.Open changesFilename;
      Executable.ReadAll changesFilename;
      Executable.Printf
        ("Problem with executing changes: %v" +:+ LF +:+ "List of problems:"
         +:+ LF +:+ "%v" +:+ LF)
        [Executable.PFailure (Executable.Own AtLeastOneError);
         Executable.PErrors (failures rs)]],
     Executable.Exit Executable.EXIT_FAILURE).
Proof.
  intros Eflags Hf Hload Hchanges Hruns Hfail. unfold Executable.main.
  destruct (GetCommandLineArgsOrExit_cases o) as [[_ ->]|[[] _]]; [|done].
  rewrite Eflags.
  unfold Executable.NewDataStoreFromFile in *. simpl in Hload. rewrite Hload.
  unfold Executable.LoadChangesFile in *.
  destruct (Executable.open o changesFilename) as [err|]; [done|].
  simpl in Hchanges. rewrite Hchanges.
  unfold ProcessAll, bind. simpl.
  rewrite (processLoop_runs slack _ _ _ _ [] Hruns). simpl.
  destruct (failures rs) as [|err errs]; done.
Qed.


(** X16: how [main] ends.  It exits with status 2 exactly when [flag.Parse]
    refuses the command line or one of the three flags is empty, and with
    status 0 exactly when [flag.Parse] met -h; in both cases it has printed
    the usage, after the complaint of [flag.Parse] if there is one, and done
    nothing else.  Otherwise it reads the data store file first; it returns
    only after a write that succeeded; every other ending that is no panic
    is [EXIT_FAILURE], with a message as the last thing done.  At most one
    file is written. *)
Theorem main_endings o trace e :
  Executable.main slack o = (trace, e) ->
  (e = Executable.Exit Executable.EXIT_USAGE_FAILURE <->
   (exists message, Executable.parse o = Executable.Refused message) \/
   (exists i out c,
      Executable.parse o = Executable.Parsed i out c /\
      (i = EmptyString \/ out = EmptyString \/ c = EmptyString))) /\
  (e = Executable.Exit Executable.EXIT_SUCCESS <->
   Executable.parse o = Executable.Help) /\
  (~ noFlagMissing o ->
   trace = match Executable.parse o with
           | Executable.Refused message =>
               [Executable.FlagError message; Executable.Usage]
           | _ => [Executable.Usage]
           end) /\
  (noFlagMissing o ->
   head trace = Some (Executable.ReadFile (Executable.flags o).1.1)) /\
  (e = Executable.Return ->
   exists filename data perm,
     last trace = Some (Executable.WriteFile filename data perm) /\
     Executable.writeFile o filename data perm = None) /\
  (noFlagMissing o -> e <> Executable.Return -> e <> Executable.Crash ->
   e = Executable.Exit Executable.EXIT_FAILURE /\
   exists format args, last trace = Some (Executable.Printf format args)) /\
  (length (written trace) <= 1)%nat.
Proof.
  unfold Executable.main. intros Hmain.
  destruct (GetCommandLineArgsOrExit_cases o)
    as [[Hf E]|[Hf [(m & Hp & E)|[[Hp E]|[(i & out & c & Hp & Hempty) E]]]]];
    rewrite E in Hmain; clear E.
  2:{ injection Hmain as <- <-. rewrite Hp.
      split; [split; [intros _; left; by exists m|done]|].
      repeat split; try done. simpl. lia. }
  2:{ injection Hmain as <- <-. rewrite Hp.
      split; [split; [done|by intros [[? ?]|(? & ? & ? & ? & _)]]|].
      repeat split; try done. simpl. lia. }
  2:{ injection Hmain as <- <-. rewrite Hp.
      split; [split; [intros _; right; by exists i, out, c|done]|].
      repeat split; try done. simpl. lia. }
  assert (exists i out c,
            Executable.parse o = Executable.Parsed i out c /\
            i <> EmptyString /\ out <> EmptyString /\ c <> EmptyString)
    as (i & out & c & Hp & Hi & Hout & Hc).
  { unfold noFlagMissing in Hf.
    destruct (Executable.parse o) as [i out c| |]; [|done..].
    by exists i, out, c. }
  assert (Executable.flags o = (i, out, c)) as Eflags
    by (unfold Executable.flags; by rewrite Hp).
  rewrite Eflags in Hmain |- *. rewrite Hp.
  unfold Executable.NewDataStoreFromFile in Hmain.
  set (ld := match Executable.readFile o i with inr err => _ | inl d => _ end) in Hmain.
  clearbody ld.
  assert (forall tr en,
    (tr, en) = (trace, e) ->
    head tr = Some (Executable.ReadFile i) ->
    (length (written tr) <= 1)%nat ->
    (en = Executable.Return \/ en = Executable.Crash \/
     en = Executable.Exit Executable.EXIT_FAILURE) ->
    (en = Executable.Return ->
     exists filename data perm,
       last tr = Some (Executable.WriteFile filename data perm) /\
       Executable.writeFile o filename data perm = None) ->
    (en = Executable.Exit Executable.EXIT_FAILURE ->
     exists format args, last tr = Some (Executable.Printf format args)) ->
    (e = Executable.Exit Executable.EXIT_USAGE_FAILURE <->
     (exists message, Executable.Parsed i out c = Executable.Refused message) \/
     (exists i' out' c',
        Executable.Parsed i out c = Executable.Parsed i' out' c' /\
        (i' = EmptyString \/ out' = EmptyString \/ c' = EmptyString))) /\
    (e = Executable.Exit Executable.EXIT_SUCCESS <->
     Executable.Parsed i out c = Executable.Help) /\
    (~ noFlagMissing o -> trace = [Executable.Usage]) /\
    (noFlagMissing o -> head trace = Some (Executable.ReadFile (i, out, c).1.1)) /\
    (e = Executable.Return ->
     exists filename data perm,
       last trace = Some (Executable.WriteFile filename data perm) /\
       Executable.writeFile o filename data perm = None) /\
    (noFlagMissing o -> e <> Executable.Return -> e <> Executable.Crash ->
     e = Executable.Exit Executable.EXIT_FAILURE /\
     exists format args, last trace = Some (Executable.Printf format args)) /\
    (length (written trace) <= 1)%nat) as Hsum.
  { intros tr en [= <- <-] Hhead Hwritten Hen Hreturn Hfailure.
    split.
    { split.
      - intros ->. by destruct Hen as [|[|]].
      - intros [[? [=]]|(? & ? & ? & [= <- <- <-] & [|[|]])]; done. }
    split; [split; [intros ->; by destruct Hen as [|[|]]|done]|].
    split; [tauto|]. split; [done|]. split; [done|]. split; [|done].
    intros _ Hr Hcr. destruct Hen as [|[|Hen]]; [done..|].
    split; [done|]. by apply Hfailure. }
  destruct ld as [w|err|].
  2:{ eapply Hsum; [exact Hmain|done|simpl; lia|by right; right|done|].
      intros _. by eexists _, _. }
  2:{ eapply Hsum; [exact Hmain|done|simpl; lia|by right; left|done|done]. }
  unfold Executable.LoadChangesFile in Hmain.
  destruct (Executable.open o c) as [err|].
  { eapply Hsum; [exact Hmain|done|simpl; lia|by right; right|done|].
    intros _. by eexists _, _. }
  destruct (Executable.readAll o c (heap w)) as [[h commands]|err].
  2:{ eapply Hsum; [exact Hmain|done|simpl; lia|by right; right|done|].
      intros _. by eexists _, _. }
  destruct (ProcessAll slack (NewCommandProcessor commands) _)
    as [[cp [err|]] w'|e'].
  { eapply Hsum; [exact Hmain|done|simpl; lia|by right; right|done|].
    intros _. by eexists _, _. }
  2:{ eapply Hsum; [exact Hmain|done|simpl; lia|by right; left|done|done]. }
  unfold Executable.WriteToFile in Hmain.
  destruct (Executable.marshalIndent o (Executable.exported w') _ _) as [json|err].
  2:{ eapply Hsum; [exact Hmain|done|simpl; lia|by right; right|done|].
      intros _. by eexists _, _. }
  destruct (Executable.writeFile o out json _) as [err|] eqn:Ewrite.
  - eapply Hsum; [exact Hmain|done|simpl; lia|by right; right|done|].
    intros _. by eexists _, _.
  - eapply Hsum; [exact Hmain|done|simpl; lia|by left| |done].
    intros _. by eexists _, _, _.
Qed.
End Main.

(** ** The further properties on the concrete store *)

Lemma Fixture_healthy : healthy Fixture.loaded.
Proof.
  split.
  - exact Fixture_invariant.
  - split.
    + by apply (bool_decide_unpack _).
    + intros p Hp. simpl in Hp. each_element Hp; wf_concrete.
  - intros p Hp. simpl in Hp. each_element Hp; by eexists.
  - vm_compute. by split.
Qed.

Lemma AddSongToPlaylist_follows_stale_entry_witness :
  exists w1 w2 w3 p',
    RemovePlaylist "3" Fixture.loaded = Ret (true, None) w1 /\
    AddSongToPlaylist Fixture.slack "3" "1" w1 = Panic (IndexOutOfRange 2 2) /\
    AddNewPlaylist "1" (slice_from (Fixture.whole 4 4) 2) w1
    = Ret ("4"%string, None) w2 /\
    AddSongToPlaylist Fixture.slack "3" "1" w2 = Ret None w3 /\
    last (Playlists (store w3)) = Some p' /\
    Playlist_Id p' = "4"%string /\
    Forall (fun q => Playlist_Id q <> "3"%string) (Playlists (store w3)).
Proof.
  destruct (AddSongToPlaylist_follows_stale_entry Fixture.slack Fixture.loaded
              "3" "1" Fixture_healthy eq_refl ltac:(by eexists))
    as (w1 & Hrm & _ & Hpanic & Hnext).
  assert (w1 = removed "3" 2 (mkPlaylist "3" "1" (Fixture.whole 3 2)) Fixture.loaded)
    as -> by (injection Hrm as <-; reflexivity).
  destruct (Hnext "1"%string (slice_from (Fixture.whole 4 4) 2) "4"%string
              (added "1" (slice_from (Fixture.whole 4 4) 2)
                 (removed "3" 2 (mkPlaylist "3" "1" (Fixture.whole 3 2))
                    Fixture.loaded)))
    as (_ & w3 & p & p' & Hsong & _ & _ & Hlast & Hid & _ & Hnone).
  - wf_concrete.
  - reflexivity.
  - exists (removed "3" 2 (mkPlaylist "3" "1" (Fixture.whole 3 2)) Fixture.loaded),
      (added "1" (slice_from (Fixture.whole 4 4) 2)
         (removed "3" 2 (mkPlaylist "3" "1" (Fixture.whole 3 2)) Fixture.loaded)),
      w3, p'.
    split; [exact Hrm|]. split; [exact Hpanic|].
    split; [reflexivity|]. split; [exact Hsong|]. split; [exact Hlast|].
    split; [exact Hid|]. by apply Forall_forall.
Defined.

Lemma RemovePlaylist_removes_target_witness :
  exists w',
    RemovePlaylist "1" Fixture.loaded = Ret (true, None) w' /\
    Playlists (store w') ≡ₚ delete 0%nat Fixture.playlists /\
    healthy w'.
Proof.
  destruct (RemovePlaylist_removes_target Fixture.loaded "1" 0
              (mkPlaylist "1" "1" (Fixture.whole 1 2)) eq_refl eq_refl)
    as (w' & Hr & Hp & _ & _ & _ & _ & _ & _ & _ & _ & Hh).
  exists w'. split; [exact Hr|]. split; [exact Hp|].
  apply Hh; [exact Fixture_healthy|simpl; lia].
Defined.

Lemma RemovePlaylist_answers_witness :
  playlistMap (store Fixture.loaded) !! "7"%string = None /\
  Users (store Fixture.loaded) = Fixture.users.
Proof.
  destruct (RemovePlaylist_answers Fixture.loaded "7" false None Fixture.loaded
              eq_refl)
    as (_ & Hf & _ & _ & Hu & _).
  split; [by apply Hf|exact Hu].
Defined.

Lemma construction_establishes_invariants_witness :
  exists w,
    NewDataStoreFromFile Fixture.memory Fixture.users (take 2 Fixture.playlists)
      Fixture.songs = Ret None w /\
    healthy w.
Proof.
  destruct (NewDataStoreFromFile Fixture.memory Fixture.users
              (take 2 Fixture.playlists) Fixture.songs) as [[err|] w|e] eqn:E;
    [vm_compute in E; discriminate| |vm_compute in E; discriminate].
  exists w. split; [reflexivity|].
  apply (construction_establishes_invariants Fixture.memory Fixture.users
           (take 2 Fixture.playlists) Fixture.songs w E).
  - by apply (bool_decide_unpack _).
  - by apply (bool_decide_unpack _).
  - by apply (bool_decide_unpack _).
  - intros p Hp. simpl in Hp.
    each_element Hp;
      (split; [by apply (bool_decide_unpack _)|]);
      (split; [by vm_compute|]);
      (split; [|wf_concrete]);
      intros s Hs; vm_compute in Hs; each_element Hs;
      by apply (bool_decide_unpack _).
  - by apply (bool_decide_unpack _).
  - vm_compute in E. injection E as <-. reflexivity.
Defined.

Lemma AddNewPlaylist_keeps_healthy_witness :
  healthy (added "1" (slice_from (Fixture.whole 4 4) 2) Fixture.loaded) /\
  playlistMap (store Fixture.loaded) !! "4"%string = None.
Proof.
  destruct (AddNewPlaylist_keeps_healthy Fixture.loaded "1"
              (slice_from (Fixture.whole 4 4) 2) "4"
              (added "1" (slice_from (Fixture.whole 4 4) 2) Fixture.loaded))
    as (Hh & Hid & _).
  - exact Fixture_healthy.
  - wf_concrete.
  - vm_compute. reflexivity.
  - reflexivity.
  - by split.
Defined.

Lemma AddSongToPlaylist_keeps_healthy_witness :
  exists w',
    AddSongToPlaylist Fixture.slack "1" "3" Fixture.loaded = Ret None w' /\
    healthy w'.
Proof.
  destruct (AddSongToPlaylist_keeps_healthy Fixture.slack Fixture.loaded "1" "3"
              Fixture_healthy)
    as [[err E]|(w' & i & p & p' & E & _ & _ & _ & _ & _ & _ & _ & Hh)].
  - vm_compute in E. discriminate.
  - by exists w'.
Defined.

Lemma operations_keep_users_and_songs_witness :
  exists w',
    performAll Fixture.slack
      [OpAddNewPlaylist "1" (slice_from (Fixture.whole 4 4) 2);
       OpRemovePlaylist "2"; OpAddSongToPlaylist "4" "3"] Fixture.loaded
    = Ret tt w' /\
    Users (store w') = Fixture.users /\
    songMap (store w') = songMap (store Fixture.loaded).
Proof.
  destruct (performAll Fixture.slack
              [OpAddNewPlaylist "1" (slice_from (Fixture.whole 4 4) 2);
               OpRemovePlaylist "2"; OpAddSongToPlaylist "4" "3"] Fixture.loaded)
    as [[] w'|e] eqn:E; [|vm_compute in E; discriminate].
  exists w'. split; [reflexivity|].
  destruct (operations_keep_users_and_songs Fixture.slack _ _ _ E)
    as (Hu & _ & _ & Hs).
  by split.
Defined.

Lemma generated_ids_are_consecutive_witness :
  exists ids w',
    generatedIds Fixture.slack
      [OpAddNewPlaylist "1" (slice_from (Fixture.whole 4 4) 2);
       OpRemovePlaylist "2";
       OpAddNewPlaylist "2" (slice_from (Fixture.whole 4 4) 2)] Fixture.loaded
    = Ret ids w' /\
    ids = Itoa <$> seqZ 4 (Z.of_nat (length ids)) /\
    NoDup ids.
Proof.
  destruct (generatedIds Fixture.slack
              [OpAddNewPlaylist "1" (slice_from (Fixture.whole 4 4) 2);
               OpRemovePlaylist "2";
               OpAddNewPlaylist "2" (slice_from (Fixture.whole 4 4) 2)]
              Fixture.loaded)
    as [ids w'|e] eqn:E; [|vm_compute in E; discriminate].
  exists ids, w'. split; [reflexivity|].
  destruct (generated_ids_are_consecutive Fixture.slack
              [OpAddNewPlaylist "1" (slice_from (Fixture.whole 4 4) 2);
               OpRemovePlaylist "2";
               OpAddNewPlaylist "2" (slice_from (Fixture.whole 4 4) 2)]
              Fixture.loaded ids w')
    as (Hids & _ & _ & Hnd).
  - vm_compute. by split.
  - vm_compute. discriminate.
  - exact E.
  - by split.
Defined.

Lemma reload_reproduces_witness :
  exists w',
    NewDataStoreFromFile Fixture.memory Fixture.users Fixture.playlists
      Fixture.songs = Ret None w' /\
    playlistMap (store w') = playlistMap (store Fixture.loaded) /\
    healthy w'.
Proof.
  destruct (reload_reproduces Fixture.loaded Fixture_healthy)
    as (w' & Hr & _ & _ & _ & _ & _ & _ & Hp & _ & Hh).
  by exists w'.
Defined.

Lemma rm_playlist_command_reports_no_error_witness :
  exists w',
    ProcessCommand Fixture.slack (Fixture.whole 6 2) Fixture.loaded = Ret None w'.
Proof.
  destruct (ProcessCommand Fixture.slack (Fixture.whole 6 2) Fixture.loaded)
    as [r w'|e] eqn:E; [|vm_compute in E; discriminate].
  exists w'.
  destruct (rm_playlist_command_reports_no_error Fixture.slack Fixture.loaded
              (Fixture.whole 6 2) "3") as [_ H].
  - wf_concrete.
  - reflexivity.
  - by rewrite (H r w' E).
Defined.

Lemma main_writes_only_after_clean_run_witness :
  exists rs w',
    runs Fixture.slack
      [Fixture.whole 4 4; Fixture.whole 5 3; Fixture.whole 6 2]
      Fixture.loaded rs w' /\
    Forall (fun r => r = None) rs.
Proof.
  destruct (main_writes_only_after_clean_run Fixture.slack
              (Invocation.outside Fixture.playlists
                 [Fixture.whole 4 4; Fixture.whole 5 3; Fixture.whole 6 2])
              [Executable.ReadFile "mixtape.json"; Executable.Open "changes.csv";
               Executable.ReadAll "changes.csv";
               Executable.WriteFile "output.json" "{}" Executable.OUT_FILE_PERMISSIONS]
              Executable.Return "output.json" "{}" Executable.OUT_FILE_PERMISSIONS)
    as (i & c & w & h & commands & rs & w' & Hflags & _ & _ & Hload & Hchanges
        & Hruns & Hnone & _).
  - vm_compute. reflexivity.
  - do 3 right. left.
  - injection Hload as <-. injection Hchanges as <- <-. by exists rs, w'.
Defined.

Lemma failed_command_blocks_output_witness :
  Executable.main Fixture.slack
    (Invocation.outside Fixture.playlists [Fixture.whole 5 3; Fixture.whole 7 1])
  = ([Executable.ReadFile "mixtape.json"; Executable.Open "changes.csv";
      Executable.ReadAll "changes.csv";
      Executable.Printf
        ("Problem with executing changes: %v" +:+ LF +:+ "List of problems:"
         +:+ LF +:+ "%v" +:+ LF)
        [Executable.PFailure (Executable.Own AtLeastOneError);
         Executable.PErrors
           [Problem ["rm-playlist"%string] (ArityErrorCommand "rm-playlist")]]],
     Executable.Exit Executable.EXIT_FAILURE).
Proof.
  eapply (failed_command_blocks_output Fixture.slack
            (Invocation.outside Fixture.playlists
               [Fixture.whole 5 3; Fixture.whole 7 1])
            "mixtape.json" "output.json" "changes.csv"
            Fixture.loaded Fixture.memory [Fixture.whole 5 3; Fixture.whole 7 1]
            [None; Some (Problem ["rm-playlist"%string]
                           (ArityErrorCommand "rm-playlist"))]).
  - reflexivity.
  - by repeat split.
  - reflexivity.
  - reflexivity.
  - eapply runs_cons; [vm_compute; reflexivity|].
    eapply runs_cons; [vm_compute; reflexivity|].
    apply runs_nil.
  - discriminate.
Defined.


Lemma main_endings_witness :
  (exists message,
     Executable.parse Invocation.refused = Executable.Refused message) /\
  exists filename data perm,
    last (Executable.main Fixture.slack (Invocation.outside Fixture.playlists [])).1
    = Some (Executable.WriteFile filename data perm).
Proof.
  split.
  - destruct (main_endings Fixture.slack Invocation.refused
                [Executable.FlagError "flag provided but not defined: -x";
                 Executable.Usage]
                (Executable.Exit Executable.EXIT_USAGE_FAILURE) eq_refl)
      as ([H _] & _).
    destruct (H eq_refl) as [Hm|(i & out & c & Hp & _)]; [exact Hm|discriminate].
  - destruct (main_endings Fixture.slack
                (Invocation.outside Fixture.playlists [])
                [Executable.ReadFile "mixtape.json"; Executable.Open "changes.csv";
                 Executable.ReadAll "changes.csv";
                 Executable.WriteFile "output.json" "{}"
                   Executable.OUT_FILE_PERMISSIONS]
                Executable.Return)
      as (_ & _ & _ & _ & Hr & _).
    + vm_compute. reflexivity.
    + destruct (Hr eq_refl) as (f & d & p & Hl & _). by exists f, d, p.
Defined.
